(** * osr: the routing-graph store (src/ways.cc)

    A shallow embedding of [osr::ways]: graph construction
    ([connect_ways]), component labelling ([build_components]), turn
    restrictions ([add_restriction]), major-road propagation
    ([compute_big_street_neighbors]) and the conditional-access lookup
    ([get_access_restriction]).

    Conventions.  Dense indices and external ids ([way_idx_t],
    [node_idx_t], [osm_node_idx_t], ...) are strong typedefs over unsigned
    integers that the code only compares and uses as array positions; they
    are [nat] here.  Values whose width matters (the 16-bit in-way
    position and segment distance, the component counter) are [Z] with the
    wrap-around written out.  Columns ([vecvec], [mm_vec], [bitvec]) are
    lists, indexed with stdpp's lookup; [hash_set] is [gset]. *)

From Stdlib Require Import ZArith Lia List Permutation Sorted Relations String Ascii.
From stdpp Require Import base list gmap sets sorting.
From Stdlib Require Import DecimalString.

Open Scope Z_scope.
Open Scope nat_scope.
Set Warnings "-clear-no-such-hyp".

(** ** Identifiers *)

Abbreviation way_idx_t := nat (only parsing).
Abbreviation node_idx_t := nat (only parsing).
Abbreviation osm_node_idx_t := nat (only parsing).
Abbreviation osm_way_idx_t := nat (only parsing).
Abbreviation string_idx_t := nat (only parsing).
Abbreviation component_idx_t := Z (only parsing).
Abbreviation way_pos_t := Z (only parsing).

(** ** The routing blob ([ways::routing]) *)

(** [way_properties] is a packed record in the header; only
    [is_big_street_] is touched by this file, the remaining bits are kept
    as one opaque field. *)
Record way_properties := mk_way_properties {
  is_big_street_ : bool;
  other_properties_ : Z
}.

Definition is_big_street (p : way_properties) : bool := is_big_street_ p.

Definition set_big_street (p : way_properties) : way_properties :=
  {| is_big_street_ := true; other_properties_ := other_properties_ p |}.

Record restriction := mk_restriction {
  from_pos_ : way_pos_t;
  to_pos_ : way_pos_t
}.

Record routing := mk_routing {
  way_properties_ : list way_properties;
  way_nodes_ : list (list node_idx_t);
  way_node_dist_ : list (list Z);
  node_ways_ : list (list way_idx_t);
  node_in_way_idx_ : list (list Z);
  node_is_restricted_ : list bool;
  node_restrictions_ : list (list restriction);
  way_component_ : list component_idx_t
}.

Definition empty_routing : routing :=
  mk_routing [] [] [] [] [] [] [] [].

(** Bucket access [col[i]]: the code never indexes out of range on a
    consistent store; the model reads the empty bucket there. *)
Definition bucket {A} (col : list (list A)) (i : nat) : list A :=
  default [] (col !! i).

Definition test_bit (bits : list bool) (i : nat) : bool :=
  default false (bits !! i).

(** [utl::enumerate]: the elements paired with their positions. *)
Definition enumerate {A} (l : list A) : list (nat * A) := imap (λ i x, (i, x)) l.

(** ** Loops with early exit

    [for (x : xs) { if (body(x)) return true; } return false;] over a
    state [S]; [None] is fuel exhaustion of a nested recursive call. *)
Fixpoint for_until {A S : Type} (body : A → S → option (bool * S))
    (xs : list A) (s : S) : option (bool * S) :=
  match xs with
  | [] => Some (false, s)
  | x :: xs' =>
      match body x s with
      | None => None
      | Some (true, s') => Some (true, s')
      | Some (false, s') => for_until body xs' s'
      end
  end.

(** ** Major-road propagation ([ways::compute_big_street_neighbors]) *)

Module BigStreet.

(** Per-invocation state: the flags column being written and the
    thread-local [state::done_]. *)
Record st := mk_st {
  props : list way_properties;
  done_ : gset way_idx_t
}.

(** [s.done_.emplace(w).second]: inserts, and tells whether [w] was new. *)
Definition emplace (w : way_idx_t) (s : st) : bool * st :=
  (bool_decide (w ∉ done_ s), mk_st (props s) ({[w]} ∪ done_ s)).

Definition flag_way (way : way_idx_t) (s : st) : st :=
  mk_st (alter set_big_street way (props s)) (done_ s).

Section Expand.
Variable r : routing.
Variable is_orig_big_street : list bool.
Variable way : way_idx_t.

(** The body of the inner loop, lines 124-133, for one way [w] touching
    a node of [x].  [recurse] is the lambda's own third parameter; the
    call on line 130 is [recurse(x, false, recurse)], and its result
    decides between [return true] and the next iteration. *)
Definition inspect (recurse : way_idx_t → bool → st → option (bool * st))
    (x : way_idx_t) (go_further : bool) (w : way_idx_t) (s : st)
    : option (bool * st) :=
  if test_bit is_orig_big_street w then Some (true, flag_way way s)
  else
    let '(fresh, s1) := emplace w s in
    if fresh && go_further then recurse x false s1
    else Some (false, s1).

(** The generic lambda [expand(x, go_further, recurse)], lines 120-137. *)
Definition expand_with (recurse : way_idx_t → bool → st → option (bool * st))
    (x : way_idx_t) (go_further : bool) (s : st) : option (bool * st) :=
  for_until (λ n, for_until (inspect recurse x go_further) (bucket (node_ways_ r) n))
    (bucket (way_nodes_ r) x) s.

(** [expand(.., .., expand)]: the lambda applied to itself. *)
Fixpoint expand (fuel : nat) (x : way_idx_t) (go_further : bool) (s : st)
    : option (bool * st) :=
  match fuel with
  | O => None
  | S fuel' => expand_with (expand fuel') x go_further s
  end.
End Expand.

(** The snapshot taken on lines 104-107: a vector of [n] bits, entry [i]
    overwritten with [way_properties_[i].is_big_street()]. *)
Definition snapshot (n : nat) (ps : list way_properties) : list bool :=
  resize n false (is_big_street <$> ps).

(** One unit of the parallel loop, lines 110-142. *)
Definition visit (fuel : nat) (r : routing) (orig : list bool)
    (ps : list way_properties) (i : nat) : option (list way_properties) :=
  let way := i in
  if test_bit orig way then Some ps
  else
    let s := mk_st ps ({[way]} ∪ ∅) in
    match expand r orig way fuel way true s with
    | None => None
    | Some (_, s') => Some (props s')
    end.

(** *** Vocabulary of the statements *)

(** What one call of [expand] on [x] can see: an originally major way at
    one of the nodes of [x]. *)
Definition near_major (r : routing) (orig : list bool) (x : way_idx_t) : bool :=
  existsb (λ n, existsb (test_bit orig) (bucket (node_ways_ r) n))
    (bucket (way_nodes_ r) x).

(** The flags after a call made for [way] that answered [false],
    respectively [true]. *)
Definition kept (s t : st) : Prop := props t = props s.

Definition flagged (way : way_idx_t) (s t : st) : Prop :=
  props t = alter set_big_street way (props s).

End BigStreet.

(** ** Component labelling ([ways::build_components]) *)

Module Components.

(** [component_idx_t::invalid()]: the strong typedef's sentinel, the
    largest value of its 32-bit representation. *)
Definition invalid : component_idx_t := (2 ^ 32 - 1)%Z.

(** [next_component_idx++] on a 32-bit counter. *)
Definition incr (c : component_idx_t) : component_idx_t := ((c + 1) mod 2 ^ 32)%Z.

(** [*q.begin()] of a [hash_set]: some element of a non-empty set; which
    one depends on the hash layout and is left open. *)
Class HashOrder := {
  hash_begin : gset way_idx_t → way_idx_t;
  hash_begin_elem : ∀ q, q ≠ ∅ → hash_begin q ∈ q
}.

(** Lines 38-42: [wc = way_component_[w]; if (wc == invalid) { wc = c;
    q.insert(w); }].  An index outside the column (not reachable on a
    consistent store) is left alone. *)
Definition claim_way (c : component_idx_t) (s : list component_idx_t * gset way_idx_t)
    (w : way_idx_t) : list component_idx_t * gset way_idx_t :=
  match s.1 !! w with
  | Some wc => if bool_decide (wc = invalid) then (<[w := c]> s.1, {[w]} ∪ s.2) else s
  | None => s
  end.

(** Lines 36-44: the two nested loops over the nodes of [next] and the
    ways touching each of them. *)
Definition spread (r : routing) (c : component_idx_t) (next : way_idx_t)
    (s : list component_idx_t * gset way_idx_t) : list component_idx_t * gset way_idx_t :=
  fold_left (λ s n, fold_left (claim_way c) (bucket (node_ways_ r) n) s)
    (bucket (way_nodes_ r) next) s.

Section FloodFill.
Context `{HashOrder}.

(** The [while (!q.empty())] loop, lines 33-45. *)
Fixpoint flood_loop (fuel : nat) (r : routing) (c : component_idx_t)
    (wc : list component_idx_t) (q : gset way_idx_t) : option (list component_idx_t) :=
  match fuel with
  | O => None
  | S fuel' =>
      if decide (q = ∅) then Some wc
      else
        let next := hash_begin q in
        let q := q ∖ {[next]} in
        let '(wc, q) := spread r c next (wc, q) in
        flood_loop fuel' r c wc q
  end.

(** The lambda [flood_fill(way_idx, c)], lines 30-46. *)
Definition flood_fill (fuel : nat) (r : routing) (way_idx : way_idx_t)
    (c : component_idx_t) (wc : list component_idx_t) : option (list component_idx_t) :=
  flood_loop fuel r c wc ({[way_idx]} ∪ ∅).

(** The body of the loop on lines 53-62; the state is the component
    column and [next_component_idx]. *)
Definition label_way (fuel : nat) (r : routing)
    (s : list component_idx_t * component_idx_t) (i : nat)
    : option (list component_idx_t * component_idx_t) :=
  let '(wc, next_component_idx) := s in
  match wc !! i with
  | None => Some s
  | Some c =>
      if bool_decide (c ≠ invalid) then Some s
      else
        let c := next_component_idx in
        match flood_fill fuel r i c (<[i := c]> wc) with
        | None => None
        | Some wc' => Some (wc', incr next_component_idx)
        end
  end.
End FloodFill.

(** *** Vocabulary of the statements *)

(** Two ways touch when they share an internal node; they are connected
    when a chain of touching ways leads from one to the other. *)
Definition touches (r : routing) (a b : way_idx_t) : Prop :=
  ∃ nd, nd ∈ bucket (way_nodes_ r) a ∧ nd ∈ bucket (way_nodes_ r) b.

Definition connected (r : routing) : relation way_idx_t := rtc (touches r).

(** The adjacency columns describe one graph over [n] ways: a way is
    listed at exactly the nodes it runs through. *)
Record consistent (n : nat) (r : routing) : Prop := {
  way_in_range : ∀ w nd, nd ∈ bucket (way_nodes_ r) w → w < n;
  way_listed : ∀ w nd, nd ∈ bucket (way_nodes_ r) w → w ∈ bucket (node_ways_ r) nd;
  node_listed : ∀ nd w, w ∈ bucket (node_ways_ r) nd → nd ∈ bucket (way_nodes_ r) w
}.

Definition consistent_b (n : nat) (r : routing) : bool :=
  bool_decide (length (way_nodes_ r) ≤ n)
  && forallb (λ '(w, nds),
       forallb (λ nd, bool_decide (w ∈ bucket (node_ways_ r) nd)) nds)
       (enumerate (way_nodes_ r))
  && forallb (λ '(nd, ws),
       forallb (λ w, bool_decide (nd ∈ bucket (way_nodes_ r) w)) ws)
       (enumerate (node_ways_ r)).

(** The ways still without component: the measure of the flood fill. *)
Definition count_invalid (wc : list component_idx_t) : nat :=
  length (filter (λ c, c = invalid) wc).

(** The invariant of one flood fill with component [k] from the seed
    [i]; [wc0] is the column when the fill starts (the seed already holds
    [k]), [wc] and [q] are the column and the work set. *)
Record flood_inv (r : routing) (n : nat) (wc0 : list component_idx_t)
    (k : component_idx_t) (i : way_idx_t)
    (wc : list component_idx_t) (q : gset way_idx_t) : Prop := {
  fi_len : length wc = n;
  fi_frame : ∀ w, wc !! w = wc0 !! w ∨ (wc0 !! w = Some invalid ∧ wc !! w = Some k);
  fi_queue : ∀ w, w ∈ q → wc !! w = Some k;
  fi_reach : ∀ w, wc !! w = Some k → connected r i w;
  fi_closed : ∀ a b, wc !! a = Some k → a ∉ q → touches r a b → wc !! b = Some k
}.

(** The invariant of the loop over the ways, before way [i] is looked
    at, with [k] the next unused component. *)
Record label_inv (r : routing) (n : nat) (i : nat)
    (wc : list component_idx_t) (k : component_idx_t) : Prop := {
  li_len : length wc = n;
  li_next : (0 ≤ k ≤ Z.of_nat i)%Z;
  li_range : ∀ w c, wc !! w = Some c → c ≠ invalid → (0 ≤ c < k)%Z;
  li_done : ∀ w, w < i → ∃ c, wc !! w = Some c ∧ c ≠ invalid;
  li_closed : ∀ a b c,
    wc !! a = Some c → c ≠ invalid → touches r a b → wc !! b = Some c;
  li_sound : ∀ a b c,
    wc !! a = Some c → wc !! b = Some c → c ≠ invalid → connected r a b
}.

End Components.

(** ** Turn restrictions ([ways::add_restriction]) *)

Module Restrictions.

Inductive type := kNo | kOnly.

Record resolved_restriction := mk_resolved_restriction {
  type_ : type;
  from_ : way_idx_t;
  to_ : way_idx_t;
  via_ : node_idx_t
}.

#[global] Instance type_eq_dec : EqDecision type.
Proof. solve_decision. Defined.
#[global] Instance resolved_restriction_eq_dec : EqDecision resolved_restriction.
Proof. solve_decision. Defined.
#[global] Instance restriction_eq_dec : EqDecision restriction.
Proof. solve_decision. Defined.

(** The slot type [way_pos_t] and [routing::get_way_pos] are declared in
    the header.  [to_way_pos] is [static_cast<way_pos_t>] of a position;
    [get_way_pos] resolves the slot of a way at a node from the adjacency
    columns ([node_ways_], [node_in_way_idx_]). *)
Class Slots := {
  to_way_pos : nat → way_pos_t;
  get_way_pos : list (list way_idx_t) → list (list Z) → node_idx_t → way_idx_t → way_pos_t
}.

(** [utl::sort(rs, a.via_ < b.via_)].  [std::sort] leaves the order of
    records with the same via node open; the model inserts each record
    behind the records that are not larger. *)
Fixpoint insert_by_via (x : resolved_restriction) (l : list resolved_restriction)
    : list resolved_restriction :=
  match l with
  | [] => [x]
  | y :: l' => if bool_decide (via_ x < via_ y) then x :: y :: l'
               else y :: insert_by_via x l'
  end.

Definition sort_by_via (rs : list resolved_restriction) : list resolved_restriction :=
  fold_left (λ acc x, insert_by_via x acc) rs [].

(** [utl::equal_ranges_linear(begin, end, eq, fn)]: [lower] is the first
    element of the current range, which extends while [eq] holds between
    the element at [lower] and the one at [upper]; [run] holds the range
    so far, last element first.  The result lists the ranges handed to
    [fn], in order. *)
Fixpoint ranges_from {A} (eq : A → A → bool) (lower : A) (run : list A) (l : list A)
    : list (list A) :=
  match l with
  | [] => [rev run]
  | y :: l' =>
      if eq lower y then ranges_from eq lower (y :: run) l'
      else rev run :: ranges_from eq y [y] l'
  end.

Definition equal_ranges_linear {A} (eq : A → A → bool) (l : list A) : list (list A) :=
  match l with
  | [] => []
  | x :: l' => ranges_from eq x [x] l'
  end.

Definition with_node_restrictions (r : routing) (nr : list (list restriction)) : routing :=
  mk_routing (way_properties_ r) (way_nodes_ r) (way_node_dist_ r) (node_ways_ r)
    (node_in_way_idx_ r) (node_is_restricted_ r) nr (way_component_ r).

Definition with_node_is_restricted (r : routing) (bits : list bool) : routing :=
  mk_routing (way_properties_ r) (way_nodes_ r) (way_node_dist_ r) (node_ways_ r)
    (node_in_way_idx_ r) bits (node_restrictions_ r) (way_component_ r).

(** [r_->node_restrictions_[via].push_back(p)]. *)
Definition push_restriction (via : node_idx_t) (p : restriction) (r : routing) : routing :=
  with_node_restrictions r (alter (λ b, b ++ [p]) via (node_restrictions_ r)).

Section AddRestriction.
Context `{Slots}.

(** The body of [for (auto const& x : range)], lines 76-91. *)
Definition add_one (r : routing) (x : resolved_restriction) : routing :=
  match type_ x with
  | kNo =>
      push_restriction (via_ x)
        (mk_restriction (get_way_pos (node_ways_ r) (node_in_way_idx_ r) (via_ x) (from_ x))
                        (get_way_pos (node_ways_ r) (node_in_way_idx_ r) (via_ x) (to_ x)))
        r
  | kOnly =>
      fold_left (λ r '(i, from),
        fold_left (λ r '(j, to),
          if bool_decide (from_ x = from) && bool_decide (to_ x ≠ to) then
            push_restriction (via_ x) (mk_restriction (to_way_pos i) (to_way_pos j)) r
          else r)
          (enumerate (bucket (node_ways_ r) (via_ x))) r)
        (enumerate (bucket (node_ways_ r) (via_ x))) r
  end.

(** The callback of [equal_ranges_linear], lines 70-93; [range] is never
    empty. *)
Definition add_range (r : routing) (range : list resolved_restriction) : routing :=
  match range with
  | [] => r
  | front :: _ =>
      let r := with_node_restrictions r
                 (resize (via_ front + 1) [] (node_restrictions_ r)) in
      let r := with_node_is_restricted r (<[via_ front := true]> (node_is_restricted_ r)) in
      fold_left add_one range r
  end.
End AddRestriction.

(** *** Vocabulary of the statements *)

(** Several [push_back]s into the list of [via] at once. *)
Definition push_all (via : node_idx_t) (ps : list restriction) (r : routing) : routing :=
  with_node_restrictions r (alter (λ b, b ++ ps) via (node_restrictions_ r)).

Definition via_le (a b : resolved_restriction) : Prop := via_ a ≤ via_ b.

Definition same_via (a b : resolved_restriction) : bool :=
  bool_decide (via_ a = via_ b).

(** Everything but the restriction lists and the restricted bits. *)
Definition same_graph (r r' : routing) : Prop :=
  way_properties_ r' = way_properties_ r ∧ way_nodes_ r' = way_nodes_ r ∧
  way_node_dist_ r' = way_node_dist_ r ∧ node_ways_ r' = node_ways_ r ∧
  node_in_way_idx_ r' = node_in_way_idx_ r ∧ way_component_ r' = way_component_ r.

Section Vocabulary.
Context `{Slots}.

(** The pairs of an [Only] record at a node touched by the ways [ws]:
    every position of [from] with every position of a way other than
    [to], in the order of the two loops. *)
Definition only_pairs (ws : list way_idx_t) (from to : way_idx_t) : list restriction :=
  enumerate ws ≫= λ '(i, a),
    enumerate ws ≫= λ '(j, b),
      if bool_decide (from = a) && bool_decide (to ≠ b)
      then [mk_restriction (to_way_pos i) (to_way_pos j)] else [].

(** The pairs one record contributes. *)
Definition pairs_of (r : routing) (x : resolved_restriction) : list restriction :=
  match type_ x with
  | kNo =>
      [mk_restriction
         (get_way_pos (node_ways_ r) (node_in_way_idx_ r) (via_ x) (from_ x))
         (get_way_pos (node_ways_ r) (node_in_way_idx_ r) (via_ x) (to_ x))]
  | kOnly => only_pairs (bucket (node_ways_ r) (via_ x)) (from_ x) (to_ x)
  end.

(** The pairs a batch contributes to node [u], in the order of the
    batch. *)
Definition contrib (r : routing) (rs : list resolved_restriction) (u : node_idx_t)
    : list restriction :=
  rs ≫= λ x, if decide (u = via_ x) then pairs_of r x else [].

(** Lines 72-73: what the callback does before its loop. *)
Definition prepare (v : node_idx_t) (r : routing) : routing :=
  with_node_is_restricted
    (with_node_restrictions r (resize (v + 1) [] (node_restrictions_ r)))
    (<[v := true]> (node_is_restricted_ r)).

(** One record handled on its own: the column sized for its via node,
    then its pairs pushed. *)
Definition step (r : routing) (x : resolved_restriction) : routing :=
  add_one (prepare (via_ x) r) x.

(** The column already has the size and the bit that [prepare] gives
    it. *)
Definition ready (v : node_idx_t) (r : routing) : Prop :=
  length (node_restrictions_ r) = v + 1 ∧
  <[v := true]> (node_is_restricted_ r) = node_is_restricted_ r.
End Vocabulary.

End Restrictions.

(** ** The store ([osr::ways]) *)

(** Geographic points and floating-point distances are outside the
    embedding: the operations [connect_ways] uses on them are an
    interface.  [d_round] is [std::round] read as an integer. *)
Class Geo := {
  point : Type;
  point_default : point;
  double : Type;
  d_zero : double;
  d_add : double → double → double;
  geo_distance : point → point → double;
  d_round : double → Z
}.

(** An operation either returns or is abandoned by an exception:
    [utl::verify] in [get_access_restriction], an unresolved external id
    in [get_node_idx]. *)
Inductive abort :=
  | verify_failed (message : string)
  | node_not_found (i : osm_node_idx_t).

Inductive result (A : Type) :=
  | Ok (a : A)
  | Aborted (e : abort).
Arguments Ok {A} a.
Arguments Aborted {A} e.

#[global] Instance result_bind : MBind result :=
  λ A B f m, match m with Ok a => f a | Aborted e => Aborted e end.

Fixpoint for_each_res {A S : Type} (body : S → A → result S) (xs : list A) (s : S)
    : result S :=
  match xs with
  | [] => Ok s
  | x :: xs' => s' ← body s x; for_each_res body xs' s'
  end.

Definition wrap16 (z : Z) : Z := (z mod 2 ^ 16)%Z.

(** The line printed by [fmt::println("error: way with {} nodes", ...)]. *)
Inductive diagnostic :=
  | way_with_nodes (osm_way_idx : osm_way_idx_t).

Record ways `{Geo} := mk_ways {
  r_ : routing;
  node_to_osm_ : list osm_node_idx_t;
  way_osm_idx_ : list osm_way_idx_t;
  way_polylines_ : list (list point);
  way_osm_nodes_ : list (list osm_node_idx_t);
  strings_ : list string;
  way_has_conditional_access_no_ : list bool;
  way_conditional_access_no_ : list (way_idx_t * string_idx_t);
  node_way_counter_multi_ : list bool;
  printed_ : list diagnostic
}.
Arguments mk_ways {_} _ _ _ _ _ _ _ _ _ _.

Section Store.
Context `{Geo}.

(** Modelled from the spec: [n_ways()] is declared in the header; it is
    the number of ways of the store, one per entry of the pre-existing
    way columns. *)
Definition n_ways (w : ways) : nat := length (way_osm_idx_ w).

Definition with_routing (w : ways) (r : routing) : ways :=
  mk_ways r (node_to_osm_ w) (way_osm_idx_ w) (way_polylines_ w)
    (way_osm_nodes_ w) (strings_ w) (way_has_conditional_access_no_ w)
    (way_conditional_access_no_ w) (node_way_counter_multi_ w) (printed_ w).

Definition with_way_properties (r : routing) (ps : list way_properties) : routing :=
  mk_routing ps (way_nodes_ r) (way_node_dist_ r) (node_ways_ r)
    (node_in_way_idx_ r) (node_is_restricted_ r) (node_restrictions_ r)
    (way_component_ r).

(** [for (i = 0; i != n; ++i) body(i)] over a state, where the body may
    run out of fuel. *)
Fixpoint for_each_opt {A S : Type} (body : S → A → option S) (xs : list A) (s : S)
    : option S :=
  match xs with
  | [] => Some s
  | x :: xs' =>
      match body s x with
      | None => None
      | Some s' => for_each_opt body xs' s'
      end
  end.

(** [utl::parallel_for_run_threadlocal] hands every index in [0, n_ways)
    to the body once; a unit reads only the snapshot and the adjacency and
    writes only its own slot, so the units are run here in ascending
    order. *)
Definition compute_big_street_neighbors (fuel : nat) (w : ways) : option ways :=
  let r := r_ w in
  let is_orig_big_street := BigStreet.snapshot (n_ways w) (way_properties_ r) in
  match for_each_opt (BigStreet.visit fuel r is_orig_big_street)
          (seq 0 (n_ways w)) (way_properties_ r) with
  | None => None
  | Some ps => Some (with_routing w (with_way_properties r ps))
  end.

(** *** [ways::build_components] *)

Definition with_way_component (r : routing) (wc : list component_idx_t) : routing :=
  mk_routing (way_properties_ r) (way_nodes_ r) (way_node_dist_ r) (node_ways_ r)
    (node_in_way_idx_ r) (node_is_restricted_ r) (node_restrictions_ r) wc.

Definition build_components `{Components.HashOrder} (fuel : nat) (w : ways)
    : option ways :=
  let r := r_ w in
  let wc := resize (n_ways w) Components.invalid (way_component_ r) in
  match for_each_opt (Components.label_way fuel r) (seq 0 (n_ways w)) (wc, 0%Z) with
  | None => None
  | Some (wc, _) => Some (with_routing w (with_way_component r wc))
  end.

(** *** [ways::add_restriction]

    The vector is passed by reference and sorted in place: the sorted
    vector is returned next to the store. *)
Definition add_restriction `{Restrictions.Slots} (w : ways)
    (rs : list Restrictions.resolved_restriction)
    : list Restrictions.resolved_restriction * ways :=
  let rs := Restrictions.sort_by_via rs in
  let r := fold_left Restrictions.add_range
             (Restrictions.equal_ranges_linear
                (λ a b, bool_decide (Restrictions.via_ a = Restrictions.via_ b)) rs)
             (r_ w) in
  let r := Restrictions.with_node_restrictions r
             (resize (length (node_to_osm_ w)) [] (node_restrictions_ r)) in
  (rs, with_routing w r).

(** *** [ways::connect_ways] *)

(** Modelled from the spec: [for_each_set_bit] of the multiplicity bit-set
    calls back with the positions of the set bits in ascending order. *)
Definition for_each_set_bit (bits : list bool) : list nat :=
  filter (λ b, test_bit bits b = true) (seq 0 (length bits)).

(** Modelled from the spec: [node_way_counter_.is_multi(i)] tests the
    multiplicity bit of an external id. *)
Definition is_multi (multi : list bool) (i : osm_node_idx_t) : bool :=
  test_bit multi i.

Fixpoint find_index (x : nat) (l : list nat) : option nat :=
  match l with
  | [] => None
  | y :: l' => if decide (x = y) then Some 0 else S <$> find_index x l'
  end.

(** Modelled from the spec: [get_node_idx] (declared in the header)
    resolves an external id to the internal node that [node_to_osm] maps
    to it; an id without internal node abandons the operation. *)
Definition get_node_idx (node_to_osm : list osm_node_idx_t) (i : osm_node_idx_t)
    : result node_idx_t :=
  match find_index i node_to_osm with
  | Some n => Ok n
  | None => Aborted (node_not_found i)
  end.

(** Lines 153-160: one internal node per set bit. *)
Definition create_nodes (multi : list bool) (node_to_osm : list osm_node_idx_t)
    : list osm_node_idx_t * nat :=
  fold_left (λ '(node_to_osm, node_idx) b_idx, (node_to_osm ++ [b_idx], S node_idx))
    (for_each_set_bit multi) (node_to_osm, 0).

(** The locals of the loop over one way, lines 182-188, with the staging
    columns and the printed lines. *)
Record walk := mk_walk {
  pred_pos : option point;
  from : option node_idx_t;
  distance : double;
  i_ : Z;
  dists : list Z;
  nodes : list node_idx_t;
  node_ways : list (list way_idx_t);
  node_in_way_idx : list (list Z);
  out : list diagnostic
}.

(** The body of the loop over the nodes of one way, lines 190-214. *)
Definition visit_node (multi : list bool) (node_to_osm : list osm_node_idx_t)
    (osm_way_idx : osm_way_idx_t) (way_idx : way_idx_t)
    (s : walk) (x : osm_node_idx_t * point) : result walk :=
  let '(osm_node_idx, pos) := x in
  let distance :=
    match pred_pos s with
    | Some p => d_add (distance s) (geo_distance pos p)
    | None => distance s
    end in
  if is_multi multi osm_node_idx then
    to ← get_node_idx node_to_osm osm_node_idx;
    let node_ways := alter (λ b, b ++ [way_idx]) to (node_ways s) in
    let node_in_way_idx := alter (λ b, b ++ [i_ s]) to (node_in_way_idx s) in
    let nodes := nodes s ++ [to] in
    let dists :=
      match from s with
      | Some _ => dists s ++ [wrap16 (d_round distance)]
      | None => dists s
      end in
    let out :=
      if bool_decide (i_ s = (2 ^ 16 - 1)%Z) then out s ++ [way_with_nodes osm_way_idx]
      else out s in
    Ok (mk_walk (Some pos) (Some to) d_zero (wrap16 (i_ s + 1)) dists nodes
          node_ways node_in_way_idx out)
  else
    Ok (mk_walk (Some pos) (from s) distance (i_ s) (dists s) (nodes s)
          (node_ways s) (node_in_way_idx s) (out s)).

(** What the loop over the ways carries: the two per-way columns of the
    routing blob, the staging columns and the printed lines. *)
Record build := mk_build {
  b_way_nodes : list (list node_idx_t);
  b_way_node_dist : list (list Z);
  b_node_ways : list (list way_idx_t);
  b_node_in_way_idx : list (list Z);
  b_out : list diagnostic
}.

(** The body of the loop over the ways, lines 180-217.  [pred_pos] starts
    as [std::make_optional<point>()], an engaged optional holding a
    default point.  [utl::zip] walks parallel columns position by
    position; a longer column is cut here. *)
Definition connect_way (multi : list bool) (node_to_osm : list osm_node_idx_t)
    (b : build) (x : osm_way_idx_t * (list osm_node_idx_t * list point)) : result build :=
  let '(osm_way_idx, (osm_nodes, polyline)) := x in
  let way_idx := length (b_way_nodes b) in
  s ← for_each_res (visit_node multi node_to_osm osm_way_idx way_idx)
        (zip osm_nodes polyline)
        (mk_walk (Some point_default) None d_zero 0%Z [] []
           (b_node_ways b) (b_node_in_way_idx b) (b_out b));
  Ok (mk_build (b_way_nodes b ++ [nodes s]) (b_way_node_dist b ++ [dists s])
        (node_ways s) (node_in_way_idx s) (out s)).

Definition connect_ways (w : ways) : result ways :=
  let '(node_to_osm, node_idx) :=
    create_nodes (node_way_counter_multi_ w) (node_to_osm_ w) in
  let r := r_ w in
  let node_is_restricted := resize node_idx false (node_is_restricted_ r) in
  b ← for_each_res (connect_way (node_way_counter_multi_ w) node_to_osm)
        (zip (way_osm_idx_ w) (zip (way_osm_nodes_ w) (way_polylines_ w)))
        (mk_build (way_nodes_ r) (way_node_dist_ r)
           (resize (length node_to_osm) [] []) (resize (length node_to_osm) [] [])
           (printed_ w));
  Ok (mk_ways
        (mk_routing (way_properties_ r) (b_way_nodes b) (b_way_node_dist b)
           (node_ways_ r ++ b_node_ways b) (node_in_way_idx_ r ++ b_node_in_way_idx b)
           node_is_restricted (node_restrictions_ r) (way_component_ r))
        node_to_osm (way_osm_idx_ w) (way_polylines_ w) (way_osm_nodes_ w)
        (strings_ w) (way_has_conditional_access_no_ w)
        (way_conditional_access_no_ w) (node_way_counter_multi_ w) (b_out b)).

(** *** [ways::get_access_restriction] *)

(** [std::lower_bound] with the comparison [a.first < b]: the usual
    halving search over [first, first + len). *)
Fixpoint lower_bound_loop (fuel : nat) (l : list (way_idx_t * string_idx_t))
    (way : way_idx_t) (first len : nat) : nat :=
  match fuel with
  | O => first
  | S fuel' =>
      if decide (len = 0) then first
      else
        let half := len / 2 in
        let mid := first + half in
        match l !! mid with
        | Some a =>
            if bool_decide (a.1 < way) then
              lower_bound_loop fuel' l way (mid + 1) (len - half - 1)
            else lower_bound_loop fuel' l way first half
        | None => first
        end
  end.

Definition lower_bound (l : list (way_idx_t * string_idx_t)) (way : way_idx_t) : nat :=
  lower_bound_loop (length l) l way 0 (length l).

(** The text [utl::verify] raises, with [{}] replaced by the external id. *)
Definition not_found_message (id : osm_way_idx_t) : string :=
  ("access restriction for way with access restriction not found way="
   ++ NilEmpty.string_of_uint (Nat.to_uint id))%string.

Definition get_access_restriction (w : ways) (way : way_idx_t) : result (option string) :=
  if negb (test_bit (way_has_conditional_access_no_ w) way) then Ok None
  else
    let it := lower_bound (way_conditional_access_no_ w) way in
    match way_conditional_access_no_ w !! it with
    | Some a =>
        if bool_decide (a.1 = way) then Ok (Some (default EmptyString (strings_ w !! a.2)))
        else Aborted (verify_failed (not_found_message (default 0 (way_osm_idx_ w !! way))))
    | None =>
        Aborted (verify_failed (not_found_message (default 0 (way_osm_idx_ w !! way))))
    end.

End Store.

(** ** Vocabulary of the statements about the store *)

Module Connect.

(** The positions of [n] in the node list of a way. *)
Definition occ (n : node_idx_t) (nodes : list node_idx_t) : list nat :=
  filter (λ k, nodes !! k = Some n) (seq 0 (length nodes)).

(** How often a 16-bit counter stepped [m] times from zero has stood at
    its largest value. *)
Definition wraps (m : nat) : nat := Z.to_nat (Z.of_nat m / 2 ^ 16).

Definition resolved (node_to_osm : list osm_node_idx_t)
    (x : osm_node_idx_t) (n : node_idx_t) : Prop :=
  find_index x node_to_osm = Some n.

Section Vocabulary.
Context `{Geo}.

(** A way as the loop receives it: external way id, external nodes and
    points. *)
Definition way_input : Type := osm_way_idx_t * (list osm_node_idx_t * list point).

(** The multiply referenced ones among the external nodes walked. *)
Definition shared (multi : list bool) (xs : list (osm_node_idx_t * point))
    : list osm_node_idx_t :=
  filter (λ x, test_bit multi x = true) xs.*1.

Definition shared_of (multi : list bool) (x : way_input) : list osm_node_idx_t :=
  shared multi (zip x.2.1 x.2.2).

(** One distance fewer than nodes (none for a way without nodes), each
    a rounded distance cut to 16 bits. *)
Definition dist_shape (nodes : list node_idx_t) (dists : list Z) : Prop :=
  length dists = length nodes - 1 ∧
  Forall (λ e, ∃ d, e = wrap16 (d_round d)) dists.

(** The invariant of the loop over the nodes of one way; [nw0], [niw0]
    and [out0] are the staging columns and the printed lines when the
    way is entered. *)
Record walk_inv (multi : list bool) (node_to_osm : list osm_node_idx_t)
    (osm_way_idx : osm_way_idx_t) (way_idx : way_idx_t)
    (nw0 : list (list way_idx_t)) (niw0 : list (list Z)) (out0 : list diagnostic)
    (xs : list (osm_node_idx_t * point)) (s : walk) : Prop := {
  wi_nodes : Forall2 (resolved node_to_osm) (shared multi xs) (nodes s);
  wi_dists_len : length (dists s) = length (nodes s) - 1;
  wi_dists : Forall (λ e, ∃ d, e = wrap16 (d_round d)) (dists s);
  wi_from : from s = last (nodes s);
  wi_i : i_ s = (Z.of_nat (length (nodes s)) mod 2 ^ 16)%Z;
  wi_out : out s = out0 ++ replicate (wraps (length (nodes s)))
                              (way_with_nodes osm_way_idx);
  wi_nw_len : length (node_ways s) = length nw0;
  wi_niw_len : length (node_in_way_idx s) = length niw0;
  wi_nw : ∀ n, bucket (node_ways s) n
               = bucket nw0 n ++ ((λ _, way_idx) <$> occ n (nodes s));
  wi_niw : ∀ n, bucket (node_in_way_idx s) n
                = bucket niw0 n
                  ++ ((λ k, (Z.of_nat k mod 2 ^ 16)%Z) <$> occ n (nodes s))
}.

(** The invariant of the loop over the ways; [wn0], [wd0] and [out0]
    are the two way columns and the printed lines before the loop. *)
Record build_inv (multi : list bool) (node_to_osm : list osm_node_idx_t)
    (wn0 : list (list node_idx_t)) (wd0 : list (list Z)) (out0 : list diagnostic)
    (handled : list way_input) (b : build) : Prop := {
  bi_nodes : ∃ added,
    b_way_nodes b = wn0 ++ added ∧
    Forall2 (λ x nodes, Forall2 (resolved node_to_osm) (shared_of multi x) nodes)
      handled added;
  bi_dists : Forall2 dist_shape wn0 wd0 →
             Forall2 dist_shape (b_way_nodes b) (b_way_node_dist b);
  bi_nw_len : length (b_node_ways b) = length node_to_osm;
  bi_niw_len : length (b_node_in_way_idx b) = length node_to_osm;
  bi_slots : ∀ n,
    Forall2 (λ wy p, ∃ nodes k,
               b_way_nodes b !! wy = Some nodes ∧ nodes !! k = Some n ∧
               p = (Z.of_nat k mod 2 ^ 16)%Z)
      (bucket (b_node_ways b) n) (bucket (b_node_in_way_idx b) n);
  bi_listed : ∀ wy nodes n,
    length wn0 ≤ wy → b_way_nodes b !! wy = Some nodes → n ∈ nodes →
    wy ∈ bucket (b_node_ways b) n;
  bi_out : b_out b
           = out0 ++ (handled ≫= λ x,
                        replicate (wraps (length (shared_of multi x)))
                          (way_with_nodes x.1))
}.

(** The ways as the loop on line 180 sees them. *)
Definition inputs (w : ways) : list way_input :=
  zip (way_osm_idx_ w) (zip (way_osm_nodes_ w) (way_polylines_ w)).

(** [node_to_osm] once the internal nodes are created. *)
Definition nodes_created (w : ways) : list osm_node_idx_t :=
  node_to_osm_ w ++ for_each_set_bit (node_way_counter_multi_ w).

(** The ways that reference external node [x]. *)
Definition ref_count (w : ways) (x : osm_node_idx_t) : nat :=
  length (filter (λ nodes, x ∈ nodes) (way_osm_nodes_ w)).

(** Modelled from the spec: the multiplicity bit-set is computed by an
    earlier counting pass and marks the external ids touched by more
    than one way. *)
Definition counter_ok (w : ways) : Prop :=
  ∀ x, test_bit (node_way_counter_multi_ w) x = true ↔ 2 ≤ ref_count w x.

Definition counter_ok_b (w : ways) : bool :=
  forallb (λ x, bool_decide (test_bit (node_way_counter_multi_ w) x = true
                             ↔ 2 ≤ ref_count w x))
    (seq 0 (length (node_way_counter_multi_ w)) ++ mjoin (way_osm_nodes_ w)).
End Vocabulary.

End Connect.

Module Access.

Definition key_le (a b : way_idx_t * string_idx_t) : Prop := a.1 ≤ b.1.

(** [res] splits the column at [way]: smaller keys before it, the others
    from it on. *)
Definition splits (l : list (way_idx_t * string_idx_t)) (way : way_idx_t)
    (res : nat) : Prop :=
  res ≤ length l ∧
  (∀ j a, j < res → l !! j = Some a → a.1 < way) ∧
  (∀ j a, res ≤ j → l !! j = Some a → way ≤ a.1).

End Access.

(** ** Vocabulary of the further statements *)

(** The indices stored in the adjacency columns stay inside the
    columns they point into: the precondition of every [col[i]] of the
    passes over the graph. *)
Definition in_range (n : nat) (r : routing) : Prop :=
  n ≤ length (way_nodes_ r) ∧
  (∀ w nd, nd ∈ bucket (way_nodes_ r) w → nd < length (node_ways_ r)) ∧
  (∀ nd w, w ∈ bucket (node_ways_ r) nd → w < n).

Definition in_range_b (n : nat) (r : routing) : bool :=
  bool_decide (n ≤ length (way_nodes_ r))
  && forallb (forallb (λ nd, bool_decide (nd < length (node_ways_ r)))) (way_nodes_ r)
  && forallb (forallb (λ w, bool_decide (w < n))) (node_ways_ r).

(** The major-road flag of a way, as [is_big_street()] reads it. *)
Definition major (r : routing) (i : way_idx_t) : bool :=
  default false (is_big_street <$> way_properties_ r !! i).

(** How often way [a] is listed among the ways [ws] of a node, and how
    many of the listed ways are other than [a]. *)
Definition listed (a : way_idx_t) (ws : list way_idx_t) : nat :=
  length (filter (λ b, a = b) ws).

Definition listed_other (a : way_idx_t) (ws : list way_idx_t) : nat :=
  length (filter (λ b, a ≠ b) ws).

(** A batch under which the restriction column only grows: the column
    is not longer than the node range, no record has its via node before
    the end of the column, and every via node is an internal node.  Then
    no [resize] of the call cuts a list. *)
Definition grows_only `{Geo} (w : ways) (rs : list Restrictions.resolved_restriction)
    : Prop :=
  length (node_restrictions_ (r_ w)) ≤ length (node_to_osm_ w) ∧
  ∀ x, x ∈ rs → length (node_restrictions_ (r_ w)) ≤ Restrictions.via_ x + 1 ∧
                Restrictions.via_ x < length (node_to_osm_ w).

Module Numbering.
Import Components.

(** What one flood fill with component [k] may do to a column: an entry
    either stays or goes from the sentinel to [k]. *)
Definition filled (k : component_idx_t) (wc wc' : list component_idx_t) : Prop :=
  length wc' = length wc ∧
  ∀ w, wc' !! w = wc !! w ∨ (wc !! w = Some invalid ∧ wc' !! w = Some k).

(** The numbering kept by the loop over the ways, before way [i] is
    looked at: the ids below [k] are in use by ways below [i]; a way with
    an id is not below its id, and every smaller id is held by an earlier
    way. *)
Record label_order (i : nat) (wc : list component_idx_t) (k : component_idx_t) : Prop := {
  lo_used : ∀ c, (0 ≤ c < k)%Z → ∃ b, b < i ∧ wc !! b = Some c;
  lo_first : ∀ a c, wc !! a = Some c → c ≠ invalid →
    (0 ≤ c ≤ Z.of_nat a)%Z ∧ ∀ c', (0 ≤ c' < c)%Z → ∃ b, b < a ∧ wc !! b = Some c'
}.

(** The labels a column held before the call are still there. *)
Definition keeps_labels (wc0 wc : list component_idx_t) : Prop :=
  ∀ a c, wc0 !! a = Some c → c ≠ invalid → wc !! a = Some c.

End Numbering.

Module Legs.

(** The positions, in the walk over a way, of the nodes referenced by
    more than one way. *)
Definition shared_at (multi : list bool) (ids : list osm_node_idx_t) : list nat :=
  filter (λ k, default false (test_bit multi <$> ids !! k) = true) (seq 0 (length ids)).

Section Legs.
Context `{Geo}.

(** The length of a polyline as the loop adds it up: leg by leg, from
    zero. *)
Definition path_length (ps : list point) : double :=
  fold_left d_add (zip_with (λ prev cur, geo_distance cur prev) ps (tail ps)) d_zero.

(** The points from position [a] to position [b], both included. *)
Definition stretch (ps : list point) (a b : nat) : list point :=
  take (S b - a) (drop a ps).

(** The distances of a way: from each shared node to the next one
    along the polyline, rounded and cut to 16 bits. *)
Definition leg_distances (multi : list bool) (xs : list (osm_node_idx_t * point))
    : list Z :=
  let ats := shared_at multi xs.*1 in
  (λ ab, wrap16 (d_round (path_length (stretch xs.*2 ab.1 ab.2)))) <$> zip ats (tail ats).

(** The invariant of the loop over the nodes of one way, for the
    distances: [xs] are the nodes walked so far. *)
Record legs_inv (multi : list bool) (xs : list (osm_node_idx_t * point)) (s : walk)
    : Prop := {
  lg_pred : pred_pos s = Some (default point_default (last xs.*2));
  lg_from : from s = None ↔ shared_at multi xs.*1 = [];
  lg_distance : ∀ a, last (shared_at multi xs.*1) = Some a →
                     distance s = path_length (drop a xs.*2);
  lg_dists : dists s = leg_distances multi xs
}.
End Legs.

End Legs.

Module Aligned.
Section Aligned.
Context `{Geo}.

(** The three columns [connect_ways] walks in parallel have one entry
    per way, and every way has one point per external node. *)
Definition aligned (w : ways) : Prop :=
  length (way_osm_idx_ w) = length (way_osm_nodes_ w) ∧
  Forall2 (λ nodes line, length nodes = length line)
    (way_osm_nodes_ w) (way_polylines_ w).

Definition aligned_b (w : ways) : bool :=
  bool_decide (length (way_osm_idx_ w) = length (way_osm_nodes_ w))
  && bool_decide (length (way_osm_nodes_ w) = length (way_polylines_ w))
  && forallb (λ '(nodes, line), bool_decide (length nodes = length line))
       (zip (way_osm_nodes_ w) (way_polylines_ w)).
End Aligned.
End Aligned.

Module Transpose.

(** The visits of node [n]: the pairs (way, position in the way) at
    which the ways run through [n], ways in ascending order and, within a
    way, positions in ascending order. *)
Definition visits (way_nodes : list (list node_idx_t)) (n : node_idx_t)
    : list (way_idx_t * nat) :=
  enumerate way_nodes ≫= λ '(wy, nodes), (λ k, (wy, k)) <$> Connect.occ n nodes.

(** The two staging columns hold the visits of every node. *)
Definition transposed (b : build) : Prop :=
  ∀ n, bucket (b_node_ways b) n = (visits (b_way_nodes b) n).*1 ∧
       bucket (b_node_in_way_idx b) n
       = (λ v, (Z.of_nat v.2 mod 2 ^ 16)%Z) <$> visits (b_way_nodes b) n.

End Transpose.

Module Lookup.
Section Lookup.
Context `{Geo}.

(** The store keeps its conditional-access columns in step: the
    association column is sorted by way, and every way whose presence
    bit is set has an entry. *)
Definition in_step (w : ways) : Prop :=
  StronglySorted Access.key_le (way_conditional_access_no_ w) ∧
  ∀ way, test_bit (way_has_conditional_access_no_ w) way = true →
         ∃ idx, (way, idx) ∈ way_conditional_access_no_ w.
End Lookup.
End Lookup.

(** ** Example stores *)

Module Examples.

(** Points on a grid with the taxicab distance stand in for geographic
    points and their great-circle distance. *)
Definition plane_geo : Geo := {|
  point := Z * Z;
  point_default := (0%Z, 0%Z);
  double := Z;
  d_zero := 0%Z;
  d_add := Z.add;
  geo_distance := λ p q, (Z.abs (p.1 - q.1) + Z.abs (p.2 - q.2))%Z;
  d_round := λ d, d
|}.

(** Modelled from the spec: the slot of a way at a node is its rank among
    the ways touching the node.  The slot type is taken eight bits wide
    here; the theorems hold for every [Slots]. *)
Definition rank_slots : Restrictions.Slots := {|
  Restrictions.to_way_pos := λ i, (Z.of_nat i mod 2 ^ 8)%Z;
  Restrictions.get_way_pos := λ node_ways _ node way,
    (Z.of_nat (default 0%nat (find_index way (bucket node_ways node))) mod 2 ^ 8)%Z
|}.

#[local] Existing Instance plane_geo.
#[local] Existing Instance rank_slots.

(** Way 0 is tagged major and shares node 0 with way 1; way 1 shares
    node 1 with way 2; nothing else is connected. *)
Definition three_ways : ways :=
  mk_ways
    (mk_routing
       [mk_way_properties true 0; mk_way_properties false 0; mk_way_properties false 0]
       [[0]; [0; 1]; [1]] [[]; [5%Z]; []]
       [[0; 1]; [1; 2]] [[0; 0]; [1; 0]]%Z
       [false; false] [] [])
    [10; 20] [100; 101; 102] [] [] [] [] [] [] [].

(** Four ways in two islands: the ways 0 and 1 share node 0, the ways 2
    and 3 share node 1. *)
Definition islands : ways :=
  mk_ways
    (mk_routing [] [[0]; [0]; [1]; [1]] [[]; []; []; []]
       [[0; 1]; [2; 3]] [[0; 0]; [0; 0]]%Z [false; false] [] [])
    [10; 20] [100; 101; 102; 103] [] [] [] [] [] [] [].

(** Three ways before graph construction; the external nodes 1, 3 and 4
    are referenced by two ways each. *)
Definition survey : ways :=
  mk_ways empty_routing [] [100; 101; 102]
    [[(0, 0); (0, 3); (0, 7)]; [(0, 7); (5, 7)]; [(5, 7); (9, 9); (0, 0)]]%Z
    [[1; 2; 3]; [3; 4]; [4; 5; 1]] [] [] []
    [false; true; false; true; true; false] [].

(** Three internal nodes: node 0 touched by the ways 0, 1, 2, node 1 by
    1, 2 and node 2 by 0, 2.  The restriction column is still empty. *)
Definition junctions : ways :=
  mk_ways
    (mk_routing [] [[0; 2]; [0; 1]; [0; 1; 2]] [[4]; [3]; [3; 2]]%Z
       [[0; 1; 2]; [1; 2]; [0; 2]] [[0; 0; 0]; [1; 1]; [1; 2]]%Z
       [false; false; false] [] [])
    [7; 8; 9] [100; 101; 102] [] [] [] [] [] [] [].

Definition junctions_padded : routing :=
  Restrictions.with_node_restrictions (r_ junctions) [[]; []; []].

Definition batch : list Restrictions.resolved_restriction :=
  [Restrictions.mk_resolved_restriction Restrictions.kNo 2 0 2;
   Restrictions.mk_resolved_restriction Restrictions.kOnly 0 1 0;
   Restrictions.mk_resolved_restriction Restrictions.kNo 1 2 1].

(** Way 1 has a conditional access string; way 2 claims one that the
    association column does not hold. *)
Definition access : ways :=
  mk_ways empty_routing [] [100; 101; 102] [] [] ["Mo-Fr 07:00-09:00"%string]
    [false; true; true] [(1, 0)] [] [].

(** The first element in the order of [elements] is a possible
    [*q.begin()]. *)
Definition first_listed : Components.HashOrder.
Proof.
  refine {| Components.hash_begin := λ q, hd 0 (elements q) |}.
  intros q Hq. apply elem_of_elements.
  destruct (elements q) as [|x l] eqn:E.
  - apply elements_empty_inv in E. apply leibniz_equiv in E. done.
  - simpl. left.
Defined.

(** C3 as the spec states it: after the second call every list is the
    list after the first call followed by the batch's pairs for that
    node. *)
Definition appends_duplicates `{Geo} `{Restrictions.Slots} (w : ways)
    (rs : list Restrictions.resolved_restriction) : Prop :=
  let w1 := (add_restriction w rs).2 in
  let w2 := (add_restriction w1 rs).2 in
  ∀ u, u < length (node_to_osm_ w) →
    bucket (node_restrictions_ (r_ w2)) u
    = bucket (node_restrictions_ (r_ w1)) u
      ++ Restrictions.contrib (r_ w) (Restrictions.sort_by_via rs) u.

End Examples.

(** ** Further example stores *)

Module Scenarios.
Import Examples.

#[local] Existing Instance plane_geo.

(** The last element in the order of [elements] is another possible
    [*q.begin()]. *)
Definition last_listed : Components.HashOrder.
Proof.
  refine {| Components.hash_begin := λ q, default 0 (last (elements q)) |}.
  intros q Hq. apply elem_of_elements.
  destruct (last (elements q)) as [x|] eqn:E.
  - simpl. by eapply last_Some_elem_of.
  - apply last_None, elements_empty_inv, leibniz_equiv in E. done.
Defined.

(** The two islands with a component column that already holds the
    component 5 for way 0. *)
Definition half_labelled : ways :=
  with_routing islands (with_way_component (r_ islands) [5%Z]).

(** The ways 1 and 3 have a conditional access string each; no other
    way has its presence bit set. *)
Definition timetable : ways :=
  mk_ways empty_routing [] [100; 101; 102; 103] [] []
    ["Mo-Fr 07:00-09:00"%string; "Sa 10:00-14:00"%string]
    [false; true; false; true] [(1, 0); (3, 1)] [] [].

End Scenarios.

(** * Proofs *)

(** ** Columns *)

Lemma elem_of_bucket {A} (col : list (list A)) i x :
  x ∈ bucket col i ↔ ∃ b, col !! i = Some b ∧ x ∈ b.
Proof.
  unfold bucket. destruct (col !! i) as [b|]; simpl.
  - split; [eauto|]. by intros (? & [= <-] & ?).
  - split; [by intros ?%elem_of_nil|]. by intros (? & ? & ?).
Qed.

Lemma bucket_Some {A} (col : list (list A)) i b : col !! i = Some b → bucket col i = b.
Proof. unfold bucket. by intros ->. Qed.

Lemma bucket_None {A} (col : list (list A)) i : length col ≤ i → bucket col i = [].
Proof. unfold bucket. intros Hi. by rewrite lookup_ge_None_2. Qed.

Lemma lookup_resize_bucket {A} (col : list (list A)) n u :
  resize n [] col !! u = if decide (u < n) then Some (bucket col u) else None.
Proof.
  case_decide as Hu; [|apply lookup_resize_old; lia].
  destruct (decide (u < length col)) as [Hlt|Hge].
  - rewrite lookup_resize by done.
    destruct (lookup_lt_is_Some_2 col u Hlt) as [b Hb].
    by rewrite Hb, (bucket_Some _ _ _ Hb).
  - rewrite lookup_resize_new by lia. by rewrite bucket_None by lia.
Qed.

Lemma bucket_resize {A} (col : list (list A)) n u :
  bucket (resize n [] col) u = if decide (u < n) then bucket col u else [].
Proof. unfold bucket at 1. rewrite lookup_resize_bucket. by case_decide. Qed.

Lemma bucket_alter_app {A} (col : list (list A)) v u ps :
  v < length col →
  bucket (alter (λ b, b ++ ps) v col) u
  = bucket col u ++ (if decide (u = v) then ps else []).
Proof.
  intros Hv. unfold bucket. case_decide as Huv.
  - subst u. rewrite list_lookup_alter_eq.
    destruct (lookup_lt_is_Some_2 col v Hv) as [b ->]. done.
  - rewrite list_lookup_alter_ne by done. by rewrite app_nil_r.
Qed.

Lemma elem_of_enumerate {A} (l : list A) i x :
  (i, x) ∈ enumerate l ↔ l !! i = Some x.
Proof.
  unfold enumerate. rewrite elem_of_lookup_imap. split.
  - by intros (? & ? & [= <- <-] & ?).
  - eauto.
Qed.

Lemma fold_left_bind {A B S} (f : S → B → S) (g : A → list B) (l : list A) (s : S) :
  fold_left (λ s x, fold_left f (g x) s) l s = fold_left f (l ≫= g) s.
Proof.
  revert s. induction l as [|x l IH]; intros s; simpl; [done|].
  by rewrite fold_left_app, IH.
Qed.

Lemma filter_ext_elem {A} (P1 P2 : A → Prop)
    `{!∀ x, Decision (P1 x), !∀ x, Decision (P2 x)} (l : list A) :
  (∀ x, x ∈ l → P1 x ↔ P2 x) → filter P1 l = filter P2 l.
Proof.
  induction l as [|a l IH]; intros Hiff; [done|].
  rewrite !filter_cons, IH by (intros x Hx; apply Hiff; by right).
  destruct (decide (P1 a)) as [Ha|Ha].
  - rewrite decide_True; [done|]. apply Hiff; [left|done].
  - rewrite decide_False; [done|]. intros Ha'. apply Ha, Hiff; [left|done].
Qed.

Lemma filter_none {A} (P : A → Prop) `{!∀ x, Decision (P x)} (l : list A) :
  (∀ x, x ∈ l → ¬ P x) → filter P l = [].
Proof.
  induction l as [|a l IH]; intros Hnone; [done|].
  rewrite filter_cons, decide_False by (apply Hnone; left).
  apply IH. intros x Hx. apply Hnone. by right.
Qed.

(** ** Loops with early exit *)

Section ForUntil.
Context {A S : Type} (body : A → S → option (bool * S)).

(** Every iteration either stops the loop in a state satisfying [Q] or
    keeps the invariant [I]: so does the loop. *)
Lemma for_until_inv (I Q : S → Prop) xs s :
  (∀ x s, x ∈ xs → I s →
     ∃ b s', body x s = Some (b, s') ∧ if b then Q s' else I s') →
  I s → ∃ b s', for_until body xs s = Some (b, s') ∧ if (b : bool) then Q s' else I s'.
Proof.
  revert s. induction xs as [|x xs IH]; intros s Hbody HI; simpl.
  - by exists false, s.
  - destruct (Hbody x s) as (b & s' & -> & Hpost); [left | done |].
    destruct b; [by exists true, s'|].
    apply IH; [|done]. intros y t Hy. apply Hbody. by right.
Qed.

(** No iteration stops the loop. *)
Lemma for_until_none (I : S → Prop) xs s :
  (∀ x s, x ∈ xs → I s → ∃ s', body x s = Some (false, s') ∧ I s') →
  I s → ∃ s', for_until body xs s = Some (false, s') ∧ I s'.
Proof.
  intros Hbody HI.
  destruct (for_until_inv I (λ _, False) xs s) as (b & s' & Hrun & Hpost); [|done|].
  - intros x t Hx Ht. destruct (Hbody x t) as (t' & ? & ?); [done..|].
    by exists false, t'.
  - destruct b; [done|]. eauto.
Qed.

(** Some iteration stops the loop whenever it is reached. *)
Lemma for_until_some (I Q : S → Prop) xs s :
  (∀ x s, x ∈ xs → I s →
     ∃ b s', body x s = Some (b, s') ∧ if b then Q s' else I s') →
  (∃ x, x ∈ xs ∧ ∀ s, I s → ∃ s', body x s = Some (true, s')) →
  I s → ∃ s', for_until body xs s = Some (true, s') ∧ Q s'.
Proof.
  revert s. induction xs as [|x xs IH]; intros s Hbody (y & Hy & Hstop) HI; simpl.
  - by apply elem_of_nil in Hy.
  - destruct (Hbody x s) as (b & s' & Hb & Hpost); [left | done |].
    rewrite Hb. destruct b; [eauto|].
    apply elem_of_cons in Hy as [->|Hy].
    + destruct (Hstop s HI) as (s'' & Hb'). congruence.
    + apply IH; [|eauto|done]. intros z t Hz. apply Hbody. by right.
Qed.
End ForUntil.

(** ** Major-road propagation *)

Module BigStreetFacts.
Import BigStreet.

Section Expand.
Variables (r : routing) (orig : list bool) (way : way_idx_t).

Lemma near_major_false x n w :
  near_major r orig x = false →
  n ∈ bucket (way_nodes_ r) x → w ∈ bucket (node_ways_ r) n →
  test_bit orig w = false.
Proof.
  intros Hnm Hn Hw. apply not_true_is_false. intros Hbit.
  apply not_true_iff_false in Hnm. apply Hnm.
  apply existsb_exists. exists n. split; [by apply list_elem_of_In|].
  apply existsb_exists. exists w. split; [by apply list_elem_of_In|done].
Qed.

Lemma near_major_true x :
  near_major r orig x = true →
  ∃ n w, n ∈ bucket (way_nodes_ r) x ∧ w ∈ bucket (node_ways_ r) n ∧
         test_bit orig w = true.
Proof.
  intros (n & Hn & (w & Hw & Hbit)%existsb_exists)%existsb_exists.
  exists n, w. by rewrite !list_elem_of_In.
Qed.

(** One way inspected: the flags are written exactly when the answer is
    [true], provided the nested call behaves so. *)
Lemma inspect_inv recurse x go_further w s u :
  (go_further = true → ∀ t, ∃ (b : bool) t', recurse x false t = Some (b, t') ∧
      if b then flagged way t t' else kept t t') →
  kept s u →
  ∃ b u', inspect orig way recurse x go_further w u = Some (b, u') ∧
          if b then flagged way s u' else kept s u'.
Proof.
  unfold kept, flagged. intros Hrec Hu. unfold inspect. destruct (test_bit orig w).
  { exists true. eexists. split; [done|]. simpl. by rewrite Hu. }
  simpl. destruct (bool_decide (w ∉ done_ u) && go_further) eqn:Hgo.
  - apply andb_true_iff in Hgo as [_ ->].
    destruct (Hrec eq_refl (mk_st (props u) ({[w]} ∪ done_ u)))
      as (b & t' & -> & Hpost).
    exists b, t'. split; [done|]. destruct b; simpl in *; by rewrite Hpost, ?Hu.
  - by exists false; eexists.
Qed.

Lemma expand_with_inv recurse x go_further s :
  (go_further = true → ∀ t, ∃ (b : bool) t', recurse x false t = Some (b, t') ∧
      if b then flagged way t t' else kept t t') →
  ∃ b s', expand_with r orig way recurse x go_further s = Some (b, s') ∧
          if b then flagged way s s' else kept s s'.
Proof.
  intros Hrec. unfold expand_with.
  apply (for_until_inv _ (kept s) (flagged way s)); [|done].
  intros n t _ Ht.
  apply (for_until_inv _ (kept s) (flagged way s)); [|done].
  intros w u _ Hu. by apply inspect_inv.
Qed.

(** The answer of a call without [go_further]: is there a major way at
    a node of [x]. *)
Lemma expand_with_last recurse x s :
  ∃ s', expand_with r orig way recurse x false s
        = Some (near_major r orig x, s') ∧
        if near_major r orig x then flagged way s s' else kept s s'.
Proof.
  destruct (near_major r orig x) eqn:Hnm.
  - apply near_major_true in Hnm as (n & w & Hn & Hw & Hbit).
    apply (for_until_some _ (kept s) (flagged way s)); [| |done].
    + intros n' t _ Ht.
      apply (for_until_inv _ (kept s) (flagged way s)); [|done].
      intros w' u _ Hu. by apply inspect_inv.
    + exists n. split; [done|]. intros t Ht.
      destruct (for_until_some (inspect orig way recurse x false) (kept s) (flagged way s)
                  (bucket (node_ways_ r) n) t) as (t' & ? & ?); [| |done|by eauto].
      * intros w' u _ Hu. by apply inspect_inv.
      * exists w. split; [done|]. intros u _. unfold inspect. rewrite Hbit. eauto.
  - apply (for_until_none _ (kept s)); [|done].
    intros n t Hn Ht. apply (for_until_none _ (kept s)); [|done].
    intros w u Hw Hu. unfold inspect.
    rewrite (near_major_false x n w) by done. simpl.
    rewrite andb_false_r. eauto.
Qed.

(** With [go_further] the nested call looks at [x] again, so the answer
    is the same. *)
Lemma expand_with_first recurse x s :
  (∀ t, ∃ t', recurse x false t = Some (near_major r orig x, t') ∧
      if near_major r orig x then flagged way t t' else kept t t') →
  ∃ s', expand_with r orig way recurse x true s
        = Some (near_major r orig x, s') ∧
        if near_major r orig x then flagged way s s' else kept s s'.
Proof.
  intros Hrec.
  assert (∀ t, ∃ (b : bool) t', recurse x false t = Some (b, t') ∧
            if b then flagged way t t' else kept t t') as Hrec'.
  { intros t. destruct (Hrec t) as (t' & ? & ?). eauto. }
  destruct (near_major r orig x) eqn:Hnm.
  - apply near_major_true in Hnm as (n & w & Hn & Hw & Hbit).
    apply (for_until_some _ (kept s) (flagged way s)); [| |done].
    + intros n' t _ Ht.
      apply (for_until_inv _ (kept s) (flagged way s)); [|done].
      intros w' u _ Hu. by apply inspect_inv.
    + exists n. split; [done|]. intros t Ht.
      destruct (for_until_some (inspect orig way recurse x true) (kept s) (flagged way s)
                  (bucket (node_ways_ r) n) t) as (t' & ? & ?); [| |done|by eauto].
      * intros w' u _ Hu. by apply inspect_inv.
      * exists w. split; [done|]. intros u _. unfold inspect. rewrite Hbit. eauto.
  - apply (for_until_none _ (kept s)); [|done].
    intros n t Hn Ht. apply (for_until_none _ (kept s)); [|done].
    intros w u Hw Hu. unfold inspect.
    rewrite (near_major_false x n w) by done. simpl.
    destruct (bool_decide (w ∉ done_ u)); simpl; [|eauto].
    destruct (Hrec (mk_st (props u) ({[w]} ∪ done_ u))) as (t' & -> & Hpost).
    exists t'. split; [done|]. unfold kept in *. by rewrite Hpost.
Qed.

(** Two levels of fuel are enough, and the second level adds nothing. *)
Lemma expand_one_hop fuel x go_further s :
  2 ≤ fuel →
  ∃ s', expand r orig way fuel x go_further s = Some (near_major r orig x, s') ∧
        if near_major r orig x then flagged way s s' else kept s s'.
Proof.
  intros Hfuel. destruct fuel as [|[|fuel]]; [lia..|].
  destruct go_further.
  - simpl. apply expand_with_first. intros t. apply expand_with_last.
  - apply expand_with_last.
Qed.
End Expand.

Lemma visit_one_hop fuel r orig ps i :
  2 ≤ fuel →
  visit fuel r orig ps i
  = Some (if negb (test_bit orig i) && near_major r orig i
          then alter set_big_street i ps else ps).
Proof.
  intros Hfuel. unfold visit. destruct (test_bit orig i); [done|]. simpl.
  destruct (expand_one_hop r orig i fuel i true (mk_st ps ({[i]} ∪ ∅)) Hfuel)
    as (s' & -> & Hpost).
  unfold kept, flagged in Hpost.
  destruct (near_major r orig i); simpl in *; by rewrite Hpost.
Qed.


Lemma for_each_visit fuel r orig ixs ps :
  2 ≤ fuel →
  for_each_opt (visit fuel r orig) ixs ps
  = Some (fold_left (λ ps i, if negb (test_bit orig i) && near_major r orig i
                              then alter set_big_street i ps else ps) ixs ps).
Proof.
  intros Hfuel. revert ps. induction ixs as [|i ixs IH]; intros ps; simpl; [done|].
  by rewrite visit_one_hop, IH.
Qed.

Lemma lookup_fold_alter (c : nat → bool) ixs (ps : list way_properties) j :
  fold_left (λ ps i, if c i then alter set_big_street i ps else ps) ixs ps !! j
  = if bool_decide (j ∈ ixs) && c j then set_big_street <$> ps !! j else ps !! j.
Proof.
  revert ps. induction ixs as [|i ixs IH]; intros ps; simpl; [done|].
  rewrite IH. destruct (decide (i = j)) as [->|Hne].
  - rewrite (bool_decide_eq_true_2 (j ∈ j :: ixs)) by left. simpl.
    destruct (c j) eqn:Hc.
    + rewrite list_lookup_alter_eq, andb_true_r.
      destruct (bool_decide (j ∈ ixs)); [|done].
      by destruct (ps !! j) as [[]|].
    + by rewrite andb_false_r.
  - assert (bool_decide (j ∈ i :: ixs) = bool_decide (j ∈ ixs)) as ->.
    { apply bool_decide_ext. rewrite elem_of_cons. split; [intros [?|?]|]; auto; congruence. }
    destruct (c i); [|done]. by rewrite list_lookup_alter_ne.
Qed.

End BigStreetFacts.

Section BigStreetStore.
Context `{Geo}.
Import BigStreet BigStreetFacts.

(** What [compute_big_street_neighbors] computes: the pass always
    completes, and a way ends up flagged exactly when it was flagged
    before or an originally major way touches one of its nodes.  The
    other properties are not touched. *)
Theorem compute_big_street_neighbors_one_hop fuel (w : ways) :
  2 ≤ fuel →
  ∃ w', compute_big_street_neighbors fuel w = Some w' ∧
    ∀ i p, i < n_ways w → way_properties_ (r_ w) !! i = Some p →
      way_properties_ (r_ w') !! i
      = Some (mk_way_properties
                (is_big_street p
                 || near_major (r_ w) (snapshot (n_ways w) (way_properties_ (r_ w))) i)
                (other_properties_ p)).
Proof.
  intros Hfuel. unfold compute_big_street_neighbors.
  rewrite for_each_visit by done. eexists. split; [done|].
  intros i p Hi Hp. simpl. rewrite lookup_fold_alter.
  rewrite bool_decide_eq_true_2 by (apply elem_of_seq; lia). simpl.
  assert (test_bit (snapshot (n_ways w) (way_properties_ (r_ w))) i = is_big_street p) as ->.
  { unfold test_bit, snapshot. apply lookup_lt_Some in Hp as Hlt.
    rewrite lookup_resize by (rewrite ?length_fmap; lia).
    by rewrite list_lookup_fmap, Hp. }
  rewrite Hp. destruct p as [[] o]; simpl; [done|].
  by destruct (near_major _ _ i).
Qed.

End BigStreetStore.

(** ** Component labelling *)

Module ComponentFacts.
Import Components.

Lemma consistent_b_sound n r : consistent_b n r = true → consistent n r.
Proof.
  unfold consistent_b. rewrite !andb_true_iff, bool_decide_eq_true.
  intros [[Hlen Hw] Hn].
  rewrite forallb_forall in Hw. rewrite forallb_forall in Hn.
  split.
  - intros w nd (b & Hb & _)%elem_of_bucket. apply lookup_lt_Some in Hb. lia.
  - intros w nd (b & Hb & Hnd)%elem_of_bucket.
    specialize (Hw (w, b)). simpl in Hw. rewrite forallb_forall in Hw.
    eapply bool_decide_eq_true, Hw; [|by apply list_elem_of_In].
    by apply list_elem_of_In, elem_of_enumerate.
  - intros nd w (b & Hb & Hnd)%elem_of_bucket.
    specialize (Hn (nd, b)). simpl in Hn. rewrite forallb_forall in Hn.
    eapply bool_decide_eq_true, Hn; [|by apply list_elem_of_In].
    by apply list_elem_of_In, elem_of_enumerate.
Qed.

Lemma touches_sym r a b : touches r a b → touches r b a.
Proof. intros (nd & ? & ?). by exists nd. Qed.

Lemma connected_sym r a b : connected r a b → connected r b a.
Proof.
  induction 1 as [|a b c Hab _ IH]; [apply rtc_refl|].
  eapply rtc_r; [done|]. by apply touches_sym.
Qed.

(** *** One way claimed *)

Lemma count_invalid_insert wc b k :
  wc !! b = Some invalid → k ≠ invalid →
  S (count_invalid (<[b := k]> wc)) = count_invalid wc.
Proof.
  unfold count_invalid. revert b. induction wc as [|c wc IH]; intros [|b] Hb Hk;
    simplify_eq/=.
  - rewrite !filter_cons. repeat case_decide; simplify_eq/=; done.
  - specialize (IH b Hb Hk). rewrite !filter_cons.
    destruct (decide (c = invalid)); simpl; lia.
Qed.

Lemma claim_way_cases k wc q b :
  (wc !! b = Some invalid ∧ claim_way k (wc, q) b = (<[b := k]> wc, {[b]} ∪ q))
  ∨ (wc !! b ≠ Some invalid ∧ claim_way k (wc, q) b = (wc, q)).
Proof.
  unfold claim_way. simpl. destruct (wc !! b) as [c|]; [|by right].
  case_bool_decide; [left; by subst | right]. split; congruence.
Qed.

Section Claim.
Variable k : component_idx_t.
Hypothesis k_valid : k ≠ invalid.

(** The ways of [L] that have no component yet get [k] and join the
    work set; nothing else changes. *)
Lemma fold_claim_way L wc q :
  let s := fold_left (claim_way k) L (wc, q) in
  length s.1 = length wc ∧
  (∀ w, s.1 !! w = if bool_decide (w ∈ L ∧ wc !! w = Some invalid)
                   then Some k else wc !! w) ∧
  (∀ w, w ∈ s.2 ↔ w ∈ q ∨ (w ∈ L ∧ wc !! w = Some invalid)) ∧
  count_invalid s.1 + size s.2 ≤ count_invalid wc + size q.
Proof.
  revert wc q. induction L as [|b L IH]; intros wc q; cbv zeta in *.
  { simpl. split_and!; [done|done|set_solver|done]. }
  change (fold_left (claim_way k) (b :: L) (wc, q))
    with (fold_left (claim_way k) L (claim_way k (wc, q) b)).
  destruct (claim_way_cases k wc q b) as [[Hb ->]|[Hb ->]].
  - destruct (IH (<[b := k]> wc) ({[b]} ∪ q)) as (Hlen & Hwc & Hq & Hm).
    split_and!.
    + by rewrite Hlen, length_insert.
    + intros w. rewrite Hwc. destruct (decide (w = b)) as [->|Hne].
      * rewrite list_lookup_insert_eq by (by eapply lookup_lt_Some).
        rewrite (bool_decide_eq_true_2 (b ∈ b :: L ∧ _)) by (split; [left|done]).
        by case_bool_decide.
      * rewrite list_lookup_insert_ne by done.
        apply (f_equal (λ x : bool, if x then Some k else wc !! w)).
        apply bool_decide_ext. rewrite elem_of_cons. naive_solver.
    + intros w. rewrite Hq. destruct (decide (w = b)) as [->|Hne].
      * split; [|set_solver]. intros _. right. split; [left|done].
      * rewrite list_lookup_insert_ne by done. rewrite elem_of_cons. set_solver.
    + pose proof (count_invalid_insert wc b k Hb k_valid).
      assert (size ({[b]} ∪ q) ≤ S (size q)).
      { rewrite size_union_alt, size_singleton.
        pose proof (subseteq_size (q ∖ {[b]}) q). set_solver by lia. }
      lia.
  - destruct (IH wc q) as (Hlen & Hwc & Hq & Hm).
    split_and!; [done| | |done].
    + intros w. rewrite Hwc.
      apply (f_equal (λ x : bool, if x then Some k else wc !! w)).
      apply bool_decide_ext. rewrite elem_of_cons. naive_solver.
    + intros w. rewrite Hq, elem_of_cons. naive_solver.
Qed.
End Claim.


Lemma spread_neighbours r c next s :
  spread r c next s
  = fold_left (claim_way c) (bucket (way_nodes_ r) next ≫= bucket (node_ways_ r)) s.
Proof. apply (fold_left_bind (claim_way c)). Qed.

Lemma elem_of_neighbours n r next b :
  consistent n r →
  b ∈ bucket (way_nodes_ r) next ≫= bucket (node_ways_ r) ↔ touches r next b.
Proof.
  intros Hcons. rewrite list_elem_of_bind. unfold touches. split.
  - intros (nd & Hb & Hnd). exists nd. split; [done|]. by eapply node_listed.
  - intros (nd & Hnd & Hb). exists nd. split; [|done]. by eapply way_listed.
Qed.

(** *** One flood fill *)

Section Flood.
Context `{HashOrder}.
Variables (r : routing) (n : nat).
Hypothesis Hcons : consistent n r.
(** The column when the fill starts (the seed [i] already holds [k]). *)
Variables (wc0 : list Z) (k : Z) (i : nat).
Hypothesis k_valid : k ≠ invalid.
Hypothesis seed_only : ∀ a, wc0 !! a = Some k → a = i.
Hypothesis old_closed : ∀ a b c,
  wc0 !! a = Some c → c ≠ invalid → c ≠ k → touches r a b → wc0 !! b = Some c.

Lemma flood_step wc q :
  flood_inv r n wc0 k i wc q → q ≠ ∅ →
  let s := spread r k (hash_begin q) (wc, q ∖ {[hash_begin q]}) in
  flood_inv r n wc0 k i s.1 s.2 ∧ count_invalid s.1 + size s.2 < count_invalid wc + size q.
Proof.
  intros [Hlen Hframe Hqueue Hreach Hclosed] Hq. cbv zeta.
  pose proof (hash_begin_elem q Hq) as Hnext.
  set (next := hash_begin q) in *.
  rewrite spread_neighbours.
  destruct (fold_claim_way k k_valid
              (bucket (way_nodes_ r) next ≫= bucket (node_ways_ r))
              wc (q ∖ {[next]})) as (Hlen' & Hwc' & Hq' & Hm).
  set (s := fold_left _ _ _) in *.
  assert (∀ w, s.1 !! w = Some k ↔
               wc !! w = Some k ∨ (touches r next w ∧ wc !! w = Some invalid)) as Hk.
  { intros w. rewrite Hwc'. case_bool_decide as Hc.
    - destruct Hc as [Hc1 Hc2]. rewrite (elem_of_neighbours n) in Hc1 by done.
      split; [by right|done].
    - split; [by left|]. intros [?|[? ?]]; [done|]. destruct Hc.
      by rewrite (elem_of_neighbours n). }
  split; [split|].
  - lia.
  - intros w. rewrite Hwc'. case_bool_decide as Hc; [|apply Hframe].
    destruct Hc as [_ Hc]. right. split; [|done].
    destruct (Hframe w) as [<-|[_ ?]]; [done|congruence].
  - intros w. rewrite Hq', Hk, elem_of_difference.
    intros [[?%Hqueue _]|[Hw ?]]; [by left|right]. split; [|done].
    by apply (elem_of_neighbours n).
  - intros w. rewrite Hk. intros [?%Hreach|[Hw _]]; [done|].
    eapply rtc_r; [|done]. by apply Hreach, Hqueue.
  - intros a b. rewrite !Hk, Hq', elem_of_difference, elem_of_singleton.
    intros Ha Hna Hab.
    destruct Ha as [Ha|[Ha1 Ha2]]; [|destruct Hna; right; split; [|done];
                                       by apply (elem_of_neighbours n)].
    destruct (decide (a = next)) as [->|Hne].
    + assert (b < n) as Hb.
      { destruct Hab as (nd & _ & Hnd). by eapply way_in_range. }
      destruct (lookup_lt_is_Some_2 wc b) as [c Hc]; [lia|].
      destruct (decide (c = invalid)) as [->|Hcv]; [by right|]. left.
      destruct (decide (c = k)) as [->|Hck]; [done|].
      destruct (Hframe b) as [Hb0|[_ ?]]; [|congruence].
      rewrite Hc in Hb0. symmetry in Hb0.
      pose proof (old_closed b next c Hb0 Hcv Hck (touches_sym _ _ _ Hab)) as Hn0.
      destruct (Hframe next) as [Hf|[Hf _]]; congruence.
    + left. apply (Hclosed a b); [done| |done].
      intros Haq. apply Hna. left. done.
  - assert (S (size (q ∖ {[next]})) = size q).
    { rewrite size_difference by set_solver. rewrite size_singleton.
      assert (size q ≠ 0) by (by intros ?%size_empty_inv%leibniz_equiv). lia. }
    lia.
Qed.

(** The loop ends, and its invariant holds with an empty work set. *)
Lemma flood_loop_spec fuel wc q :
  flood_inv r n wc0 k i wc q → count_invalid wc + size q < fuel →
  ∃ wc', flood_loop fuel r k wc q = Some wc' ∧ flood_inv r n wc0 k i wc' ∅.
Proof.
  revert wc q. induction fuel as [|fuel IH]; intros wc q Hinv Hfuel; [lia|].
  simpl. destruct (decide (q = ∅)) as [->|Hq]; [eauto|].
  destruct (flood_step wc q Hinv Hq) as [Hinv' Hm]. cbv zeta in *.
  destruct (spread r k (hash_begin q) (wc, q ∖ {[hash_begin q]})) as [wc1 q1].
  apply IH; [done|]. simpl in Hm. lia.
Qed.
End Flood.


(** *** The loop over the ways *)

Section Labelling.
Context `{HashOrder}.
Variables (r : routing) (n : nat).
Hypothesis Hcons : consistent n r.
Hypothesis n_small : (Z.of_nat n ≤ invalid)%Z.

Lemma count_invalid_le wc : count_invalid wc ≤ length wc.
Proof. apply length_filter. Qed.

Lemma label_way_spec fuel i wc k :
  label_inv r n i wc k → i < n → n < fuel →
  ∃ wc' k', label_way fuel r (wc, k) i = Some (wc', k')
            ∧ label_inv r n (S i) wc' k'.
Proof.
  intros [Hlen Hnext Hrange Hdone Hclosed Hsound] Hi Hfuel.
  unfold label_way.
  destruct (lookup_lt_is_Some_2 wc i) as [c Hc]; [lia|]. rewrite Hc.
  case_bool_decide as Hcv.
  { exists wc, k. split; [done|]. split; try done; [lia|].
    intros w Hw. destruct (decide (w = i)) as [->|]; [eauto|]. apply Hdone. lia. }
  subst c.
  assert (k ≠ invalid) as Hk by (unfold invalid in *; lia).
  assert (incr k = (k + 1)%Z) as Hincr.
  { unfold incr. apply Z.mod_small. unfold invalid in *. lia. }
  set (wc0 := <[i := k]> wc).
  assert (wc0 !! i = Some k) as Hseed by (apply list_lookup_insert_eq; lia).
  assert (∀ a, a ≠ i → wc0 !! a = wc !! a) as Hother
    by (intros a Ha; by apply list_lookup_insert_ne).
  assert (∀ a, wc0 !! a = Some k → a = i) as Hseed_only.
  { intros a Ha. destruct (decide (a = i)) as [|Hne]; [done|].
    rewrite Hother in Ha by done. apply Hrange in Ha; [lia|done]. }
  assert (∀ a b c, wc0 !! a = Some c → c ≠ invalid → c ≠ k → touches r a b →
                   wc0 !! b = Some c) as Hold.
  { intros a b c Ha Hcv Hck Hab.
    assert (a ≠ i) by congruence. rewrite Hother in Ha by done.
    pose proof (Hclosed a b c Ha Hcv Hab) as Hb.
    assert (b ≠ i) by congruence. by rewrite Hother. }
  assert (flood_inv r n wc0 k i wc0 ({[i]} ∪ ∅)) as Hinit.
  { split.
    - unfold wc0. by rewrite length_insert.
    - by left.
    - intros w Hw. assert (w = i) as -> by set_solver. done.
    - intros w ->%Hseed_only. apply rtc_refl.
    - intros a b ->%Hseed_only Ha. destruct Ha. set_solver. }
  destruct (flood_loop_spec r n Hcons wc0 k i Hk Hseed_only Hold fuel wc0 ({[i]} ∪ ∅) Hinit)
    as (wc' & Hrun & [Hlen' Hframe _ Hreach Hcl]).
  { pose proof (count_invalid_insert wc i k Hc Hk).
    pose proof (count_invalid_le wc).
    assert (size ({[i]} ∪ (∅ : gset nat)) = 1) as ->.
    { rewrite (right_id_L ∅ (∪)). apply size_singleton. }
    fold wc0 in H0. lia. }
  unfold flood_fill. fold wc0. rewrite Hrun.
  exists wc', (incr k). split; [done|]. rewrite Hincr.
  assert (∀ w c, wc' !! w = Some c → c ≠ invalid → c ≠ k →
                 w ≠ i ∧ wc !! w = Some c) as Hkeep.
  { intros w c Hw Hcv Hck. destruct (Hframe w) as [Hf|[_ ?]]; [|congruence].
    assert (w ≠ i) by congruence. rewrite Hother in Hf by done.
    split; congruence. }
  assert (∀ w c, wc !! w = Some c → c ≠ invalid → wc' !! w = Some c) as Hstay.
  { intros w c Hw Hcv. assert (w ≠ i) by congruence.
    destruct (Hframe w) as [Hf|[Hf _]]; rewrite Hother in Hf by done; congruence. }
  split.
  - done.
  - lia.
  - intros w c Hw Hcv. destruct (decide (c = k)) as [->|Hck]; [lia|].
    destruct (Hkeep w c Hw Hcv Hck) as [_ Hw']. apply Hrange in Hw'; [lia|done].
  - intros w Hw. destruct (decide (w = i)) as [->|Hne].
    + exists k. split; [|done]. destruct (Hframe i) as [Hf|[_ ?]]; congruence.
    + destruct (Hdone w) as (c & Hw' & Hcv); [lia|]. exists c. eauto.
  - intros a b c Ha Hcv Hab. destruct (decide (c = k)) as [->|Hck].
    + apply (Hcl a b); [done|set_solver|done].
    + destruct (Hkeep a c Ha Hcv Hck) as [_ Ha']. eauto.
  - intros a b c Ha Hb Hcv. destruct (decide (c = k)) as [->|Hck].
    + etransitivity; [apply connected_sym|]; by apply Hreach.
    + destruct (Hkeep a c Ha Hcv Hck) as [_ Ha'].
      destruct (Hkeep b c Hb Hcv Hck) as [_ Hb']. eauto.
Qed.

Lemma for_each_label_way fuel len i wc k :
  label_inv r n i wc k → i + len = n → n < fuel →
  ∃ wc' k', for_each_opt (label_way fuel r) (seq i len) (wc, k) = Some (wc', k')
            ∧ label_inv r n n wc' k'.
Proof.
  revert i wc k. induction len as [|len IH]; intros i wc k Hinv Hlen Hfuel;
    cbn [seq for_each_opt].
  - assert (i = n) as Hi by lia. rewrite Hi in Hinv. eauto.
  - destruct (label_way_spec fuel i wc k) as (wc1 & k1 & -> & Hinv1); [done|lia|done|].
    apply IH; [done|lia|done].
Qed.

Lemma label_inv_start : label_inv r n 0 (replicate n invalid) 0%Z.
Proof.
  split.
  - apply length_replicate.
  - lia.
  - intros w c [-> _]%lookup_replicate. done.
  - lia.
  - intros a b c [-> _]%lookup_replicate. done.
  - intros a b c [-> _]%lookup_replicate. done.
Qed.

(** All ways labelled: the labelling is the partition into connected
    sets of ways. *)
Lemma label_inv_partition wc k a b :
  label_inv r n n wc k → a < n → b < n →
  (wc !! a = wc !! b ↔ connected r a b).
Proof.
  intros [Hlen Hnext Hrange Hdone Hclosed Hsound] Ha Hb.
  destruct (Hdone a Ha) as (ca & Hca & Hva).
  split.
  - intros Hab. apply (Hsound a b ca); congruence.
  - intros Hconn. rewrite Hca. clear Ha Hb.
    induction Hconn as [a|a a' b Hstep _ IH]; [done|].
    apply IH. by apply (Hclosed a a' ca).
Qed.
End Labelling.

End ComponentFacts.

Section ComponentsStore.
Context `{Geo} `{Components.HashOrder}.
Import Components ComponentFacts.

(** C6.  On a store whose adjacency columns are consistent and whose
    component column is still empty, [build_components] completes (any
    fuel above the number of ways is enough) and only writes the
    component column; afterwards every way has a component other than the
    sentinel, two ways that share an internal node have the same
    component, and two ways have the same component exactly when a chain
    of ways sharing internal nodes connects them. *)
Theorem build_components_partition fuel (w : ways) :
  consistent (n_ways w) (r_ w) →
  way_component_ (r_ w) = [] →
  (Z.of_nat (n_ways w) ≤ invalid)%Z →
  n_ways w < fuel →
  ∃ wc, build_components fuel w = Some (with_routing w (with_way_component (r_ w) wc)) ∧
    length wc = n_ways w ∧
    (∀ a, a < n_ways w → ∃ c, wc !! a = Some c ∧ c ≠ invalid) ∧
    (∀ a b, touches (r_ w) a b → wc !! a = wc !! b) ∧
    (∀ a b, a < n_ways w → b < n_ways w →
       (wc !! a = wc !! b ↔ connected (r_ w) a b)).
Proof.
  intros Hcons Hfresh Hsmall Hfuel. unfold build_components.
  rewrite Hfresh. rewrite resize_nil.
  destruct (for_each_label_way (r_ w) (n_ways w) Hcons Hsmall fuel (n_ways w) 0
              (replicate (n_ways w) invalid) 0%Z)
    as (wc & k & -> & Hinv); [apply label_inv_start|lia|done|].
  exists wc. split; [done|].
  split; [apply Hinv|]. split; [apply Hinv|]. split.
  - intros a b Hab.
    assert (a < n_ways w ∧ b < n_ways w) as [Ha Hb].
    { destruct Hab as (nd & ? & ?). split; by eapply way_in_range. }
    apply (label_inv_partition (r_ w) (n_ways w) wc k); [done..|].
    by apply rtc_once.
  - intros a b. by apply label_inv_partition with k.
Qed.

End ComponentsStore.

(** ** Turn restrictions *)

Module RestrictionFacts.
Import Restrictions.

(** *** What one record contributes *)

Lemma push_all_nil via r : push_all via [] r = r.
Proof.
  unfold push_all, with_node_restrictions. destruct r; simpl. f_equal.
  apply list_alter_id. intros b. apply app_nil_r.
Qed.

Lemma push_restriction_push_all via p ps r :
  push_restriction via p (push_all via ps r) = push_all via (ps ++ [p]) r.
Proof.
  unfold push_restriction, push_all, with_node_restrictions. simpl. f_equal.
  rewrite list_alter_alter_eq. apply list_alter_ext; [|done].
  intros b _. simpl. by rewrite <-app_assoc.
Qed.

Lemma node_ways_push_all via ps r : node_ways_ (push_all via ps r) = node_ways_ r.
Proof. done. Qed.

Section Pairs.
Context `{Slots}.

Lemma fold_push_inner via (c : nat → nat → bool) (P : nat → restriction)
    (E : list (nat * nat)) ps r :
  fold_left (λ r '(j, b), if c j b then push_restriction via (P j) r else r) E
    (push_all via ps r)
  = push_all via (ps ++ (E ≫= λ '(j, b), if c j b then [P j] else [])) r.
Proof.
  revert ps. induction E as [|[j b] E IH]; intros ps; simpl.
  - by rewrite app_nil_r.
  - destruct (c j b); simpl.
    + by rewrite push_restriction_push_all, IH, <-app_assoc.
    + apply IH.
Qed.

Lemma fold_push_outer via from to (E : list (nat * nat)) ps r :
  fold_left (λ r '(i, a),
    fold_left (λ r '(j, b),
      if bool_decide (from = a) && bool_decide (to ≠ b) then
        push_restriction via (mk_restriction (to_way_pos i) (to_way_pos j)) r
      else r)
      (enumerate (bucket (node_ways_ r) via)) r) E (push_all via ps r)
  = push_all via
      (ps ++ (E ≫= λ '(i, a), enumerate (bucket (node_ways_ r) via) ≫= λ '(j, b),
                if bool_decide (from = a) && bool_decide (to ≠ b)
                then [mk_restriction (to_way_pos i) (to_way_pos j)] else [])) r.
Proof.
  revert ps. induction E as [|[i a] E IH]; intros ps; simpl.
  - by rewrite app_nil_r.
  - rewrite (fold_push_inner via
               (λ j b, bool_decide (from = a) && bool_decide (to ≠ b))
               (λ j, mk_restriction (to_way_pos i) (to_way_pos j))).
    rewrite IH. by rewrite <-app_assoc.
Qed.

(** Lines 76-91 push exactly [pairs_of r x], all into the list of the
    via node. *)
Lemma add_one_pairs r x : add_one r x = push_all (via_ x) (pairs_of r x) r.
Proof.
  unfold add_one, pairs_of. destruct (type_ x); [done|].
  pose proof (fold_push_outer (via_ x) (from_ x) (to_ x)
                (enumerate (bucket (node_ways_ r) (via_ x))) [] r) as Hfold.
  rewrite push_all_nil in Hfold. apply Hfold.
Qed.
End Pairs.


Section Batch.
Context `{Slots}.

Lemma elem_of_only_pairs ws from to p :
  p ∈ only_pairs ws from to ↔
  ∃ i j b, ws !! i = Some from ∧ ws !! j = Some b ∧ b ≠ to ∧
           p = mk_restriction (to_way_pos i) (to_way_pos j).
Proof.
  unfold only_pairs. rewrite list_elem_of_bind. split.
  - intros ([i a] & Hp & Hi%elem_of_enumerate).
    apply list_elem_of_bind in Hp as ([j b] & Hp & Hj%elem_of_enumerate).
    destruct (bool_decide (from = a) && bool_decide (to ≠ b)) eqn:Hc;
      [|by apply elem_of_nil in Hp].
    apply andb_true_iff in Hc as [->%bool_decide_eq_true Hb%bool_decide_eq_true].
    apply list_elem_of_singleton in Hp. exists i, j, b. split_and!; [done|done|congruence|done].
  - intros (i & j & b & Hi & Hj & Hb & ->). exists (i, from).
    split; [|by apply elem_of_enumerate].
    apply list_elem_of_bind. exists (j, b). split; [|by apply elem_of_enumerate].
    rewrite !bool_decide_eq_true_2 by congruence. simpl. left.
Qed.

(** *** The ranges of equal via nodes *)

Lemma prepare_ready v r : ready v r → prepare v r = r.
Proof.
  intros [Hlen Hbit]. unfold prepare, with_node_is_restricted, with_node_restrictions.
  destruct r; simpl in *. rewrite Hbit. f_equal. by apply resize_all_alt.
Qed.

Lemma ready_prepare v r : ready v (prepare v r).
Proof.
  split; simpl; [by rewrite length_resize | by rewrite list_insert_insert_eq].
Qed.

Lemma ready_add_one v r x : ready v r → ready v (add_one r x).
Proof.
  intros [Hlen Hbit]. rewrite add_one_pairs. split; simpl; [|done].
  by rewrite length_alter.
Qed.

Lemma add_one_steps v g r :
  ready v r → Forall (λ y, via_ y = v) g →
  fold_left add_one g r = fold_left step g r.
Proof.
  intros Hr Hg. revert r Hr. induction Hg as [|y g Hy _ IH]; intros r Hr; simpl; [done|].
  unfold step at 2. rewrite Hy, (prepare_ready v r Hr). apply IH.
  by apply ready_add_one.
Qed.

(** A range of one via node: the callback does to it what [step] does
    record by record. *)
Lemma add_range_steps lower run r :
  Forall (λ y, via_ y = via_ lower) run →
  add_range r (lower :: run) = fold_left step (lower :: run) r.
Proof.
  intros Hrun. unfold add_range.
  change (fold_left add_one (lower :: run) ?s)
    with (fold_left add_one run (add_one s lower)).
  change (fold_left step (lower :: run) r) with (fold_left step run (step r lower)).
  apply (add_one_steps (via_ lower)); [|done].
  apply ready_add_one, ready_prepare.
Qed.

Lemma fold_ranges_from lower run l r :
  Forall (λ y, via_ y = via_ lower) run →
  fold_left add_range (ranges_from same_via lower (rev run ++ [lower]) l) r
  = fold_left step (lower :: run ++ l) r.
Proof.
  assert (∀ run, rev (rev run ++ [lower]) = lower :: run) as Hrev.
  { intros run'. by rewrite rev_app_distr, rev_involutive. }
  revert lower run r Hrev. induction l as [|y l IH]; intros lower run r Hrev Hrun;
    cbn [ranges_from].
  - rewrite Hrev, app_nil_r. cbn [fold_left]. by apply add_range_steps.
  - unfold same_via at 1. case_bool_decide as Hy.
    + specialize (IH lower (run ++ [y]) r). rewrite rev_app_distr in IH. simpl in IH.
      rewrite IH; [by rewrite <-app_assoc| |].
      { intros run'. by rewrite rev_app_distr, rev_involutive. }
      apply Forall_app. split; [done|]. by apply Forall_singleton.
    + rewrite Hrev. cbn [fold_left].
      specialize (IH y [] (add_range r (lower :: run))). cbn [rev app] in IH.
      rewrite IH; [|intros run'; by rewrite rev_app_distr, rev_involutive|done].
      rewrite (add_range_steps lower run r Hrun).
      exact (eq_sym (fold_left_app step (lower :: run) (y :: l) r)).
Qed.

(** [equal_ranges_linear] with the callback of [add_restriction] treats
    the records one after the other. *)
Lemma fold_equal_ranges l r :
  fold_left add_range (equal_ranges_linear same_via l) r = fold_left step l r.
Proof.
  destruct l as [|x l]; [done|]. simpl.
  apply (fold_ranges_from x [] l r). constructor.
Qed.
End Batch.


(** *** Sorting by via node *)

Lemma insert_by_via_perm x l : Permutation (x :: l) (insert_by_via x l).
Proof.
  induction l as [|y l IH]; simpl; [done|].
  case_bool_decide; [done|]. rewrite <-IH. apply perm_swap.
Qed.

Lemma insert_by_via_sorted x l :
  StronglySorted via_le l → StronglySorted via_le (insert_by_via x l).
Proof.
  induction 1 as [|y l Hl IH Hy]; simpl.
  - repeat constructor.
  - case_bool_decide as Hxy.
    + constructor; [by constructor|]. constructor; [unfold via_le; lia|].
      eapply Forall_impl; [exact Hy|]. unfold via_le. intros z Hz. simpl in *. lia.
    + constructor; [done|].
      rewrite <-(insert_by_via_perm x l). constructor; [unfold via_le; lia|done].
  Qed.

Lemma sort_by_via_acc rs acc :
  StronglySorted via_le acc →
  Permutation (rs ++ acc) (fold_left (λ acc x, insert_by_via x acc) rs acc) ∧
  StronglySorted via_le (fold_left (λ acc x, insert_by_via x acc) rs acc).
Proof.
  revert acc. induction rs as [|x rs IH]; intros acc Hacc; simpl; [done|].
  destruct (IH (insert_by_via x acc)) as [Hperm Hsorted];
    [by apply insert_by_via_sorted|].
  split; [|done]. rewrite <-Hperm, <-insert_by_via_perm.
  by rewrite Permutation_middle.
Qed.

Lemma sort_by_via_perm rs : Permutation rs (sort_by_via rs).
Proof.
  destruct (sort_by_via_acc rs []) as [Hperm _]; [constructor|].
  by rewrite app_nil_r in Hperm.
Qed.

Lemma sort_by_via_sorted rs : StronglySorted via_le (sort_by_via rs).
Proof. apply (sort_by_via_acc rs []). constructor. Qed.

(** *** The column after a batch *)

Section Column.
Context `{Slots}.

Lemma same_graph_step r x : same_graph r (step r x).
Proof. unfold step. rewrite add_one_pairs. by repeat split. Qed.

Lemma same_graph_fold_step l r : same_graph r (fold_left step l r).
Proof.
  revert r. induction l as [|x l IH]; intros r; simpl; [by repeat split|].
  destruct (IH (step r x)) as (?&?&?&?&?&?).
  destruct (same_graph_step r x) as (?&?&?&?&?&?).
  repeat split; congruence.
Qed.

Lemma pairs_of_same_graph r r' x : same_graph r r' → pairs_of r' x = pairs_of r x.
Proof. intros (_&_&_&Hw&Hi&_). unfold pairs_of. by rewrite Hw, Hi. Qed.

Lemma contrib_same_graph r r' rs u : same_graph r r' → contrib r' rs u = contrib r rs u.
Proof.
  intros Hg. unfold contrib. induction rs as [|x rs IH]; [done|].
  cbn. rewrite IH. by rewrite (pairs_of_same_graph r r' x Hg).
Qed.

Lemma bucket_step r x u :
  bucket (node_restrictions_ (step r x)) u
  = (if decide (u ≤ via_ x) then bucket (node_restrictions_ r) u else [])
    ++ (if decide (u = via_ x) then pairs_of r x else []).
Proof.
  unfold step. rewrite add_one_pairs. simpl.
  rewrite bucket_alter_app by (rewrite length_resize; lia).
  rewrite bucket_resize. f_equal. repeat case_decide; done || lia.
Qed.

(** Records sorted by via node: the lists up to the first via node keep
    what they held, the later ones are rebuilt from the batch. *)
Lemma bucket_fold_step x0 l r u :
  StronglySorted via_le (x0 :: l) →
  bucket (node_restrictions_ (fold_left step (x0 :: l) r)) u
  = (if decide (u ≤ via_ x0) then bucket (node_restrictions_ r) u else [])
    ++ contrib r (x0 :: l) u.
Proof.
  revert x0 r. induction l as [|y l IH]; intros x0 r Hsorted.
  - simpl. rewrite bucket_step. unfold contrib. cbn. by rewrite app_nil_r.
  - apply StronglySorted_inv in Hsorted as [Hl Hx0].
    change (fold_left step (x0 :: y :: l) r)
      with (fold_left step (y :: l) (step r x0)).
    rewrite IH by done.
    rewrite (contrib_same_graph r (step r x0)) by apply same_graph_step.
    rewrite bucket_step.
    assert (via_ x0 ≤ via_ y) as Hle by (by inversion Hx0).
    change (contrib r (x0 :: y :: l) u)
      with ((if decide (u = via_ x0) then pairs_of r x0 else [])
            ++ contrib r (y :: l) u).
    repeat case_decide; try lia; simpl; by rewrite ?app_nil_r, ?app_assoc.
Qed.

Lemma contrib_absent r rs u :
  (∀ x, x ∈ rs → via_ x ≠ u) → contrib r rs u = [].
Proof.
  unfold contrib. induction rs as [|x rs IH]; intros Hrs; [done|]. cbn.
  rewrite IH by (intros y Hy; apply Hrs; by right).
  rewrite decide_False; [done|]. intros ->. by apply (Hrs x); [left|].
Qed.

Lemma contrib_before_first r x0 l u :
  StronglySorted via_le (x0 :: l) → u < via_ x0 → contrib r (x0 :: l) u = [].
Proof.
  intros [_ Hx0]%StronglySorted_inv Hu. apply contrib_absent.
  intros x [->|Hx]%elem_of_cons; [lia|].
  rewrite Forall_forall in Hx0. apply Hx0 in Hx.
  unfold via_le in Hx. lia.
Qed.
End Column.

End RestrictionFacts.

Section RestrictionStore.
Context `{Geo} `{Restrictions.Slots}.
Import Restrictions RestrictionFacts.

Lemma add_restriction_unfold (w : ways) rs :
  add_restriction w rs
  = (sort_by_via rs,
     with_routing w
       (with_node_restrictions (fold_left step (sort_by_via rs) (r_ w))
          (resize (length (node_to_osm_ w)) []
             (node_restrictions_ (fold_left step (sort_by_via rs) (r_ w)))))).
Proof.
  unfold add_restriction.
  by rewrite <-(fold_equal_ranges (sort_by_via rs) (r_ w)).
Qed.

(** One call: the column ends up padded to the node range; the lists of
    the nodes up to the smallest via node of the batch keep their pairs
    and the batch's pairs are appended; the lists of later nodes hold the
    batch's pairs only. *)
Lemma add_restriction_buckets (w : ways) rs x0 l :
  sort_by_via rs = x0 :: l →
  let w' := (add_restriction w rs).2 in
  length (node_restrictions_ (r_ w')) = length (node_to_osm_ w) ∧
  same_graph (r_ w) (r_ w') ∧
  node_to_osm_ w' = node_to_osm_ w ∧
  ∀ u, u < length (node_to_osm_ w) →
    bucket (node_restrictions_ (r_ w')) u
    = (if decide (u ≤ via_ x0) then bucket (node_restrictions_ (r_ w)) u else [])
      ++ contrib (r_ w) (sort_by_via rs) u.
Proof.
  intros Hsort. cbv zeta. rewrite add_restriction_unfold. simpl.
  split; [by rewrite length_resize|]. split; [apply same_graph_fold_step|].
  split; [done|]. intros u Hu.
  rewrite bucket_resize, decide_True by done. rewrite Hsort.
  apply bucket_fold_step. rewrite <-Hsort. apply sort_by_via_sorted.
Qed.


(** C7.  A [No] record whose via node is inside the column leaves one
    pair behind: the slot of its from-way and the slot of its to-way at
    the via node, appended to the list of the via node.  No other list,
    and nothing else in the routing blob, changes. *)
Theorem add_one_no (r : routing) (x : resolved_restriction) :
  type_ x = kNo →
  via_ x < length (node_restrictions_ r) →
  let r' := add_one r x in
  bucket (node_restrictions_ r') (via_ x)
  = bucket (node_restrictions_ r) (via_ x)
    ++ [mk_restriction
          (get_way_pos (node_ways_ r) (node_in_way_idx_ r) (via_ x) (from_ x))
          (get_way_pos (node_ways_ r) (node_in_way_idx_ r) (via_ x) (to_ x))] ∧
  (∀ u, u ≠ via_ x →
     bucket (node_restrictions_ r') u = bucket (node_restrictions_ r) u) ∧
  length (node_restrictions_ r') = length (node_restrictions_ r) ∧
  same_graph r r' ∧
  node_is_restricted_ r' = node_is_restricted_ r.
Proof.
  intros Hno Hvia. cbv zeta. rewrite add_one_pairs. unfold pairs_of. rewrite Hno.
  simpl. split_and!.
  - rewrite bucket_alter_app by done. by rewrite decide_True.
  - intros u Hu. rewrite bucket_alter_app by done.
    by rewrite decide_False, app_nil_r.
  - apply length_alter.
  - by repeat split.
  - done.
Qed.


(** C10.  The vector handed to [add_restriction] comes back as a
    permutation of itself sorted by ascending via node; the records are
    the caller's records, unchanged. *)
Theorem add_restriction_sorts (w : ways) (rs : list resolved_restriction) :
  Permutation rs (add_restriction w rs).1 ∧
  StronglySorted (λ a b, via_ a ≤ via_ b) (add_restriction w rs).1.
Proof.
  rewrite add_restriction_unfold. simpl.
  split; [apply sort_by_via_perm | apply sort_by_via_sorted].
Qed.


End RestrictionStore.

(** ** Graph construction *)

(** A loop that may be abandoned: an invariant of the elements handled so
    far and the state, kept by every iteration, holds at the end, and the
    loop is not abandoned. *)
Lemma for_each_res_inv {A S} (body : S → A → result S) (I : list A → S → Prop) xs s :
  I [] s →
  (∀ handled x s, I handled s → ∃ s', body s x = Ok s' ∧ I (handled ++ [x]) s') →
  ∃ s', for_each_res body xs s = Ok s' ∧ I xs s'.
Proof.
  intros Hstart Hstep.
  assert (∀ handled s, I handled s →
            ∃ s', for_each_res body xs s = Ok s' ∧ I (handled ++ xs) s') as Hgen.
  { clear s Hstart. induction xs as [|x xs IH]; intros handled s HI; simpl.
    - rewrite app_nil_r. eauto.
    - destruct (Hstep handled x s HI) as (s1 & -> & HI1). simpl.
      destruct (IH (handled ++ [x]) s1 HI1) as (s' & Hrun & HI').
      rewrite <-app_assoc in HI'. eauto. }
  apply (Hgen [] s Hstart).
Qed.

Module ConnectFacts.
Import Connect.

(** *** The internal nodes *)

Lemma elem_of_for_each_set_bit bits b :
  b ∈ for_each_set_bit bits ↔ test_bit bits b = true.
Proof.
  unfold for_each_set_bit. rewrite list_elem_of_filter, elem_of_seq. split; [tauto|].
  intros Hb. split; [done|]. unfold test_bit in Hb.
  destruct (bits !! b) eqn:Hl; [|done]. apply lookup_lt_Some in Hl. lia.
Qed.

Lemma filter_strongly_sorted {A} (R : relation A) (P : A → Prop)
    `{∀ x, Decision (P x)} (l : list A) :
  StronglySorted R l → StronglySorted R (filter P l).
Proof.
  induction 1 as [|x l Hl IH Hx]; [constructor|].
  rewrite filter_cons. case_decide; [|done].
  constructor; [done|]. apply Forall_forall. intros y [_ Hy]%list_elem_of_filter.
  rewrite Forall_forall in Hx. by apply Hx.
Qed.

Lemma seq_strongly_sorted j n : StronglySorted lt (seq j n).
Proof.
  revert j. induction n as [|n IH]; intros j; simpl; constructor; [apply IH|].
  apply Forall_forall. intros k Hk%elem_of_seq. lia.
Qed.

Lemma for_each_set_bit_sorted bits : StronglySorted lt (for_each_set_bit bits).
Proof. apply filter_strongly_sorted, seq_strongly_sorted. Qed.

Lemma create_nodes_eq multi node_to_osm :
  create_nodes multi node_to_osm
  = (node_to_osm ++ for_each_set_bit multi, length (for_each_set_bit multi)).
Proof.
  unfold create_nodes.
  assert (∀ (bits nto : list nat) (k : nat),
    fold_left (λ '(node_to_osm, node_idx) b_idx, (node_to_osm ++ [b_idx], S node_idx))
      bits (nto, k) = (nto ++ bits, k + length bits)) as Hfold.
  { induction bits as [|b bits IH]; intros nto k; simpl.
    - by rewrite app_nil_r, Nat.add_0_r.
    - rewrite IH, <-app_assoc. f_equal. lia. }
  apply Hfold.
Qed.

Lemma find_index_Some x l n : find_index x l = Some n → l !! n = Some x.
Proof.
  revert n. induction l as [|y l IH]; intros n; simpl; [done|].
  case_decide as Hxy; [by intros [= <-]; subst|].
  destruct (find_index x l) as [m|]; [|done]. intros [= <-]. by apply IH.
Qed.

Lemma find_index_elem x l : x ∈ l → is_Some (find_index x l).
Proof.
  induction 1 as [y l|y z l _ IH]; simpl.
  - by rewrite decide_True.
  - case_decide; [done|]. destruct IH as [m ->]. done.
Qed.

(** On a strictly increasing column the first hit is the only one. *)
Lemma find_index_sorted x l n :
  StronglySorted lt l → l !! n = Some x → find_index x l = Some n.
Proof.
  intros Hl. revert n. induction Hl as [|y l Hl IH Hy]; intros n; [done|].
  destruct n as [|n]; simpl.
  - intros [= ->]. by rewrite decide_True.
  - intros Hn. rewrite decide_False.
    + by rewrite (IH n Hn).
    + intros ->. rewrite Forall_forall in Hy.
      apply list_elem_of_lookup_2, Hy in Hn. lia.
Qed.


(** *** One way *)

Lemma occ_snoc n nodes to :
  occ n (nodes ++ [to])
  = occ n nodes ++ (if decide (n = to) then [length nodes] else []).
Proof.
  unfold occ. rewrite length_app. simpl. rewrite Nat.add_1_r, seq_S, filter_app.
  f_equal.
  - apply filter_ext_elem. intros k Hk%elem_of_seq.
    by rewrite lookup_app_l by lia.
  - simpl. rewrite filter_cons, filter_nil.
    rewrite list_lookup_middle by done.
    repeat case_decide; congruence.
Qed.

Lemma elem_of_occ n nodes k : k ∈ occ n nodes ↔ nodes !! k = Some n.
Proof.
  unfold occ. rewrite list_elem_of_filter, elem_of_seq. split; [tauto|].
  intros Hk. split; [done|]. apply lookup_lt_Some in Hk. lia.
Qed.

Lemma wraps_succ_wrap len :
  (Z.of_nat len mod 2 ^ 16 = 2 ^ 16 - 1)%Z → wraps (S len) = S (wraps len).
Proof.
  intros Hmod. unfold wraps. rewrite <-Z2Nat.inj_succ by (apply Z.div_pos; lia).
  f_equal. rewrite Nat2Z.inj_succ.
  pose proof (Z.div_mod (Z.of_nat len) (2 ^ 16)) as Hd.
  symmetry. apply (Z.div_unique (Z.succ (Z.of_nat len)) (2 ^ 16) _ 0); lia.
Qed.

Lemma wraps_succ_nowrap len :
  (Z.of_nat len mod 2 ^ 16 ≠ 2 ^ 16 - 1)%Z → wraps (S len) = wraps len.
Proof.
  intros Hmod. unfold wraps. f_equal. rewrite Nat2Z.inj_succ.
  pose proof (Z.div_mod (Z.of_nat len) (2 ^ 16)) as Hd.
  pose proof (Z.mod_pos_bound (Z.of_nat len) (2 ^ 16)) as Hu.
  symmetry.
  apply (Z.div_unique (Z.succ (Z.of_nat len)) (2 ^ 16) _
           (Z.succ (Z.of_nat len mod 2 ^ 16))); lia.
Qed.

Section Walk.
Context `{Geo}.
Variables (multi : list bool) (node_to_osm : list nat).
Variables (osm_way_idx way_idx : nat).
Variables (nw0 : list (list nat)) (niw0 : list (list Z)) (out0 : list diagnostic).
Hypothesis multi_found :
  ∀ x, test_bit multi x = true → is_Some (find_index x node_to_osm).
Hypothesis nw0_len : length nw0 = length node_to_osm.
Hypothesis niw0_len : length niw0 = length node_to_osm.

Lemma walk_inv_start :
  walk_inv multi node_to_osm osm_way_idx way_idx nw0 niw0 out0 []
    (mk_walk (Some point_default) None d_zero 0%Z [] [] nw0 niw0 out0).
Proof.
  split; simpl; try done; try (intros n); by rewrite ?app_nil_r.
Qed.

Lemma visit_node_inv xs x s :
  walk_inv multi node_to_osm osm_way_idx way_idx nw0 niw0 out0 xs s →
  ∃ s', visit_node multi node_to_osm osm_way_idx way_idx s x = Ok s'
        ∧ walk_inv multi node_to_osm osm_way_idx way_idx nw0 niw0 out0 (xs ++ [x]) s'.
Proof.
  intros [Hnodes Hdl Hd Hfrom Hi Hout Hnwl Hniwl Hnw Hniw].
  destruct x as [osm pos]. unfold visit_node, is_multi.
  assert (shared multi (xs ++ [(osm, pos)])
          = shared multi xs ++ (if test_bit multi osm then [osm] else [])) as Hshared.
  { unfold shared. rewrite fmap_app, filter_app. f_equal. simpl.
    rewrite filter_cons, filter_nil. destruct (test_bit multi osm); by case_decide. }
  destruct (test_bit multi osm) eqn:Hm.
  - destruct (multi_found osm Hm) as [to Hto]. unfold get_node_idx. rewrite Hto.
    simpl. eexists. split; [done|].
    assert (to < length node_to_osm) as Hlt
      by (by eapply lookup_lt_Some, find_index_Some).
    split; simpl.
    + rewrite Hshared. apply Forall2_app; [done|]. by repeat constructor.
    + rewrite length_app. simpl. destruct (from s) as [f|] eqn:Hf.
      * rewrite length_app. simpl.
        assert (nodes s ≠ []) as Hne by (apply last_is_Some; rewrite <-Hfrom; eauto).
        destruct (nodes s); [done|]. simpl in *. lia.
      * symmetry in Hfrom. apply last_None in Hfrom. rewrite Hfrom in *.
        simpl in *. lia.
    + destruct (from s); [|done]. apply Forall_app. split; [done|].
      apply Forall_singleton. eauto.
    + by rewrite last_snoc.
    + rewrite length_app. simpl. rewrite Hi. unfold wrap16.
      rewrite Z.add_mod_idemp_l by done. f_equal. lia.
    + rewrite length_app. simpl. rewrite Nat.add_1_r, Hout, Hi.
      case_bool_decide as Hwrap.
      * rewrite (wraps_succ_wrap _ Hwrap), <-app_assoc. f_equal.
        by rewrite replicate_S_end.
      * by rewrite (wraps_succ_nowrap _ Hwrap).
    + by rewrite length_alter.
    + by rewrite length_alter.
    + intros n. rewrite bucket_alter_app by lia. rewrite Hnw, occ_snoc, fmap_app.
      rewrite <-app_assoc. f_equal. f_equal. by case_decide.
    + intros n. rewrite bucket_alter_app by lia. rewrite Hniw, occ_snoc, fmap_app.
      rewrite <-app_assoc. f_equal. f_equal. rewrite Hi. by case_decide.
  - eexists. split; [done|]. split; simpl; try done.
    by rewrite Hshared, app_nil_r.
Qed.

Lemma walk_spec xs :
  ∃ s, for_each_res (visit_node multi node_to_osm osm_way_idx way_idx) xs
         (mk_walk (Some point_default) None d_zero 0%Z [] [] nw0 niw0 out0) = Ok s
       ∧ walk_inv multi node_to_osm osm_way_idx way_idx nw0 niw0 out0 xs s.
Proof.
  apply (for_each_res_inv _ (walk_inv multi node_to_osm osm_way_idx way_idx nw0 niw0 out0)); [apply walk_inv_start|].
  intros handled x s. apply visit_node_inv.
Qed.
End Walk.


(** *** All ways *)

Section Build.
Context `{Geo}.
Variables (multi : list bool) (node_to_osm : list nat).
Variables (wn0 : list (list nat)) (wd0 : list (list Z)) (out0 : list diagnostic).
Hypothesis multi_found :
  ∀ x, test_bit multi x = true → is_Some (find_index x node_to_osm).

Lemma build_inv_start :
  build_inv multi node_to_osm wn0 wd0 out0 []
    (mk_build wn0 wd0 (resize (length node_to_osm) [] [])
                  (resize (length node_to_osm) [] []) out0).
Proof.
  split; simpl.
  - exists []. by rewrite app_nil_r.
  - done.
  - by rewrite length_resize.
  - by rewrite length_resize.
  - intros n. rewrite !bucket_resize. unfold bucket. rewrite !lookup_nil. simpl.
    case_decide; constructor.
  - intros wy nodes n Hwy Hl. apply lookup_lt_Some in Hl. lia.
  - by rewrite app_nil_r.
Qed.

Lemma connect_way_inv handled x b :
  build_inv multi node_to_osm wn0 wd0 out0 handled b →
  ∃ b', connect_way multi node_to_osm b x = Ok b'
        ∧ build_inv multi node_to_osm wn0 wd0 out0 (handled ++ [x]) b'.
Proof.
  intros [(added & Hwn & Hadded) Hdists Hnwl Hniwl Hslots Hlisted Hout].
  destruct x as [osm_way_idx [osm_nodes polyline]]. unfold connect_way.
  destruct (walk_spec multi node_to_osm osm_way_idx (length (b_way_nodes b))
              (b_node_ways b) (b_node_in_way_idx b) (b_out b)
              multi_found Hnwl Hniwl (zip osm_nodes polyline))
    as (s & -> & [Hnodes Hdl Hd _ _ Hsout Hsnwl Hsniwl Hsnw Hsniw]).
  simpl. eexists. split; [done|]. split; simpl.
  - exists (added ++ [nodes s]). rewrite Hwn, <-app_assoc. split; [done|].
    apply Forall2_app; [done|]. by repeat constructor.
  - intros Hshape. apply Forall2_app; [by apply Hdists|]. by repeat constructor.
  - lia.
  - lia.
  - intros n. rewrite Hsnw, Hsniw. apply Forall2_app.
    + eapply Forall2_impl; [apply Hslots|].
      intros wy p (nodes & k & Hwy & Hk & ->). exists nodes, k.
      split; [by apply lookup_app_l_Some|done].
    + apply Forall2_fmap, Forall_Forall2_diag, Forall_forall.
      intros k Hk%elem_of_occ. exists (nodes s), k. simpl.
      split; [by apply list_lookup_middle|done].
  - intros wy nodes n Hwy Hl Hn. rewrite Hsnw.
    destruct (decide (wy = length (b_way_nodes b))) as [->|Hne].
    + rewrite list_lookup_middle in Hl by done. injection Hl as <-.
      apply elem_of_app. right.
      apply list_elem_of_lookup in Hn as [k Hk].
      apply list_elem_of_fmap. exists k. split; [done|]. by apply elem_of_occ.
    + apply elem_of_app. left. apply (Hlisted wy nodes n); [done| |done].
      apply lookup_lt_Some in Hl as Hlt. rewrite length_app in Hlt. simpl in Hlt.
      rewrite lookup_app_l in Hl by lia. done.
  - rewrite Hsout, Hout, bind_app, <-app_assoc. f_equal. f_equal. simpl.
    rewrite app_nil_r. f_equal. f_equal. symmetry. by eapply Forall2_length.
Qed.

Lemma build_spec xs :
  ∃ b, for_each_res (connect_way multi node_to_osm) xs
         (mk_build wn0 wd0 (resize (length node_to_osm) [] [])
            (resize (length node_to_osm) [] []) out0) = Ok b
       ∧ build_inv multi node_to_osm wn0 wd0 out0 xs b.
Proof.
  apply (for_each_res_inv _ (build_inv multi node_to_osm wn0 wd0 out0)); [apply build_inv_start|].
  intros handled x b. apply connect_way_inv.
Qed.
End Build.

End ConnectFacts.

Section ConnectStore.
Context `{Geo}.
Import Connect ConnectFacts.

Lemma multi_resolved (w : ways) x :
  test_bit (node_way_counter_multi_ w) x = true →
  is_Some (find_index x (nodes_created w)).
Proof.
  intros Hx. apply find_index_elem, elem_of_app. right.
  by apply elem_of_for_each_set_bit.
Qed.

(** [connect_ways] is never abandoned, and this is what it builds. *)
Lemma connect_ways_spec (w : ways) :
  ∃ b,
    connect_ways w
    = Ok (mk_ways
            (mk_routing (way_properties_ (r_ w)) (b_way_nodes b) (b_way_node_dist b)
               (node_ways_ (r_ w) ++ b_node_ways b)
               (node_in_way_idx_ (r_ w) ++ b_node_in_way_idx b)
               (resize (length (for_each_set_bit (node_way_counter_multi_ w))) false
                  (node_is_restricted_ (r_ w)))
               (node_restrictions_ (r_ w)) (way_component_ (r_ w)))
            (nodes_created w) (way_osm_idx_ w) (way_polylines_ w) (way_osm_nodes_ w)
            (strings_ w) (way_has_conditional_access_no_ w)
            (way_conditional_access_no_ w) (node_way_counter_multi_ w) (b_out b))
    ∧ build_inv (node_way_counter_multi_ w) (nodes_created w)
        (way_nodes_ (r_ w)) (way_node_dist_ (r_ w)) (printed_ w) (inputs w) b.
Proof.
  unfold connect_ways. rewrite create_nodes_eq.
  destruct (build_spec (node_way_counter_multi_ w) (nodes_created w)
              (way_nodes_ (r_ w)) (way_node_dist_ (r_ w)) (printed_ w)
              (multi_resolved w) (inputs w)) as (b & Hrun & Hinv).
  exists b. split; [|done]. unfold nodes_created, inputs in Hrun.
  by rewrite Hrun.
Qed.

Lemma wrap16_range z : (0 ≤ wrap16 z < 2 ^ 16)%Z.
Proof. unfold wrap16. apply Z.mod_pos_bound. lia. Qed.



Lemma counter_ok_b_sound (w : ways) : counter_ok_b w = true → counter_ok w.
Proof.
  unfold counter_ok_b, counter_ok. rewrite forallb_forall. intros Hall x.
  destruct (decide (x ∈ seq 0 (length (node_way_counter_multi_ w))
                        ++ mjoin (way_osm_nodes_ w))) as [Hx|Hx].
  - apply list_elem_of_In, Hall in Hx. by apply bool_decide_eq_true in Hx.
  - rewrite elem_of_app, elem_of_seq, list_elem_of_join in Hx.
    assert (test_bit (node_way_counter_multi_ w) x = false) as ->.
    { unfold test_bit. rewrite lookup_ge_None_2; [done|]. lia. }
    assert (ref_count w x = 0) as ->; [|split; [done|lia]].
    unfold ref_count. apply length_zero_iff_nil, filter_none.
    intros nodes Hnodes Hxn. apply Hx. right. eauto.
Qed.


Lemma strongly_sorted_lookup_lt (l : list nat) n m x y :
  StronglySorted lt l → n < m → l !! n = Some x → l !! m = Some y → x < y.
Proof.
  intros Hl. revert n m. induction Hl as [|a l Hl IH Ha]; intros n m Hnm Hn Hm; [done|].
  destruct m as [|m]; [lia|]. destruct n as [|n]; simpl in *.
  - injection Hn as <-. rewrite Forall_forall in Ha.
    by apply list_elem_of_lookup_2, Ha in Hm.
  - apply (IH n m); [lia|done..].
Qed.

(** C5.  On a store without internal nodes, whose multiplicity bit-set
    marks the external ids referenced by two or more ways, [connect_ways]
    completes; afterwards an external id referenced by two or more ways
    is the image of exactly one internal node, an external id referenced
    by one way is the image of none, and [node_to_osm] is strictly
    increasing. *)
Theorem connect_ways_nodes (w : ways) :
  node_to_osm_ w = [] →
  counter_ok w →
  ∃ w', connect_ways w = Ok w' ∧
    (∀ x, 2 ≤ ref_count w x →
       ∃ n, node_to_osm_ w' !! n = Some x ∧
            ∀ m, node_to_osm_ w' !! m = Some x → m = n) ∧
    (∀ x, ref_count w x = 1 → ∀ n, node_to_osm_ w' !! n ≠ Some x) ∧
    (∀ n m x y, n < m → node_to_osm_ w' !! n = Some x →
       node_to_osm_ w' !! m = Some y → x < y).
Proof.
  intros Hfresh Hcounter.
  destruct (connect_ways_spec w) as (b & -> & _).
  eexists. split; [done|]. simpl. unfold nodes_created. rewrite Hfresh. simpl.
  pose proof (for_each_set_bit_sorted (node_way_counter_multi_ w)) as Hsorted.
  assert (∀ n m x y, n < m →
            for_each_set_bit (node_way_counter_multi_ w) !! n = Some x →
            for_each_set_bit (node_way_counter_multi_ w) !! m = Some y → x < y) as Hinc
    by (intros n m x y; by apply strongly_sorted_lookup_lt).
  split_and!; [| |done].
  - intros x Hx. apply Hcounter, elem_of_for_each_set_bit in Hx.
    apply list_elem_of_lookup in Hx as [n Hn]. exists n. split; [done|].
    intros m Hm. destruct (Nat.lt_trichotomy m n) as [Hlt|[->|Hlt]]; [|done|].
    + pose proof (Hinc m n x x Hlt Hm Hn). lia.
    + pose proof (Hinc n m x x Hlt Hn Hm). lia.
  - intros x Hx n Hn. apply list_elem_of_lookup_2 in Hn.
    apply elem_of_for_each_set_bit, Hcounter in Hn. lia.
Qed.

Lemma wraps_over m : (2 ^ 16 ≤ Z.of_nat m)%Z → 1 ≤ wraps m.
Proof.
  intros Hm. unfold wraps.
  assert (1 ≤ Z.of_nat m / 2 ^ 16)%Z; [|lia].
  apply Z.div_le_lower_bound; lia.
Qed.


End ConnectStore.

(** ** Conditional access lookup *)

Module AccessFacts.
Import Access.

Lemma sorted_keys (l : list (nat * nat)) i j a b :
  StronglySorted key_le l → i ≤ j → l !! i = Some a → l !! j = Some b → a.1 ≤ b.1.
Proof.
  intros Hl. revert i j. induction Hl as [|c l Hl IH Hc]; intros i j Hij Hi Hj; [done|].
  destruct i as [|i], j as [|j]; simpl in *; simplify_eq; [done| |lia|].
  - rewrite Forall_forall in Hc. by apply list_elem_of_lookup_2, Hc in Hj.
  - apply (IH i j); [lia|done..].
Qed.

Section LowerBound.
Variables (l : list (nat * nat)) (way : nat).
Hypothesis l_sorted : StronglySorted key_le l.

Lemma lower_bound_loop_splits fuel first len :
  len ≤ fuel → first + len ≤ length l →
  (∀ j a, j < first → l !! j = Some a → a.1 < way) →
  (∀ j a, first + len ≤ j → l !! j = Some a → way ≤ a.1) →
  splits l way (lower_bound_loop fuel l way first len).
Proof.
  revert first len. induction fuel as [|fuel IH]; intros first len Hfuel Hlen Hlo Hhi.
  { simpl. assert (len = 0) as -> by lia. rewrite Nat.add_0_r in *. by split. }
  cbn [lower_bound_loop]. case_decide as Hz.
  { subst len. rewrite Nat.add_0_r in *. by split. }
  pose proof (Nat.div_lt len 2 ltac:(lia) ltac:(lia)) as Hhalf.
  destruct (lookup_lt_is_Some_2 l (first + len / 2)) as [a Ha]; [lia|].
  rewrite Ha. case_bool_decide as Hcmp.
  - apply IH; [lia|lia| |].
    + intros j b Hj Hb.
      pose proof (sorted_keys l j (first + len / 2) b a l_sorted ltac:(lia) Hb Ha).
      lia.
    + intros j b Hj. apply Hhi. lia.
  - apply IH; [lia|lia|done|].
    intros j b Hj Hb.
    pose proof (sorted_keys l (first + len / 2) j a b l_sorted ltac:(lia) Ha Hb).
    lia.
Qed.

Lemma lower_bound_splits : splits l way (lower_bound l way).
Proof.
  apply lower_bound_loop_splits; [done|done|lia|].
  intros j a Hj Ha. apply lookup_lt_Some in Ha. simpl in Hj. lia.
Qed.

(** A key that is present is found, at its first position. *)
Lemma lower_bound_finds j idx :
  l !! j = Some (way, idx) →
  ∃ idx', l !! lower_bound l way = Some (way, idx') ∧ lower_bound l way ≤ j.
Proof.
  intros Hj. destruct lower_bound_splits as (Hlen & Hlo & Hhi).
  assert (lower_bound l way ≤ j) as Hle.
  { destruct (decide (lower_bound l way ≤ j)); [done|].
    pose proof (Hlo j (way, idx) ltac:(lia) Hj). simpl in *. lia. }
  destruct (lookup_lt_is_Some_2 l (lower_bound l way)) as [[k idx'] Hres].
  { apply lookup_lt_Some in Hj. lia. }
  pose proof (Hhi _ _ (le_n _) Hres) as H1.
  pose proof (sorted_keys l _ j _ _ l_sorted Hle Hres Hj) as H2.
  simpl in *. assert (k = way) as -> by lia. eauto.
Qed.
End LowerBound.

End AccessFacts.

Section AccessStore.
Context `{Geo}.
Import Access AccessFacts.

(** C8.  [get_access_restriction] returns the empty result exactly when
    the presence bit of the way is unset.  With the bit set and no entry
    for the way in the association column, the call is abandoned by
    [utl::verify] with a message that ends in the external id of the way.
    With the bit set and an entry for the way in the sorted column, it
    returns the string of the first such entry. *)
Theorem get_access_restriction_cases (w : ways) (way : nat) :
  (get_access_restriction w way = Ok None
   ↔ test_bit (way_has_conditional_access_no_ w) way = false) ∧
  (test_bit (way_has_conditional_access_no_ w) way = true →
   (∀ a, a ∈ way_conditional_access_no_ w → a.1 ≠ way) →
   ∀ id, way_osm_idx_ w !! way = Some id →
     get_access_restriction w way
     = Aborted (verify_failed
         ("access restriction for way with access restriction not found way="
          ++ NilEmpty.string_of_uint (Nat.to_uint id)))) ∧
  (test_bit (way_has_conditional_access_no_ w) way = true →
   StronglySorted (λ a b, a.1 ≤ b.1) (way_conditional_access_no_ w) →
   ∀ j idx, way_conditional_access_no_ w !! j = Some (way, idx) →
     ∃ i idx', i ≤ j ∧ way_conditional_access_no_ w !! i = Some (way, idx') ∧
       (∀ k a, k < i → way_conditional_access_no_ w !! k = Some a → a.1 < way) ∧
       get_access_restriction w way
       = Ok (Some (default EmptyString (strings_ w !! idx')))).
Proof.
  unfold get_access_restriction. split_and!.
  - destruct (test_bit _ way); simpl; [|done]. split; [|done].
    destruct (_ !! lower_bound _ _) as [a|]; [|done]. by case_bool_decide.
  - intros -> Hnone id Hid. simpl. rewrite Hid. simpl.
    destruct (_ !! lower_bound _ _) as [a|] eqn:Ha; [|done].
    rewrite bool_decide_eq_false_2; [done|].
    apply list_elem_of_lookup_2 in Ha. by apply Hnone.
  - intros -> Hsorted j idx Hj. simpl.
    destruct (lower_bound_finds _ way Hsorted j idx Hj) as (idx' & Hres & Hle).
    destruct (lower_bound_splits (way_conditional_access_no_ w) way Hsorted)
      as (_ & Hlo & _).
    exists (lower_bound (way_conditional_access_no_ w) way), idx'.
    rewrite Hres. simpl. rewrite bool_decide_eq_true_2 by done. eauto.
Qed.

End AccessStore.

(** ** The builder feeds the labeller *)

Section Pipeline.
Context `{Geo}.
Import Components ComponentFacts Connect ConnectFacts.

(** The adjacency [connect_ways] builds from scratch is consistent: the
    premise of the component theorem holds for every store the builder
    produces. *)
Theorem connect_ways_consistent (w : ways) :
  way_nodes_ (r_ w) = [] →
  node_ways_ (r_ w) = [] →
  node_in_way_idx_ (r_ w) = [] →
  ∃ w', connect_ways w = Ok w' ∧ n_ways w' = n_ways w ∧
        consistent (n_ways w') (r_ w').
Proof.
  intros Hwn Hnw Hniw.
  destruct (connect_ways_spec w)
    as (b & -> & [(added & Hb & Hadded) _ _ _ Hslots Hlisted _]).
  eexists. split; [done|]. split; [done|].
  rewrite Hwn in Hb, Hlisted. simpl in Hb. subst added.
  apply Forall2_length in Hadded as Hlen.
  unfold n_ways. simpl. rewrite Hnw. simpl. split.
  - intros wy nd (nodes & Hwy & _)%elem_of_bucket.
    apply lookup_lt_Some in Hwy. unfold inputs in Hlen.
    rewrite length_zip_with in Hlen. simpl in Hwy. lia.
  - intros wy nd (nodes & Hwy & Hnd)%elem_of_bucket.
    simpl in Hwy. apply (Hlisted wy nodes nd); [simpl; lia|done..].
  - intros nd wy Hwy. apply list_elem_of_lookup in Hwy as [j Hj].
    destruct (Forall2_lookup_l _ _ _ _ _ (Hslots nd) Hj)
      as (p & _ & nodes & k & Hnodes & Hk & _).
    apply elem_of_bucket. exists nodes. split; [done|].
    by eapply list_elem_of_lookup_2.
Qed.

End Pipeline.

(** ** Indices in range *)

Lemma in_range_b_sound n r : in_range_b n r = true → in_range n r.
Proof.
  unfold in_range_b. rewrite !andb_true_iff, bool_decide_eq_true.
  intros [[Hlen Hw] Hn].
  rewrite forallb_forall in Hw. rewrite forallb_forall in Hn.
  split; [done|]. split.
  - intros w nd (b & Hb & Hnd)%elem_of_bucket.
    apply list_elem_of_lookup_2, list_elem_of_In, Hw in Hb.
    rewrite forallb_forall in Hb. by apply list_elem_of_In, Hb, bool_decide_eq_true in Hnd.
  - intros nd w (b & Hb & Hnd)%elem_of_bucket.
    apply list_elem_of_lookup_2, list_elem_of_In, Hn in Hb.
    rewrite forallb_forall in Hb. by apply list_elem_of_In, Hb, bool_decide_eq_true in Hnd.
Qed.

(** ** One pass of the major-road propagation, and two *)

Module PassFacts.
Import BigStreet BigStreetFacts Components.

Lemma test_bit_snapshot n ps i :
  i < n → test_bit (snapshot n ps) i = default false (is_big_street <$> ps !! i).
Proof.
  intros Hi. unfold test_bit, snapshot.
  destruct (decide (i < length ps)) as [Hlt|Hge].
  - rewrite lookup_resize by (rewrite ?length_fmap; lia).
    by rewrite list_lookup_fmap.
  - rewrite lookup_resize_new by (rewrite ?length_fmap; lia).
    by rewrite lookup_ge_None_2 by lia.
Qed.

(** On consistent adjacency columns the ways [expand] inspects from [x]
    are the ways that share a node with [x]. *)
Lemma near_major_touches n r orig x :
  consistent n r →
  near_major r orig x = true ↔ ∃ b, touches r x b ∧ test_bit orig b = true.
Proof.
  intros Hcons. split.
  - intros (nd & b & Hnd & Hb & Hbit)%near_major_true. exists b. split; [|done].
    exists nd. split; [done|]. by eapply node_listed.
  - intros (b & (nd & Hx & Hb) & Hbit).
    apply existsb_exists. exists nd. split; [by apply list_elem_of_In|].
    apply existsb_exists. exists b. split; [|done].
    apply list_elem_of_In. by eapply way_listed.
Qed.

(** The flags after the units [ixs] of the loop. *)
Lemma lookup_for_each_visit fuel r orig ixs ps :
  2 ≤ fuel →
  ∃ ps', for_each_opt (visit fuel r orig) ixs ps = Some ps' ∧
    length ps' = length ps ∧
    ∀ j, ps' !! j
         = if bool_decide (j ∈ ixs) && (negb (test_bit orig j) && near_major r orig j)
           then set_big_street <$> ps !! j else ps !! j.
Proof.
  intros Hfuel. rewrite for_each_visit by done. eexists. split; [done|]. split.
  - clear. revert ps. induction ixs as [|i ixs IH]; intros ps; simpl; [done|].
    rewrite IH. destruct (_ && _); [apply length_alter|done].
  - intros j.
    apply (lookup_fold_alter (λ i, negb (test_bit orig i) && near_major r orig i)).
Qed.

End PassFacts.

Section PassStore.
Context `{Geo}.
Import BigStreet BigStreetFacts Components PassFacts.

(** The pass as a whole, on a store with one property record per way and
    consistent adjacency. *)
Lemma compute_big_street_neighbors_pass fuel (w : ways) :
  2 ≤ fuel →
  consistent (n_ways w) (r_ w) →
  length (way_properties_ (r_ w)) = n_ways w →
  ∃ ps, compute_big_street_neighbors fuel w
        = Some (with_routing w (with_way_properties (r_ w) ps)) ∧
    length ps = n_ways w ∧
    other_properties_ <$> ps = other_properties_ <$> way_properties_ (r_ w) ∧
    ∀ i, major (with_way_properties (r_ w) ps) i = true ↔
         major (r_ w) i = true ∨ ∃ b, touches (r_ w) i b ∧ major (r_ w) b = true.
Proof.
  intros Hfuel Hcons Hlen. unfold compute_big_street_neighbors.
  destruct (lookup_for_each_visit fuel (r_ w)
              (snapshot (n_ways w) (way_properties_ (r_ w)))
              (seq 0 (n_ways w)) (way_properties_ (r_ w)) Hfuel)
    as (ps & -> & Hlen' & Hps).
  exists ps. split; [done|]. split; [congruence|].
  assert (∀ b, b < n_ways w →
            test_bit (snapshot (n_ways w) (way_properties_ (r_ w))) b = major (r_ w) b)
    as Hsnap by (intros b Hb; by apply test_bit_snapshot).
  split.
  - apply list_eq. intros j. rewrite !list_lookup_fmap, Hps.
    destruct (_ && _); [|done]. by destruct (way_properties_ (r_ w) !! j).
  - intros i. unfold major at 1. simpl. rewrite Hps.
    destruct (decide (i < n_ways w)) as [Hi|Hi].
    + rewrite bool_decide_eq_true_2 by (apply elem_of_seq; lia). simpl.
      rewrite (Hsnap i Hi).
      destruct (lookup_lt_is_Some_2 (way_properties_ (r_ w)) i) as [p Hp]; [lia|].
      assert (major (r_ w) i = is_big_street p) as Hm by (unfold major; by rewrite Hp).
      rewrite Hm, Hp.
      destruct (is_big_street p) eqn:Hbig; simpl.
      * rewrite Hbig. tauto.
      * destruct (near_major _ _ i) eqn:Hnm; simpl.
        -- split; [intros _; right|done].
           apply (near_major_touches (n_ways w)) in Hnm as (b & Hb & Hbit); [|done].
           exists b. split; [done|]. rewrite <-Hsnap; [done|].
           destruct Hb as (nd & _ & Hnd). by eapply way_in_range.
        -- rewrite Hbig. split; [done|]. intros [?|(b & Hb & Hbit)]; [done|].
           apply not_true_iff_false in Hnm. destruct Hnm.
           apply (near_major_touches (n_ways w)); [done|]. exists b. split; [done|].
           rewrite Hsnap; [done|]. destruct Hb as (nd & _ & Hnd). by eapply way_in_range.
    + rewrite bool_decide_eq_false_2 by (rewrite elem_of_seq; lia). simpl.
      rewrite lookup_ge_None_2 by lia. simpl.
      assert (major (r_ w) i = false) as Hm
        by (unfold major; by rewrite lookup_ge_None_2 by lia).
      rewrite Hm. split; [done|]. intros [?|(b & (nd & Hi' & _) & _)]; [done|].
      destruct Hi. by eapply way_in_range.
Qed.

(** X6.  One pass flags exactly the ways that share a node with a way that
    was major when the pass began, on top of the ways that were major
    themselves; it ends with two levels of fuel and touches nothing but the
    flags. *)
Theorem compute_big_street_neighbors_touching fuel (w : ways) :
  2 ≤ fuel →
  consistent (n_ways w) (r_ w) →
  length (way_properties_ (r_ w)) = n_ways w →
  ∃ ps, compute_big_street_neighbors fuel w
        = Some (with_routing w (with_way_properties (r_ w) ps)) ∧
    other_properties_ <$> ps = other_properties_ <$> way_properties_ (r_ w) ∧
    ∀ i, major (with_way_properties (r_ w) ps) i = true ↔
         major (r_ w) i = true ∨ ∃ b, touches (r_ w) i b ∧ major (r_ w) b = true.
Proof.
  intros Hfuel Hcons Hlen.
  destruct (compute_big_street_neighbors_pass fuel w Hfuel Hcons Hlen)
    as (ps & Hrun & _ & Hother & Hflags).
  exists ps. by split_and!.
Qed.

(** X7.  Each pass carries the flag one hop further: after two passes the
    major ways are the ways within two hops of a way that was major at the
    start. *)
Theorem compute_big_street_neighbors_twice fuel1 fuel2 (w : ways) :
  2 ≤ fuel1 → 2 ≤ fuel2 →
  consistent (n_ways w) (r_ w) →
  length (way_properties_ (r_ w)) = n_ways w →
  ∃ w1 w2, compute_big_street_neighbors fuel1 w = Some w1 ∧
           compute_big_street_neighbors fuel2 w1 = Some w2 ∧
    ∀ i, major (r_ w2) i = true ↔
         major (r_ w) i = true ∨
         (∃ b, touches (r_ w) i b ∧ major (r_ w) b = true) ∨
         (∃ b c, touches (r_ w) i b ∧ touches (r_ w) b c ∧ major (r_ w) c = true).
Proof.
  intros Hf1 Hf2 Hcons Hlen.
  destruct (compute_big_street_neighbors_pass fuel1 w Hf1 Hcons Hlen)
    as (ps1 & Hrun1 & Hlen1 & _ & Hflags1).
  set (w1 := with_routing w (with_way_properties (r_ w) ps1)) in *.
  assert (consistent (n_ways w1) (r_ w1)) as Hcons1 by (by destruct Hcons).
  destruct (compute_big_street_neighbors_pass fuel2 w1 Hf2 Hcons1 Hlen1)
    as (ps2 & Hrun2 & _ & _ & Hflags2).
  eexists _, _. split; [done|]. split; [done|].
  intros i.
  change (r_ (with_routing w1 (with_way_properties (r_ w1) ps2)))
    with (with_way_properties (r_ w1) ps2).
  rewrite Hflags2.
  change (r_ w1) with (with_way_properties (r_ w) ps1) in *.
  rewrite Hflags1.
  assert (∀ a b, touches (with_way_properties (r_ w) ps1) a b ↔ touches (r_ w) a b)
    as Htouch by done.
  split.
  - intros [[?|?]|(b & Hb & Hmb)]; [by left|by right; left|].
    apply Htouch in Hb. apply Hflags1 in Hmb as [?|(c & Hc & ?)].
    + right; left. eauto.
    + right; right. eauto.
  - intros [?|[(b & Hb & Hm)|(b & c & Hb & Hc & Hm)]]; [by left; left| |].
    + left; right. eauto.
    + right. exists b. split; [by apply Htouch|]. apply Hflags1. right. eauto.
Qed.

(** X8.  The units of the parallel loop commute: every order in which the
    indices are handed out ends, and ends in the same flags. *)
Theorem big_street_units_any_order fuel (r : routing) (orig : list bool)
    (ixs ixs' : list nat) (ps : list way_properties) :
  2 ≤ fuel → Permutation ixs ixs' →
  ∃ ps', for_each_opt (visit fuel r orig) ixs ps = Some ps' ∧
         for_each_opt (visit fuel r orig) ixs' ps = Some ps'.
Proof.
  intros Hfuel Hperm.
  destruct (lookup_for_each_visit fuel r orig ixs ps Hfuel) as (ps1 & -> & _ & H1).
  destruct (lookup_for_each_visit fuel r orig ixs' ps Hfuel) as (ps2 & -> & _ & H2).
  exists ps1. split; [done|]. f_equal. apply list_eq. intros j.
  rewrite H1, H2.
  assert (bool_decide (j ∈ ixs) = bool_decide (j ∈ ixs')) as ->; [|done].
  apply bool_decide_ext. by rewrite Hperm.
Qed.

End PassStore.

(** ** The numbering of the components *)

Module NumberingFacts.
Import Components ComponentFacts Numbering.

Lemma filled_refl k wc : filled k wc wc.
Proof. split; [done|]. by left. Qed.

Lemma filled_trans k wc1 wc2 wc3 : filled k wc1 wc2 → filled k wc2 wc3 → filled k wc1 wc3.
Proof.
  intros [Hl1 H1] [Hl2 H2]. split; [congruence|]. intros w.
  destruct (H1 w) as [E1|[E1 E1']], (H2 w) as [E2|[E2 E2']]; try (left; congruence);
    right; split; congruence.
Qed.

Section Fill.
Context `{HashOrder}.
Variables (r : routing) (k : component_idx_t).
Hypothesis k_valid : k ≠ invalid.

(** One round of the work-set loop, on any adjacency. *)
Lemma spread_filled next wc q :
  let s := spread r k next (wc, q) in
  filled k wc s.1 ∧ count_invalid s.1 + size s.2 ≤ count_invalid wc + size q.
Proof.
  cbv zeta. rewrite spread_neighbours.
  destruct (fold_claim_way k k_valid
              (bucket (way_nodes_ r) next ≫= bucket (node_ways_ r)) wc q)
    as (Hlen & Hwc & _ & Hm).
  split; [|done]. split; [done|]. intros w. rewrite Hwc.
  case_bool_decide as Hc; [right; by destruct Hc|by left].
Qed.

(** The flood fill ends on every adjacency, and only fills. *)
Lemma flood_loop_filled fuel wc q :
  count_invalid wc + size q < fuel →
  ∃ wc', flood_loop fuel r k wc q = Some wc' ∧ filled k wc wc'.
Proof.
  revert wc q. induction fuel as [|fuel IH]; intros wc q Hfuel; [lia|].
  simpl. destruct (decide (q = ∅)) as [->|Hq]; [eauto using filled_refl|].
  pose proof (hash_begin_elem q Hq) as Hnext.
  destruct (spread_filled (hash_begin q) wc (q ∖ {[hash_begin q]})) as [Hfill Hm].
  cbv zeta in *.
  destruct (spread r k (hash_begin q) (wc, q ∖ {[hash_begin q]})) as [wc1 q1].
  simpl in *.
  assert (S (size (q ∖ {[hash_begin q]})) = size q) as Hsize.
  { rewrite size_difference by set_solver. rewrite size_singleton.
    assert (size q ≠ 0) by (by intros ?%size_empty_inv%leibniz_equiv). lia. }
  destruct (IH wc1 q1) as (wc' & -> & Hfill'); [lia|].
  exists wc'. split; [done|]. by eapply filled_trans.
Qed.
End Fill.

Section Label.
Context `{HashOrder}.
Variables (r : routing) (n : nat).
Hypothesis n_small : (Z.of_nat n ≤ invalid)%Z.

(** One way of the outer loop, on any adjacency: a way that has a
    component is skipped; otherwise it takes the next id and the fill
    hands that id to ways without component. *)
Lemma label_way_filled fuel i wc k :
  length wc = n → i < n → n < fuel → (0 ≤ k ≤ Z.of_nat i)%Z →
  ∃ wc' k', label_way fuel r (wc, k) i = Some (wc', k') ∧
    ((wc !! i ≠ Some invalid ∧ wc' = wc ∧ k' = k) ∨
     (wc !! i = Some invalid ∧ k' = (k + 1)%Z ∧ wc' !! i = Some k ∧ filled k wc wc')).
Proof.
  intros Hlen Hi Hfuel Hk. unfold label_way.
  destruct (lookup_lt_is_Some_2 wc i) as [c Hc]; [lia|]. rewrite Hc.
  case_bool_decide as Hcv.
  { exists wc, k. split; [done|]. left. split; [congruence|done]. }
  subst c.
  assert (k ≠ invalid) as Hkv by (unfold invalid in *; lia).
  assert (incr k = (k + 1)%Z) as Hincr.
  { unfold incr. apply Z.mod_small. unfold invalid in *. lia. }
  unfold flood_fill.
  destruct (flood_loop_filled r k Hkv fuel (<[i := k]> wc) ({[i]} ∪ ∅))
    as (wc' & -> & [Hlen' Hfill]).
  { pose proof (count_invalid_insert wc i k Hc Hkv).
    pose proof (count_invalid_le wc).
    assert (size ({[i]} ∪ (∅ : gset nat)) = 1) as ->.
    { rewrite (right_id_L ∅ (∪)). apply size_singleton. }
    lia. }
  exists wc', (incr k). split; [done|]. right. rewrite Hincr.
  rewrite length_insert in Hlen'.
  assert (wc' !! i = Some k) as Hseed.
  { destruct (Hfill i) as [->|[_ ?]]; [|done]. apply list_lookup_insert_eq. lia. }
  split_and!; [done|done|done|]. split; [done|].
  intros w. destruct (decide (w = i)) as [->|Hne]; [by right|].
  destruct (Hfill w) as [Hw|[Hw Hw']]; rewrite list_lookup_insert_ne in Hw by done;
    [by left|by right].
Qed.

Lemma filled_keeps k wc wc' wc0 :
  filled k wc wc' → keeps_labels wc0 wc → keeps_labels wc0 wc'.
Proof.
  intros [_ Hfill] Hkeep a c Ha Hc. specialize (Hkeep a c Ha Hc).
  destruct (Hfill a) as [->|[? _]]; [done|congruence].
Qed.

Lemma keeps_labels_refl wc : keeps_labels wc wc.
Proof. by intros a c Ha Hc. Qed.

Lemma keeps_labels_trans wc1 wc2 wc3 :
  keeps_labels wc1 wc2 → keeps_labels wc2 wc3 → keeps_labels wc1 wc3.
Proof. intros H12 H23 a c Ha Hc. apply H23; [|done]. by apply H12. Qed.

(** The loop over the ways ends on any adjacency, leaves the labels
    that were in the column alone and labels the ways it looks at. *)
Lemma for_each_label_keeps fuel len i wc k :
  length wc = n → i + len = n → n < fuel → (0 ≤ k ≤ Z.of_nat i)%Z →
  ∃ wc' k', for_each_opt (label_way fuel r) (seq i len) (wc, k) = Some (wc', k') ∧
    length wc' = n ∧ keeps_labels wc wc' ∧
    (∀ a, i ≤ a < n → ∃ c, wc' !! a = Some c ∧ c ≠ invalid).
Proof.
  revert i wc k. induction len as [|len IH]; intros i wc k Hlen Hil Hfuel Hk;
    cbn [seq for_each_opt].
  - exists wc, k. split_and!; [done|done|apply keeps_labels_refl|]. intros a Ha. lia.
  - destruct (label_way_filled fuel i wc k) as (wc1 & k1 & -> & Hcase); [done|lia|done..|].
    assert (length wc1 = n ∧ (0 ≤ k1 ≤ Z.of_nat (S i))%Z ∧ keeps_labels wc wc1 ∧
            ∃ c, wc1 !! i = Some c ∧ c ≠ invalid) as (Hlen1 & Hk1 & Hkeep1 & Hi1).
    { destruct Hcase as [(Hc & -> & ->)|(Hc & -> & Hseed & Hfill)].
      - refine (conj Hlen (conj _ (conj (keeps_labels_refl wc) _))); [lia|].
        destruct (lookup_lt_is_Some_2 wc i) as [c Hci]; [lia|].
        exists c. split; [done|]. congruence.
      - refine (conj _ (conj _ (conj _ _))); [destruct Hfill; congruence|lia| |].
        + eapply filled_keeps; [done|]. apply keeps_labels_refl.
        + exists k. split; [done|]. unfold invalid in *. lia. }
    destruct (IH (S i) wc1 k1) as (wc' & k' & -> & Hlen' & Hkeep' & Hdone');
      [done|lia|done|done|].
    exists wc', k'. split_and!; [done|done|by eapply keeps_labels_trans|].
    intros a Ha. destruct (decide (a = i)) as [->|Hne]; [|apply Hdone'; lia].
    destruct Hi1 as (c & Hci & Hcv). exists c. split; [|done]. by apply Hkeep'.
Qed.
End Label.

Section Order.
Context `{HashOrder}.
Variables (r : routing) (n : nat).
Hypothesis Hcons : consistent n r.
Hypothesis n_small : (Z.of_nat n ≤ invalid)%Z.

Lemma label_way_order fuel i wc k :
  label_inv r n i wc k → label_order i wc k → i < n → n < fuel →
  ∃ wc' k', label_way fuel r (wc, k) i = Some (wc', k') ∧
            label_inv r n (S i) wc' k' ∧ label_order (S i) wc' k'.
Proof.
  intros Hinv [Hused Hfirst] Hi Hfuel.
  destruct (label_way_spec r n Hcons n_small fuel i wc k Hinv Hi Hfuel)
    as (wc' & k' & Hrun & Hinv').
  exists wc', k'. split; [done|]. split; [done|].
  destruct Hinv as [Hlen Hnext Hrange Hdone _ _].
  destruct (label_way_filled r n n_small fuel i wc k Hlen Hi Hfuel Hnext)
    as (wc1 & k1 & Hrun1 & Hcase).
  rewrite Hrun in Hrun1. injection Hrun1 as <- <-.
  destruct Hcase as [(_ & -> & ->)|(Hinval & -> & Hseed & [_ Hfill])].
  { split; [|done]. intros c Hc. destruct (Hused c Hc) as (b & ? & ?).
    exists b. split; [lia|done]. }
  assert (∀ b c, wc !! b = Some c → c ≠ invalid → wc' !! b = Some c) as Hstay.
  { intros b c Hb Hcv. destruct (Hfill b) as [->|[? _]]; [done|congruence]. }
  assert (∀ c, (0 ≤ c < k)%Z → c ≠ invalid) as Hvalid.
  { intros c Hc. unfold invalid in *. lia. }
  split.
  - intros c Hck. destruct (decide (c = k)) as [->|Hne]; [exists i; split; [lia|done]|].
    destruct (Hused c) as (b & Hb & Hbc); [lia|].
    exists b. split; [lia|]. apply Hstay; [done|]. apply Hvalid. lia.
  - intros a c Ha Hcv. destruct (Hfill a) as [Hold|[Hold Hnew]].
    + rewrite Ha in Hold. symmetry in Hold.
      destruct (Hfirst a c Hold Hcv) as [Hb Hsm]. split; [done|].
      intros c' Hc'. destruct (Hsm c' Hc') as (b & Hba & Hbc).
      exists b. split; [done|]. apply Hstay; [done|].
      apply Hvalid. pose proof (Hrange a c Hold Hcv). lia.
    + assert (c = k) as -> by congruence.
      assert (i ≤ a) as Hia.
      { destruct (decide (i ≤ a)); [done|].
        destruct (Hdone a) as (c0 & ? & ?); [lia|]. congruence. }
      split; [lia|]. intros c' Hc'.
      destruct (Hused c' Hc') as (b & Hb & Hbc).
      exists b. split; [lia|]. apply Hstay; [done|]. by apply Hvalid.
Qed.

Lemma for_each_label_order fuel len i wc k :
  label_inv r n i wc k → label_order i wc k → i + len = n → n < fuel →
  ∃ wc' k', for_each_opt (label_way fuel r) (seq i len) (wc, k) = Some (wc', k') ∧
            label_inv r n n wc' k' ∧ label_order n wc' k'.
Proof.
  revert i wc k. induction len as [|len IH]; intros i wc k Hinv Hord Hlen Hfuel;
    cbn [seq for_each_opt].
  - assert (i = n) as Hi by lia. rewrite Hi in Hinv, Hord. eauto.
  - destruct (label_way_order fuel i wc k) as (wc1 & k1 & -> & Hinv1 & Hord1);
      [done|done|lia|done|].
    apply IH; [done|done|lia|done].
Qed.

Lemma label_order_start : label_order 0 (replicate n invalid) 0%Z.
Proof.
  split; [lia|]. intros a c [-> _]%lookup_replicate. done.
Qed.
End Order.

(** Two labellings of the same ways that put the same ways together and
    both number their components in the order of the first way are the
    same labelling. *)
Lemma numbering_unique (n : nat) (wc1 wc2 : list component_idx_t) k1 k2 :
  length wc1 = n → length wc2 = n →
  (∀ a, a < n → ∃ c, wc1 !! a = Some c ∧ c ≠ invalid) →
  (∀ a, a < n → ∃ c, wc2 !! a = Some c ∧ c ≠ invalid) →
  (∀ a b, a < n → b < n → (wc1 !! a = wc1 !! b ↔ wc2 !! a = wc2 !! b)) →
  label_order n wc1 k1 → label_order n wc2 k2 →
  wc1 = wc2.
Proof.
  intros Hl1 Hl2 Hd1 Hd2 Hsame [_ Hf1] [_ Hf2].
  assert (∀ a, a < n → wc1 !! a = wc2 !! a) as Heq.
  { intros a. induction (lt_wf a) as [a _ IH]. intros Ha.
    destruct (Hd1 a Ha) as (c1 & Hc1 & Hv1), (Hd2 a Ha) as (c2 & Hc2 & Hv2).
    rewrite Hc1, Hc2. f_equal.
    destruct (Hf1 a c1 Hc1 Hv1) as [Hb1 Hs1], (Hf2 a c2 Hc2 Hv2) as [Hb2 Hs2].
    destruct (Z.lt_trichotomy c1 c2) as [Hlt|[->|Hlt]]; [|done|].
    - destruct (Hs2 c1) as (b & Hba & Hb); [lia|].
      assert (wc1 !! b = Some c1) as Hb' by (rewrite IH by lia; done).
      assert (wc2 !! a = wc2 !! b) as Hab by (apply Hsame; [done|lia|congruence]).
      rewrite Hc2, Hb in Hab. injection Hab as ->. lia.
    - destruct (Hs1 c2) as (b & Hba & Hb); [lia|].
      assert (wc2 !! b = Some c2) as Hb' by (rewrite <-IH by lia; done).
      assert (wc1 !! a = wc1 !! b) as Hab by (apply Hsame; [done|lia|congruence]).
      rewrite Hc1, Hb in Hab. injection Hab as ->. lia. }
  apply list_eq. intros a. destruct (decide (a < n)); [by apply Heq|].
  rewrite !lookup_ge_None_2 by lia. done.
Qed.

End NumberingFacts.

Section NumberingStore.
Context `{Geo}.
Import Components ComponentFacts Numbering NumberingFacts.

(** X1.  The components are numbered 0, 1, 2, ... in the order of their
    first way: the id of a way is at most its own index, and every smaller
    id is held by a way with a smaller index. *)
Theorem build_components_numbering `{HashOrder} fuel (w : ways) :
  consistent (n_ways w) (r_ w) →
  way_component_ (r_ w) = [] →
  (Z.of_nat (n_ways w) ≤ invalid)%Z →
  n_ways w < fuel →
  ∃ w', build_components fuel w = Some w' ∧
    ∀ a c, way_component_ (r_ w') !! a = Some c →
      (0 ≤ c ≤ Z.of_nat a)%Z ∧
      ∀ c', (0 ≤ c' < c)%Z → ∃ b, b < a ∧ way_component_ (r_ w') !! b = Some c'.
Proof.
  intros Hcons Hfresh Hsmall Hfuel. unfold build_components.
  rewrite Hfresh, resize_nil.
  destruct (for_each_label_order (r_ w) (n_ways w) Hcons Hsmall fuel (n_ways w) 0
              (replicate (n_ways w) invalid) 0%Z)
    as (wc & k & -> & Hinv & [_ Hfirst]);
    [apply label_inv_start|apply label_order_start|lia|done|].
  eexists. split; [done|]. simpl. intros a c Ha.
  apply Hfirst; [done|].
  destruct Hinv as [Hlen _ _ Hdone _ _].
  destruct (Hdone a) as (c0 & Hc0 & Hv); [|congruence].
  apply lookup_lt_Some in Ha. lia.
Qed.


Lemma build_components_run `{HashOrder} fuel (w : ways) :
  (Z.of_nat (n_ways w) ≤ invalid)%Z →
  n_ways w < fuel →
  ∃ wc, build_components fuel w = Some (with_routing w (with_way_component (r_ w) wc)) ∧
    length wc = n_ways w ∧
    keeps_labels (resize (n_ways w) invalid (way_component_ (r_ w))) wc ∧
    (∀ a, a < n_ways w → ∃ c, wc !! a = Some c ∧ c ≠ invalid).
Proof.
  intros Hsmall Hfuel. unfold build_components.
  destruct (for_each_label_keeps (r_ w) (n_ways w) Hsmall fuel (n_ways w) 0
              (resize (n_ways w) invalid (way_component_ (r_ w))) 0%Z)
    as (wc & k & -> & Hlen & Hkeep & Hdone); [by rewrite length_resize|lia|done|lia|].
  exists wc. split; [done|]. split; [done|]. split; [done|].
  intros a Ha. apply Hdone. lia.
Qed.

(** X3.  On every store whose adjacency indices are in range, consistent or
    not and with whatever component column, the pass ends, gives every way a
    component and never overwrites a component that was in the column before
    the call. *)
Theorem build_components_keeps `{HashOrder} fuel (w : ways) :
  in_range (n_ways w) (r_ w) →
  (Z.of_nat (n_ways w) ≤ invalid)%Z →
  n_ways w < fuel →
  ∃ w', build_components fuel w = Some w' ∧
    length (way_component_ (r_ w')) = n_ways w ∧
    (∀ a, a < n_ways w → ∃ c, way_component_ (r_ w') !! a = Some c ∧ c ≠ invalid) ∧
    (∀ a c, a < n_ways w → way_component_ (r_ w) !! a = Some c → c ≠ invalid →
       way_component_ (r_ w') !! a = Some c).
Proof.
  intros _ Hsmall Hfuel.
  destruct (build_components_run fuel w Hsmall Hfuel) as (wc & -> & Hlen & Hkeep & Hdone).
  eexists. split; [done|]. simpl. split; [done|]. split; [done|].
  intros a c Ha Hc Hcv. apply Hkeep; [|done].
  rewrite lookup_resize; [done|done|]. by eapply lookup_lt_Some.
Qed.

(** X4.  A second pass over the store the first pass leaves changes nothing,
    with whatever fuel: a labelled way is skipped before anything is filled. *)
Theorem build_components_twice `{HashOrder} fuel fuel' (w : ways) :
  in_range (n_ways w) (r_ w) →
  (Z.of_nat (n_ways w) ≤ invalid)%Z →
  n_ways w < fuel →
  ∃ w', build_components fuel w = Some w' ∧ build_components fuel' w' = Some w'.
Proof.
  intros _ Hsmall Hfuel.
  destruct (build_components_run fuel w Hsmall Hfuel) as (wc & -> & Hlen & _ & Hdone).
  eexists. split; [done|].
  unfold build_components. simpl. rewrite resize_all_alt by done.
  assert (∀ len i k, i + len = n_ways w →
            for_each_opt (label_way fuel' (with_way_component (r_ w) wc)) (seq i len) (wc, k)
            = Some (wc, k)) as Hskip.
  { induction len as [|len IH]; intros i k Hil; cbn [seq for_each_opt]; [done|].
    destruct (Hdone i) as (c & Hc & Hcv); [lia|].
    unfold label_way at 1. rewrite Hc, bool_decide_eq_true_2 by done.
    apply IH. lia. }
  change (n_ways (with_routing w (with_way_component (r_ w) wc))) with (n_ways w).
  rewrite Hskip by lia. done.
Qed.

End NumberingStore.

(** ** What a batch leaves in the store *)

Module BatchFacts.
Import Restrictions RestrictionFacts.

Lemma snd_enumerate {A} (l : list A) : (enumerate l).*2 = l.
Proof.
  apply list_eq. intros i. unfold enumerate.
  rewrite list_lookup_fmap, list_lookup_imap. by destruct (l !! i).
Qed.

Section Count.
Context `{Slots}.

Lemma length_only_inner (from to a : nat) (P : nat → restriction) (E : list (nat * nat)) :
  length (E ≫= λ '(j, b), if bool_decide (from = a) && bool_decide (to ≠ b)
                          then [P j] else [])
  = if bool_decide (from = a) then listed_other to E.*2 else 0.
Proof.
  unfold listed_other. induction E as [|[j b] E IH]; [by case_bool_decide|].
  cbn [mbind list_bind fmap list_fmap snd]. rewrite length_app.
  change (length (E ≫= _)) with
    (length (E ≫= λ '(j, b), if bool_decide (from = a) && bool_decide (to ≠ b)
                             then [P j] else [])) .
  rewrite IH, filter_cons.
  repeat first [case_bool_decide | case_decide]; simpl; congruence || lia.
Qed.

(** An [Only] record stores one pair for every position of its
    from-way combined with every position of a way other than its
    to-way. *)
Lemma length_only_pairs ws from to :
  length (only_pairs ws from to) = listed from ws * listed_other to ws.
Proof.
  unfold only_pairs.
  assert (∀ E : list (nat * nat),
    length (E ≫= λ '(i, a), enumerate ws ≫= λ '(j, b),
              if bool_decide (from = a) && bool_decide (to ≠ b)
              then [mk_restriction (to_way_pos i) (to_way_pos j)] else [])
    = listed from E.*2 * listed_other to ws) as Hout.
  { unfold listed. induction E as [|[i a] E IH]; [done|].
    cbn [mbind list_bind fmap list_fmap snd]. rewrite length_app.
    rewrite (length_only_inner from to a (λ j, mk_restriction (to_way_pos i) (to_way_pos j))).
    rewrite snd_enumerate, filter_cons.
    change (length (E ≫= _)) with
      (length (E ≫= λ '(i, a), enumerate ws ≫= λ '(j, b),
                 if bool_decide (from = a) && bool_decide (to ≠ b)
                 then [mk_restriction (to_way_pos i) (to_way_pos j)] else [])).
    rewrite IH. repeat first [case_bool_decide | case_decide]; simpl; congruence || lia. }
  by rewrite Hout, snd_enumerate.
Qed.
End Count.

Section Bits.
Context `{Slots}.

Lemma bits_step r x :
  node_is_restricted_ (step r x) = <[via_ x := true]> (node_is_restricted_ r).
Proof. unfold step. by rewrite add_one_pairs. Qed.

Lemma bits_fold_step l r :
  node_is_restricted_ (fold_left step l r)
  = fold_left (λ bits x, <[via_ x := true]> bits) l (node_is_restricted_ r).
Proof.
  revert r. induction l as [|x l IH]; intros r; simpl; [done|].
  by rewrite IH, bits_step.
Qed.

Lemma test_bit_fold_set (l : list resolved_restriction) bits u :
  length (fold_left (λ bits x, <[via_ x := true]> bits) l bits) = length bits ∧
  (test_bit (fold_left (λ bits x, <[via_ x := true]> bits) l bits) u = true ↔
   test_bit bits u = true ∨ (u < length bits ∧ ∃ x, x ∈ l ∧ via_ x = u)).
Proof.
  revert bits. induction l as [|x l IH]; intros bits; simpl.
  { split; [done|]. split; [by left|]. intros [?|(_ & x & []%elem_of_nil & _)]. done. }
  destruct (IH (<[via_ x := true]> bits)) as [Hlen Hbit].
  rewrite length_insert in Hlen, Hbit. split; [done|]. rewrite Hbit.
  unfold test_bit. destruct (decide (u = via_ x)) as [->|Hne].
  - destruct (decide (via_ x < length bits)) as [Hlt|Hge].
    + rewrite list_lookup_insert_eq by done. simpl. split; [|by left].
      intros _. right. split; [done|]. exists x. split; [left|done].
    + rewrite list_insert_ge by lia. rewrite lookup_ge_None_2 by lia. simpl.
      split; intros [?|[? _]]; done || lia.
  - rewrite list_lookup_insert_ne by done. split.
    + intros [?|(Hu & y & Hy & Hvia)]; [by left|right].
      split; [done|]. exists y. split; [by right|done].
    + intros [?|(Hu & y & Hy & Hvia)]; [by left|right].
      split; [done|]. exists y. split; [|done].
      apply elem_of_cons in Hy as [->|Hy]; [congruence|done].
Qed.
End Bits.

Section Contrib.
Context `{Slots}.

Lemma contrib_perm r rs rs' u : rs ≡ₚ rs' → contrib r rs u ≡ₚ contrib r rs' u.
Proof. intros Hp. unfold contrib. by rewrite Hp. Qed.

(** The head of the sorted batch carries the smallest via node. *)
Lemma sort_by_via_head rs x0 l :
  sort_by_via rs = x0 :: l → x0 ∈ rs ∧ ∀ x, x ∈ rs → via_ x0 ≤ via_ x.
Proof.
  intros Hsort. pose proof (sort_by_via_sorted rs) as Hsorted.
  pose proof (sort_by_via_perm rs) as Hperm. rewrite Hsort in Hsorted, Hperm.
  split; [rewrite Hperm; left|]. intros x Hx. rewrite Hperm in Hx.
  apply elem_of_cons in Hx as [->|Hx]; [done|].
  apply StronglySorted_inv in Hsorted as [_ Hx0].
  rewrite Forall_forall in Hx0. by apply Hx0.
Qed.
End Contrib.

End BatchFacts.

Section BatchStore.
Context `{Geo} `{Restrictions.Slots}.
Import Restrictions RestrictionFacts BatchFacts.

(** X9.  A batch that cuts no list is append-only.  When the column only
    grows under the batch, it ends with one list per internal node, and the
    list of every node is what it held followed by the pairs of the batch's
    records for that node: the pairs of the caller's records, whatever their
    order in the batch. *)
Theorem add_restriction_column (w : ways) rs :
  grows_only w rs →
  let w' := (add_restriction w rs).2 in
  length (node_restrictions_ (r_ w')) = length (node_to_osm_ w) ∧
  ∀ u, u < length (node_to_osm_ w) →
    ∃ added,
      bucket (node_restrictions_ (r_ w')) u
      = bucket (node_restrictions_ (r_ w)) u ++ added ∧
      added ≡ₚ contrib (r_ w) rs u.
Proof.
  intros [Hlen0 Hgrow]. cbv zeta.
  destruct (sort_by_via rs) as [|y0 l] eqn:Hsort.
  { pose proof (sort_by_via_perm rs) as Hperm. rewrite Hsort in Hperm.
    apply Permutation_nil_r in Hperm. subst rs.
    rewrite add_restriction_unfold. simpl. split; [by rewrite length_resize|].
    intros u Hu. exists []. rewrite bucket_resize, decide_True, app_nil_r by done.
    done. }
  destruct (add_restriction_buckets w rs y0 l Hsort) as (Hlen & _ & _ & Hb).
  split; [done|]. intros u Hu.
  exists (contrib (r_ w) (sort_by_via rs) u). split.
  - rewrite Hb by done.
    destruct (sort_by_via_head rs y0 l Hsort) as [Hy0 _].
    destruct (Hgrow y0 Hy0) as [Hshort _].
    case_decide as Hle; [done|]. by rewrite bucket_None by lia.
  - apply contrib_perm. symmetry. apply sort_by_via_perm.
Qed.

(** X10.  The restricted bits after a batch whose via nodes are inside the
    bit vector: a bit is set exactly when it was set before or the batch has
    a record with that via node, whether or not the record stores a pair.
    No bit is cleared and the vector keeps its size. *)
Theorem add_restriction_marks (w : ways) rs :
  (∀ x, x ∈ rs → via_ x < length (node_is_restricted_ (r_ w))) →
  let w' := (add_restriction w rs).2 in
  length (node_is_restricted_ (r_ w')) = length (node_is_restricted_ (r_ w)) ∧
  ∀ u, test_bit (node_is_restricted_ (r_ w')) u = true ↔
       test_bit (node_is_restricted_ (r_ w)) u = true ∨ ∃ x, x ∈ rs ∧ via_ x = u.
Proof.
  intros Hin. cbv zeta. rewrite add_restriction_unfold. simpl.
  rewrite bits_fold_step.
  destruct (test_bit_fold_set (sort_by_via rs) (node_is_restricted_ (r_ w)) 0) as [Hlen _].
  split; [done|]. intros u.
  destruct (test_bit_fold_set (sort_by_via rs) (node_is_restricted_ (r_ w)) u) as [_ ->].
  split.
  - intros [?|(_ & x & Hx & Hvia)]; [by left|right].
    exists x. split; [|done]. by rewrite (sort_by_via_perm rs).
  - intros [?|(x & Hx & Hvia)]; [by left|right]. split.
    + rewrite <-Hvia. by apply Hin.
    + exists x. split; [|done]. by rewrite <-(sort_by_via_perm rs).
Qed.

(** X11.  The restricted bits cover the restriction lists, and a batch that
    cuts no list keeps it so: if every node with a pair in its list had its
    bit set before the call, so it is after the call.  (The converse is not
    kept: a record that stores no pair still sets the bit of its via node.) *)
Theorem add_restriction_marked (w : ways) rs :
  grows_only w rs →
  (∀ x, x ∈ rs → via_ x < length (node_is_restricted_ (r_ w))) →
  (∀ u, bucket (node_restrictions_ (r_ w)) u ≠ [] →
        test_bit (node_is_restricted_ (r_ w)) u = true) →
  let w' := (add_restriction w rs).2 in
  ∀ u, bucket (node_restrictions_ (r_ w')) u ≠ [] →
       test_bit (node_is_restricted_ (r_ w')) u = true.
Proof.
  intros _ Hin Hcover. cbv zeta. intros u Hu.
  assert (test_bit (node_is_restricted_ (r_ (add_restriction w rs).2)) u = true ↔
          test_bit (node_is_restricted_ (r_ w)) u = true ∨ ∃ x, x ∈ rs ∧ via_ x = u)
    as ->.
  { rewrite add_restriction_unfold. simpl. rewrite bits_fold_step.
    destruct (test_bit_fold_set (sort_by_via rs) (node_is_restricted_ (r_ w)) u)
      as [_ ->].
    split.
    - intros [?|(_ & x & Hx & Hvia)]; [by left|right].
      exists x. split; [|done]. by rewrite (sort_by_via_perm rs).
    - intros [?|(x & Hx & Hvia)]; [by left|right]. split.
      + rewrite <-Hvia. by apply Hin.
      + exists x. split; [|done]. by rewrite <-(sort_by_via_perm rs). }
  destruct (decide (u < length (node_to_osm_ w))) as [Hlt|Hge].
  2:{ destruct Hu. apply bucket_None. rewrite add_restriction_unfold. simpl.
      rewrite length_resize. lia. }
  destruct (sort_by_via rs) as [|y0 l] eqn:Hsort.
  - left. apply Hcover. intros Hold. apply Hu.
    rewrite add_restriction_unfold, Hsort. simpl.
    by rewrite bucket_resize, decide_True.
  - destruct (add_restriction_buckets w rs y0 l Hsort) as (_ & _ & _ & Hb).
    rewrite (Hb u Hlt) in Hu.
    destruct (decide (Exists (λ x, via_ x = u) rs)) as [Hx%Exists_exists|Hx];
      [by right|left].
    rewrite Exists_exists in Hx.
    rewrite (contrib_absent (r_ w) (sort_by_via rs) u), app_nil_r in Hu.
    + apply Hcover. by case_decide.
    + intros x Hsx Hvia. apply Hx. exists x. split; [|done].
      by rewrite (sort_by_via_perm rs).
Qed.

(** X12.  A batch writes the restriction lists and the restricted bits and
    nothing else: the graph, the distances, the flags, the components and
    the columns of the store outside the routing blob are as before.  The
    empty batch sets no bit and only brings the column to one list per node. *)
Theorem add_restriction_frame (w : ways) rs :
  (∃ nr bits,
     (add_restriction w rs).2
     = with_routing w (with_node_is_restricted (with_node_restrictions (r_ w) nr) bits)) ∧
  add_restriction w []
  = ([], with_routing w
           (with_node_restrictions (r_ w)
              (resize (length (node_to_osm_ w)) [] (node_restrictions_ (r_ w))))).
Proof.
  split; [|done].
  rewrite add_restriction_unfold. simpl.
  destruct (same_graph_fold_step (sort_by_via rs) (r_ w)) as (H1&H2&H3&H4&H5&H6).
  eexists _, _. unfold with_routing, with_node_is_restricted, with_node_restrictions.
  simpl. f_equal. rewrite H1, H2, H3, H4, H5, H6. reflexivity.
Qed.

(** X13.  The number of pairs an [Only] record stores at its via node: the
    positions of the from-way times the positions of ways other than the
    to-way; none when the from-way does not run through the node. *)
Theorem add_one_only_count (r : routing) (x : resolved_restriction) :
  type_ x = kOnly →
  via_ x < length (node_restrictions_ r) →
  let ws := bucket (node_ways_ r) (via_ x) in
  length (bucket (node_restrictions_ (add_one r x)) (via_ x))
  = length (bucket (node_restrictions_ r) (via_ x))
    + listed (from_ x) ws * listed_other (to_ x) ws ∧
  (from_ x ∉ ws → add_one r x = r).
Proof.
  intros Honly Hvia. cbv zeta. rewrite add_one_pairs. unfold pairs_of. rewrite Honly.
  split.
  - simpl. rewrite bucket_alter_app by done. rewrite decide_True by done.
    by rewrite length_app, length_only_pairs.
  - intros Hfrom.
    assert (only_pairs (bucket (node_ways_ r) (via_ x)) (from_ x) (to_ x) = []) as ->.
    { apply length_zero_iff_nil. rewrite length_only_pairs.
      assert (listed (from_ x) (bucket (node_ways_ r) (via_ x)) = 0) as ->; [|done].
      unfold listed. apply length_zero_iff_nil, filter_none.
      intros b Hb Heq. apply Hfrom. by rewrite Heq. }
    apply push_all_nil.
Qed.

End BatchStore.

(** ** The distances along a way *)

(** What a loop that was not abandoned ends in: a property kept by every
    iteration that is not abandoned. *)
Lemma for_each_res_post {A S} (body : S → A → result S) (J : list A → S → Prop) xs s s' :
  J [] s →
  (∀ handled x s s', J handled s → body s x = Ok s' → J (handled ++ [x]) s') →
  for_each_res body xs s = Ok s' → J xs s'.
Proof.
  intros Hstart Hstep.
  assert (∀ handled s, J handled s → for_each_res body xs s = Ok s' →
            J (handled ++ xs) s') as Hgen.
  { clear s Hstart. induction xs as [|x xs IH]; intros handled s HJ; simpl.
    - intros [= <-]. by rewrite app_nil_r.
    - destruct (body s x) as [s1|e] eqn:Hb; simpl; [|done].
      intros Hrun. rewrite (app_assoc handled [x] xs : handled ++ x :: xs = _).
      apply (IH _ s1); [|done]. by eapply Hstep. }
  apply (Hgen [] s Hstart).
Qed.

Module LegFacts.
Import Legs.

Lemma shared_at_snoc multi ids x :
  shared_at multi (ids ++ [x])
  = shared_at multi ids ++ (if test_bit multi x then [length ids] else []).
Proof.
  unfold shared_at. rewrite length_app. simpl. rewrite Nat.add_1_r, seq_S, filter_app.
  f_equal.
  - apply filter_ext_elem. intros k Hk%elem_of_seq.
    by rewrite lookup_app_l by lia.
  - simpl. rewrite filter_cons, filter_nil.
    rewrite list_lookup_middle by done. simpl.
    destruct (test_bit multi x); by case_decide.
Qed.

Lemma shared_at_lt multi ids a : a ∈ shared_at multi ids → a < length ids.
Proof. unfold shared_at. intros [_ Ha%elem_of_seq]%list_elem_of_filter. lia. Qed.

Lemma zip_with_tail_snoc {A B} (f : A → A → B) (l : list A) (a m : A) :
  last l = Some a →
  zip_with f (l ++ [m]) (tail (l ++ [m])) = zip_with f l (tail l) ++ [f a m].
Proof.
  destruct l as [|b l]; [done|]. simpl. revert b.
  induction l as [|c l IH]; intros b Hlast; simpl in *.
  - by injection Hlast as ->.
  - f_equal. by apply IH.
Qed.

Section Legs.
Context `{Geo}.

Lemma stretch_app ps qs a b : b < length ps → stretch (ps ++ qs) a b = stretch ps a b.
Proof.
  intros Hb. unfold stretch. destruct (decide (a ≤ length ps)) as [Ha|Ha].
  - rewrite drop_app_le by done. apply take_app_le. rewrite length_drop. lia.
  - replace (S b - a) with 0 by lia. done.
Qed.

Lemma stretch_to_end ps a : stretch ps a (length ps - 1) = drop a ps.
Proof. unfold stretch. apply take_ge. rewrite length_drop. lia. Qed.

Lemma path_length_snoc ps q p :
  last ps = Some q →
  path_length (ps ++ [p]) = d_add (path_length ps) (geo_distance p q).
Proof.
  intros Hlast. unfold path_length.
  rewrite (zip_with_tail_snoc _ ps q p Hlast), fold_left_app. done.
Qed.

Lemma last_drop_lt {A} (l : list A) a : a < length l → last (drop a l) = last l.
Proof.
  intros Ha. rewrite <-(take_drop a l) at 2.
  destruct (drop a l) as [|x k] eqn:Hd.
  - apply (f_equal length) in Hd. rewrite length_drop in Hd. simpl in Hd. lia.
  - by rewrite last_app_cons.
Qed.

Lemma leg_distances_stable (ats : list nat) (pts : list point) qs :
  Forall (λ a, a < length pts) ats →
  (λ ab : nat * nat, wrap16 (d_round (path_length (stretch (pts ++ qs) ab.1 ab.2))))
    <$> zip ats (tail ats)
  = (λ ab, wrap16 (d_round (path_length (stretch pts ab.1 ab.2)))) <$> zip ats (tail ats).
Proof.
  intros Hats. apply list_fmap_ext. intros i [a b] Hab. simpl.
  rewrite stretch_app; [done|].
  apply list_elem_of_lookup_2, elem_of_zip_r in Hab.
  rewrite Forall_forall in Hats. apply Hats.
  destruct ats; [by apply elem_of_nil in Hab|]. by right.
Qed.

Section Walk.
Variables (multi : list bool) (node_to_osm : list nat).
Variables (osm_way_idx way_idx : nat).

Lemma legs_inv_start nw niw out :
  legs_inv multi []
    (mk_walk (Some point_default) None d_zero 0%Z [] [] nw niw out).
Proof. by split. Qed.

Lemma visit_node_legs xs x s s' :
  legs_inv multi xs s →
  visit_node multi node_to_osm osm_way_idx way_idx s x = Ok s' →
  legs_inv multi (xs ++ [x]) s'.
Proof.
  intros [Hpred Hfrom Hdist Hdists]. destruct x as [osm pos].
  unfold visit_node, is_multi. rewrite Hpred.
  set (pts := xs.*2) in *. set (ids := xs.*1) in *.
  assert (length ids = length xs) as Hids by apply length_fmap.
  assert (length pts = length xs) as Hpts by apply length_fmap.
  assert ((xs ++ [(osm, pos)]).*1 = ids ++ [osm]) as E1 by (by rewrite fmap_app).
  assert ((xs ++ [(osm, pos)]).*2 = pts ++ [pos]) as E2 by (by rewrite fmap_app).
  set (distance' := d_add (distance s)
                      (geo_distance pos (default point_default (last pts)))).
  assert (Forall (λ a, a < length pts) (shared_at multi ids)) as Hlt.
  { apply Forall_forall. intros a Ha%shared_at_lt. lia. }
  assert (∀ a, last (shared_at multi ids) = Some a →
            distance' = path_length (drop a (pts ++ [pos]))) as HD.
  { intros a Ha. assert (a < length pts) as Halt.
    { rewrite Forall_forall in Hlt. apply Hlt. by eapply last_Some_elem_of. }
    rewrite drop_app_le by lia. unfold distance'. rewrite (Hdist a Ha).
    destruct (last pts) as [q|] eqn:Hq.
    - simpl. symmetry. apply path_length_snoc. by rewrite last_drop_lt.
    - apply last_None in Hq. rewrite Hq in Halt. simpl in Halt. lia. }
  destruct (test_bit multi osm) eqn:Hm.
  - destruct (get_node_idx node_to_osm osm) as [to|e]; simpl; [|done].
    intros [= <-]. split; simpl; rewrite ?E1, ?E2, ?shared_at_snoc, ?Hm.
    + by rewrite last_snoc.
    + split; [done|]. by intros [_ ?]%app_eq_nil.
    + rewrite last_snoc. intros a [= <-]. rewrite Hids, <-Hpts.
      by rewrite drop_app_length.
    + unfold leg_distances. rewrite E1, E2, shared_at_snoc, Hm.
      destruct (last (shared_at multi ids)) as [a|] eqn:Hlast.
      * destruct (from s) as [f|] eqn:Hf.
        2:{ destruct Hfrom as [Hfrom _]. rewrite Hfrom in Hlast by done. done. }
        rewrite (zip_with_tail_snoc _ _ a (length ids) Hlast), fmap_app.
        rewrite leg_distances_stable by done. f_equal; [done|]. simpl.
        replace (length ids) with (length (pts ++ [pos]) - 1)
          by (rewrite length_app; simpl; lia).
        by rewrite stretch_to_end, <-(HD a eq_refl).
      * apply last_None in Hlast. rewrite Hlast in *. simpl.
        destruct Hfrom as [_ Hfrom]. rewrite (Hfrom eq_refl), Hdists.
        unfold leg_distances. fold ids. by rewrite Hlast.
  - intros [= <-]. split; simpl; rewrite ?E1, ?E2, ?shared_at_snoc, ?Hm, ?app_nil_r.
    + by rewrite last_snoc.
    + done.
    + done.
    + unfold leg_distances. rewrite E1, E2, shared_at_snoc, Hm, app_nil_r.
      by rewrite leg_distances_stable by done.
Qed.
End Walk.

(** One way: its distance list is appended to the column. *)
Lemma connect_way_legs multi node_to_osm b x b' :
  connect_way multi node_to_osm b x = Ok b' →
  b_way_node_dist b' = b_way_node_dist b ++ [leg_distances multi (zip x.2.1 x.2.2)].
Proof.
  destruct x as [osm_way_idx [osm_nodes polyline]]. unfold connect_way.
  destruct (for_each_res _ _ _) as [s|e] eqn:Hrun; simpl; [|done].
  intros [= <-]. simpl. f_equal. f_equal.
  apply (for_each_res_post _ (legs_inv multi)) in Hrun.
  - apply Hrun.
  - apply legs_inv_start.
  - intros handled y t t' Ht Hy. by eapply visit_node_legs.
Qed.

Lemma for_each_connect_way_legs multi node_to_osm xs b b' :
  for_each_res (connect_way multi node_to_osm) xs b = Ok b' →
  b_way_node_dist b'
  = b_way_node_dist b ++ ((λ x, leg_distances multi (zip x.2.1 x.2.2)) <$> xs).
Proof.
  revert b. induction xs as [|x xs IH]; intros b; simpl.
  - intros [= <-]. by rewrite app_nil_r.
  - destruct (connect_way multi node_to_osm b x) as [b1|e] eqn:Hb; simpl; [|done].
    intros Hrun. rewrite (IH b1 Hrun), (connect_way_legs _ _ _ _ _ Hb).
    by rewrite <-app_assoc.
Qed.
End Legs.

End LegFacts.

Section ConnectRun.
Context `{Geo}.
Import Connect ConnectFacts.

(** The loop over the ways inside [connect_ways], and the store built
    from what it ends in. *)
Lemma connect_ways_run (w : ways) :
  ∃ b,
    for_each_res (connect_way (node_way_counter_multi_ w) (nodes_created w)) (inputs w)
      (mk_build (way_nodes_ (r_ w)) (way_node_dist_ (r_ w))
         (resize (length (nodes_created w)) [] []) (resize (length (nodes_created w)) [] [])
         (printed_ w)) = Ok b ∧
    build_inv (node_way_counter_multi_ w) (nodes_created w)
      (way_nodes_ (r_ w)) (way_node_dist_ (r_ w)) (printed_ w) (inputs w) b ∧
    connect_ways w
    = Ok (mk_ways
            (mk_routing (way_properties_ (r_ w)) (b_way_nodes b) (b_way_node_dist b)
               (node_ways_ (r_ w) ++ b_node_ways b)
               (node_in_way_idx_ (r_ w) ++ b_node_in_way_idx b)
               (resize (length (for_each_set_bit (node_way_counter_multi_ w))) false
                  (node_is_restricted_ (r_ w)))
               (node_restrictions_ (r_ w)) (way_component_ (r_ w)))
            (nodes_created w) (way_osm_idx_ w) (way_polylines_ w) (way_osm_nodes_ w)
            (strings_ w) (way_has_conditional_access_no_ w)
            (way_conditional_access_no_ w) (node_way_counter_multi_ w) (b_out b)).
Proof.
  destruct (build_spec (node_way_counter_multi_ w) (nodes_created w)
              (way_nodes_ (r_ w)) (way_node_dist_ (r_ w)) (printed_ w)
              (multi_resolved w) (inputs w)) as (b & Hrun & Hinv).
  exists b. split; [done|]. split; [done|].
  unfold connect_ways. rewrite create_nodes_eq.
  unfold nodes_created, inputs in Hrun. by rewrite Hrun.
Qed.

End ConnectRun.

Section LegStore.
Context `{Geo}.
Import Connect ConnectFacts Legs LegFacts.


End LegStore.

(** ** Junctions and columns *)

Lemma filter_two_hits {A} (P : A → Prop) `{!∀ x, Decision (P x)} (l : list A) :
  2 ≤ length (filter P l) →
  ∃ i j a b, i < j ∧ l !! i = Some a ∧ P a ∧ l !! j = Some b ∧ P b.
Proof.
  induction l as [|x l IH]; [simpl; lia|]. rewrite filter_cons.
  destruct (decide (P x)) as [Hx|Hx]; simpl; intros Hlen.
  - destruct (filter P l) as [|b k] eqn:Hf; [simpl in Hlen; lia|].
    assert (b ∈ filter P l) as [Hb Hbl]%list_elem_of_filter by (rewrite Hf; left).
    apply list_elem_of_lookup in Hbl as [j Hj].
    exists 0, (S j), x, b. split; [lia|]. by split_and!.
  - destruct (IH Hlen) as (i & j & a & b & Hij & Hi & Ha & Hj & Hb).
    exists (S i), (S j), a, b. split; [lia|]. by split_and!.
Qed.

Section Junctions.
Context `{Geo}.
Import Connect ConnectFacts Aligned.

Lemma aligned_b_sound (w : ways) : aligned_b w = true → aligned w.
Proof.
  unfold aligned_b, aligned. rewrite !andb_true_iff, !bool_decide_eq_true.
  intros [[Hids Hlen] Hall]. split; [done|].
  apply Forall2_same_length_lookup_2; [done|]. intros i nodes line Hn Hl.
  rewrite forallb_forall in Hall. specialize (Hall (nodes, line)). simpl in Hall.
  eapply bool_decide_eq_true_1, Hall, list_elem_of_In.
  apply list_elem_of_lookup. exists i. by apply lookup_zip_Some.
Qed.

(** A way of an aligned store as the loop over the ways receives it. *)
Lemma inputs_lookup (w : ways) i nodes :
  aligned w → way_osm_nodes_ w !! i = Some nodes →
  ∃ id line, inputs w !! i = Some (id, (nodes, line)) ∧ length nodes = length line.
Proof.
  intros [Hids Hall] Hn.
  destruct (Forall2_lookup_l _ _ _ _ _ Hall Hn) as (line & Hl & Hlen).
  destruct (lookup_lt_is_Some_2 (way_osm_idx_ w) i) as [id Hid].
  { rewrite Hids. by eapply lookup_lt_Some. }
  exists id, line. split; [|done]. unfold inputs.
  apply lookup_zip_Some. split; [done|]. by apply lookup_zip_Some.
Qed.

(** X16.  Every internal node is a junction: on a fresh, aligned store whose
    multiplicity bits are right, the node list of every internal node names
    at least two different ways. *)
Theorem connect_ways_junctions (w : ways) :
  node_to_osm_ w = [] →
  way_nodes_ (r_ w) = [] →
  node_ways_ (r_ w) = [] →
  counter_ok w →
  aligned w →
  ∃ w', connect_ways w = Ok w' ∧
    ∀ n, n < length (node_to_osm_ w') →
      ∃ a b, a ≠ b ∧ a ∈ bucket (node_ways_ (r_ w')) n ∧ b ∈ bucket (node_ways_ (r_ w')) n.
Proof.
  intros Hnto Hwn Hnw Hcounter Halign.
  destruct (connect_ways_spec w) as (b & -> & [(added & Hb & Hadded) _ _ _ _ Hlisted _]).
  eexists. split; [done|]. simpl. rewrite Hnw. simpl.
  rewrite Hwn in Hb, Hlisted. simpl in Hb. subst added.
  assert (nodes_created w = for_each_set_bit (node_way_counter_multi_ w)) as Hcreated
    by (unfold nodes_created; by rewrite Hnto).
  intros n Hn. destruct (lookup_lt_is_Some_2 _ n Hn) as [x Hx].
  assert (2 ≤ ref_count w x) as Href.
  { apply Hcounter, elem_of_for_each_set_bit. rewrite <-Hcreated.
    by eapply list_elem_of_lookup_2. }
  assert (find_index x (nodes_created w) = Some n) as Hfind.
  { apply find_index_sorted; [|done]. rewrite Hcreated. apply for_each_set_bit_sorted. }
  assert (∀ i nodes, way_osm_nodes_ w !! i = Some nodes → x ∈ nodes →
            i ∈ bucket (b_node_ways b) n) as Hway.
  { intros i nodes Hi Hxn.
    destruct (inputs_lookup w i nodes Halign Hi) as (id & line & Hin & Hlen).
    destruct (Forall2_lookup_l _ _ _ _ _ Hadded Hin) as (nds & Hnds & Hres).
    apply (Hlisted i nds n); [simpl; lia|done|].
    assert (x ∈ shared_of (node_way_counter_multi_ w) (id, (nodes, line))) as Hsh.
    { unfold shared_of, shared. simpl. rewrite fst_zip by lia.
      apply list_elem_of_filter. split; [|done].
      apply Hcounter. done. }
    apply list_elem_of_lookup in Hsh as [k Hk].
    destruct (Forall2_lookup_l _ _ _ _ _ Hres Hk) as (n' & Hn' & Hr).
    unfold resolved in Hr. rewrite Hfind in Hr. injection Hr as <-.
    by eapply list_elem_of_lookup_2. }
  unfold ref_count in Href.
  apply filter_two_hits in Href as (i & j & ni & nj & Hij & Hi & Hxi & Hj & Hxj).
  exists i, j. split; [lia|]. split; eauto.
Qed.

(** X17.  On a fresh store the columns indexed by internal node come out
    with one entry per node, a node's ways and their positions pair up, the
    columns indexed by way get one entry per way, and the flags, the
    restrictions and the components are not touched. *)
Theorem connect_ways_columns (w : ways) :
  node_to_osm_ w = [] →
  way_nodes_ (r_ w) = [] →
  way_node_dist_ (r_ w) = [] →
  node_ways_ (r_ w) = [] →
  node_in_way_idx_ (r_ w) = [] →
  ∃ w', connect_ways w = Ok w' ∧
    let n := length (for_each_set_bit (node_way_counter_multi_ w)) in
    length (node_to_osm_ w') = n ∧
    length (node_ways_ (r_ w')) = n ∧
    length (node_in_way_idx_ (r_ w')) = n ∧
    length (node_is_restricted_ (r_ w')) = n ∧
    (∀ u, length (bucket (node_ways_ (r_ w')) u)
          = length (bucket (node_in_way_idx_ (r_ w')) u)) ∧
    length (way_nodes_ (r_ w')) = length (inputs w) ∧
    length (way_node_dist_ (r_ w')) = length (inputs w) ∧
    (∀ wy nodes nd, way_nodes_ (r_ w') !! wy = Some nodes → nd ∈ nodes → nd < n) ∧
    way_properties_ (r_ w') = way_properties_ (r_ w) ∧
    node_restrictions_ (r_ w') = node_restrictions_ (r_ w) ∧
    way_component_ (r_ w') = way_component_ (r_ w).
Proof.
  intros Hnto Hwn Hwd Hnw Hniw.
  destruct (connect_ways_spec w)
    as (b & -> & [(added & Hb & Hadded) Hdists Hnwl Hniwl Hslots _ _]).
  eexists. split; [done|]. cbv zeta. simpl. rewrite Hnw, Hniw. simpl.
  rewrite Hwn in Hb. simpl in Hb. subst added.
  assert (length (nodes_created w) = length (for_each_set_bit (node_way_counter_multi_ w)))
    as Hcreated by (unfold nodes_created; by rewrite Hnto).
  assert (Forall2 dist_shape (b_way_nodes b) (b_way_node_dist b)) as Hshape.
  { apply Hdists. rewrite Hwn, Hwd. constructor. }
  split_and!; try done; try congruence.
  - by rewrite length_resize.
  - intros u. by eapply Forall2_length.
  - symmetry. by eapply Forall2_length.
  - rewrite <-(Forall2_length _ _ _ Hshape). symmetry. by eapply Forall2_length.
  - intros wy nodes nd Hwy Hnd.
    destruct (Forall2_lookup_r _ _ _ _ _ Hadded Hwy) as (x & _ & Hres).
    apply list_elem_of_lookup in Hnd as [k Hk].
    destruct (Forall2_lookup_r _ _ _ _ _ Hres Hk) as (osm & _ & Hr).
    apply find_index_Some, lookup_lt_Some in Hr. lia.
Qed.

End Junctions.

(** ** Construction followed by labelling *)

Section BuildThenLabel.
Context `{Geo} `{Components.HashOrder}.
Import Components ComponentFacts Connect ConnectFacts.

(** X5.  Graph construction followed by component labelling, from a fresh
    store: both complete, and two ways get the same component exactly when a
    chain of ways sharing internal nodes of the built graph connects them. *)
Theorem connect_then_build_components fuel (w : ways) :
  way_nodes_ (r_ w) = [] →
  node_ways_ (r_ w) = [] →
  node_in_way_idx_ (r_ w) = [] →
  way_component_ (r_ w) = [] →
  (Z.of_nat (n_ways w) ≤ invalid)%Z →
  n_ways w < fuel →
  ∃ w1 w2, connect_ways w = Ok w1 ∧ build_components fuel w1 = Some w2 ∧
    way_nodes_ (r_ w2) = way_nodes_ (r_ w1) ∧
    ∀ a b, a < n_ways w → b < n_ways w →
      (way_component_ (r_ w2) !! a = way_component_ (r_ w2) !! b
       ↔ connected (r_ w1) a b).
Proof.
  intros Hwn Hnw Hniw Hwc Hsmall Hfuel.
  destruct (connect_ways_consistent w Hwn Hnw Hniw) as (w1 & Hrun & Hn & Hcons).
  assert (way_component_ (r_ w1) = []) as Hwc1.
  { destruct (connect_ways_spec w) as (b & Hrun' & _). rewrite Hrun in Hrun'.
    injection Hrun' as ->. done. }
  exists w1. unfold build_components. rewrite Hwc1, resize_nil.
  rewrite Hn in Hcons.
  destruct (for_each_label_way (r_ w1) (n_ways w) Hcons Hsmall fuel (n_ways w) 0
              (replicate (n_ways w) invalid) 0%Z)
    as (wc & k & Hloop & Hinv); [apply label_inv_start|lia|done|].
  rewrite Hn, Hloop. eexists. split; [done|]. split; [done|]. split; [done|].
  intros a b Ha Hb. simpl.
  apply (label_inv_partition (r_ w1) (n_ways w) wc k a b Hinv Ha Hb).
Qed.

End BuildThenLabel.

(** ** The node columns are the transpose of the way column *)

Module TransposeFacts.
Import Connect ConnectFacts Transpose.

Lemma visits_snoc way_nodes nodes n :
  visits (way_nodes ++ [nodes]) n
  = visits way_nodes n ++ ((λ k, (length way_nodes, k)) <$> occ n nodes).
Proof.
  unfold visits, enumerate. rewrite imap_app, bind_app. f_equal.
  simpl. by rewrite Nat.add_0_r, app_nil_r.
Qed.

Section Build.
Context `{Geo}.
Variables (multi : list bool) (node_to_osm : list nat).
Hypothesis multi_found :
  ∀ x, test_bit multi x = true → is_Some (find_index x node_to_osm).

Lemma connect_way_transposed b x b' :
  length (b_node_ways b) = length node_to_osm →
  length (b_node_in_way_idx b) = length node_to_osm →
  transposed b → connect_way multi node_to_osm b x = Ok b' → transposed b'.
Proof.
  intros Hnwl Hniwl Ht. destruct x as [osm_way_idx [osm_nodes polyline]].
  unfold connect_way.
  destruct (walk_spec multi node_to_osm osm_way_idx (length (b_way_nodes b))
              (b_node_ways b) (b_node_in_way_idx b) (b_out b)
              multi_found Hnwl Hniwl (zip osm_nodes polyline))
    as (s & -> & [_ _ _ _ _ _ _ _ Hsnw Hsniw]).
  simpl. intros [= <-]. intros n. simpl.
  destruct (Ht n) as [Hnw Hniw].
  rewrite Hsnw, Hsniw, Hnw, Hniw, visits_snoc, !fmap_app, <-!list_fmap_compose.
  done.
Qed.

Lemma for_each_connect_way_transposed wn0 wd0 out0 xs b :
  for_each_res (connect_way multi node_to_osm) xs
    (mk_build wn0 wd0 (resize (length node_to_osm) [] [])
       (resize (length node_to_osm) [] []) out0) = Ok b →
  wn0 = [] → transposed b.
Proof.
  intros Hrun ->.
  apply (for_each_res_post _
           (λ handled b, build_inv multi node_to_osm [] wd0 out0 handled b
                         ∧ transposed b)) in Hrun; [apply Hrun| |].
  - split; [by apply build_inv_start|]. intros n. simpl.
    rewrite !bucket_resize. unfold bucket. rewrite !lookup_nil. simpl.
    by case_decide.
  - intros handled x t t' [Hinv Ht] Hx. split.
    + destruct (connect_way_inv multi node_to_osm [] wd0 out0 multi_found
                  handled x t Hinv) as (t'' & Hx' & Hinv').
      rewrite Hx in Hx'. by injection Hx' as <-.
    + eapply connect_way_transposed; [apply Hinv|apply Hinv|done..].
Qed.
End Build.

End TransposeFacts.

Section TransposeStore.
Context `{Geo}.
Import Connect ConnectFacts Transpose TransposeFacts.

(** X15.  From a fresh store [connect_ways] makes the two node columns the
    transpose of the way column: the list of node [n] names, for every way
    in ascending order and every position at which that way runs through
    [n], the way, and the position column holds that position cut to 16
    bits.  So a way is listed at a node once per visit, and at no other
    node. *)
Theorem connect_ways_transpose (w : ways) :
  way_nodes_ (r_ w) = [] →
  node_ways_ (r_ w) = [] →
  node_in_way_idx_ (r_ w) = [] →
  ∃ w', connect_ways w = Ok w' ∧
    ∀ n,
      bucket (node_ways_ (r_ w')) n = (visits (way_nodes_ (r_ w')) n).*1 ∧
      bucket (node_in_way_idx_ (r_ w')) n
      = (λ v, (Z.of_nat v.2 mod 2 ^ 16)%Z) <$> visits (way_nodes_ (r_ w')) n.
Proof.
  intros Hwn Hnw Hniw.
  destruct (connect_ways_run w) as (b & Hloop & _ & ->).
  eexists. split; [done|]. simpl. rewrite Hnw, Hniw. simpl.
  by apply (for_each_connect_way_transposed _ _ (multi_resolved w) _ _ _ _ _ Hloop).
Qed.

End TransposeStore.

(** ** Lookups on a store kept in step *)

Section LookupStore.
Context `{Geo}.
Import Access AccessFacts Lookup.

(** X18.  On a store whose conditional-access columns are in step no lookup
    is abandoned, whatever way is asked for, in range or not: the answer is
    empty exactly for the ways without presence bit, and otherwise the
    string of an entry of the way. *)
Theorem get_access_restriction_total (w : ways) (way : nat) :
  in_step w →
  ∃ o, get_access_restriction w way = Ok o ∧
    (o = None ↔ test_bit (way_has_conditional_access_no_ w) way = false) ∧
    ∀ s, o = Some s →
      ∃ idx, (way, idx) ∈ way_conditional_access_no_ w ∧
             s = default EmptyString (strings_ w !! idx).
Proof.
  intros [Hsorted Hentry]. unfold get_access_restriction.
  destruct (test_bit (way_has_conditional_access_no_ w) way) eqn:Hbit; simpl.
  - destruct (Hentry way Hbit) as (idx & [j Hj]%list_elem_of_lookup).
    destruct (lower_bound_finds _ way Hsorted j idx Hj) as (idx' & Hres & _).
    rewrite Hres. simpl. rewrite bool_decide_eq_true_2 by done.
    eexists. split; [done|]. split; [done|].
    intros s [= <-]. exists idx'. split; [|done]. by eapply list_elem_of_lookup_2.
  - exists None. by split_and!.
Qed.

End LookupStore.

Section Checks.
Import Examples BigStreet Components ComponentFacts Restrictions RestrictionFacts.
Import Connect ConnectFacts.
#[local] Existing Instance plane_geo.
#[local] Existing Instance rank_slots.
#[local] Existing Instance first_listed.

(** C1.  The pass on the chain of three ways: way 0 is originally major,
    way 1 touches it, way 2 touches way 1 only and so is two hops from
    way 0.  The pass flags way 1 and leaves way 2 unflagged: the nested
    call made for a fresh neighbour looks at the nodes of the way it came
    from, not at those of the neighbour. *)
Theorem big_street_two_hops_missed :
  is_big_street_ <$> way_properties_ (r_ three_ways) = [true; false; false] ∧
  touches (r_ three_ways) 1 0 ∧
  touches (r_ three_ways) 2 1 ∧
  ¬ touches (r_ three_ways) 2 0 ∧
  ∃ w', compute_big_street_neighbors 2 three_ways = Some w' ∧
        is_big_street_ <$> way_properties_ (r_ w') = [true; true; false].
Proof.
  split; [done|]. split; [exists 0; split; apply list_elem_of_In; simpl; tauto|].
  split; [exists 1; split; apply list_elem_of_In; simpl; tauto|]. split.
  - intros (nd & H2%list_elem_of_In & H0%list_elem_of_In). simpl in *. lia.
  - eexists. split; [by vm_compute|]. done.
Qed.


Lemma build_components_partition_witness :
  consistent (n_ways three_ways) (r_ three_ways) ∧
  way_component_ (r_ three_ways) = [] ∧
  (Z.of_nat (n_ways three_ways) ≤ Components.invalid)%Z ∧
  n_ways three_ways < 4 ∧
  ∃ wc, build_components 4 three_ways
        = Some (with_routing three_ways (with_way_component (r_ three_ways) wc)) ∧
        length wc = 3 ∧
        (∀ a b, touches (r_ three_ways) a b → wc !! a = wc !! b).
Proof.
  assert (consistent (n_ways three_ways) (r_ three_ways)) as Hc
    by (apply consistent_b_sound; reflexivity).
  assert ((Z.of_nat (n_ways three_ways) ≤ Components.invalid)%Z) as Hn
    by (vm_compute; congruence).
  assert (n_ways three_ways < 4) as Hf by (vm_compute; lia).
  split; [exact Hc|]. split; [reflexivity|]. split; [exact Hn|]. split; [exact Hf|].
  destruct (build_components_partition 4 three_ways Hc eq_refl Hn Hf)
    as (wc & Hrun & Hlen & _ & Htouch & _).
  exists wc. split; [exact Hrun|]. split; [exact Hlen|exact Htouch].
Defined.

Lemma add_one_no_witness :
  let x := mk_resolved_restriction kNo 1 2 1 in
  type_ x = kNo ∧ via_ x < length (node_restrictions_ junctions_padded) ∧
  bucket (node_restrictions_ (add_one junctions_padded x)) 1
  = [mk_restriction 0 1].
Proof.
  split; [reflexivity|]. split; [vm_compute; lia|].
  destruct (add_one_no junctions_padded (mk_resolved_restriction kNo 1 2 1) eq_refl)
    as (Hlist & _); [vm_compute; lia|].
  exact Hlist.
Defined.





Lemma connect_ways_nodes_witness :
  node_to_osm_ survey = [] ∧ counter_ok survey ∧
  ∃ w', connect_ways survey = Ok w' ∧
        ∀ n m x y, n < m → node_to_osm_ w' !! n = Some x →
                   node_to_osm_ w' !! m = Some y → x < y.
Proof.
  assert (counter_ok survey) as Hc by (apply counter_ok_b_sound; reflexivity).
  split; [reflexivity|]. split; [exact Hc|].
  destruct (connect_ways_nodes survey eq_refl Hc) as (w' & Hrun & _ & _ & Hinc).
  exists w'. split; [exact Hrun|exact Hinc].
Defined.


Lemma get_access_restriction_cases_witness :
  get_access_restriction access 0 = Ok None ∧
  get_access_restriction access 2
  = Aborted (verify_failed
      "access restriction for way with access restriction not found way=102") ∧
  ∃ i idx', way_conditional_access_no_ access !! i = Some (1, idx') ∧
            get_access_restriction access 1
            = Ok (Some (default EmptyString (strings_ access !! idx'))).
Proof.
  destruct (get_access_restriction_cases access 0) as (Hnone & _ & _).
  destruct (get_access_restriction_cases access 2) as (_ & Habort & _).
  destruct (get_access_restriction_cases access 1) as (_ & _ & Hfound).
  split; [by apply Hnone|]. split.
  - refine (Habort eq_refl _ 102 eq_refl).
    intros a Ha%list_elem_of_singleton. by subst a.
  - destruct (Hfound eq_refl) with (j := 0) (idx := 0) as (i & idx' & _ & Hi & _ & Hrun);
      [repeat constructor|reflexivity|].
    exists i, idx'. split; [exact Hi|exact Hrun].
Defined.


(** The operations on the example stores. *)

Example build_components_islands :
  option_map (λ w, way_component_ (r_ w)) (build_components 5 islands)
  = Some [0; 0; 1; 1]%Z.
Proof. by vm_compute. Qed.

Example connect_ways_survey :
  ∃ w', connect_ways survey = Ok w' ∧
    node_to_osm_ w' = [1; 3; 4] ∧
    way_nodes_ (r_ w') = [[0; 1]; [1; 2]; [2; 0]] ∧
    way_node_dist_ (r_ w') = [[7]; [5]; [24]]%Z ∧
    node_ways_ (r_ w') = [[0; 2]; [0; 1]; [1; 2]] ∧
    node_in_way_idx_ (r_ w') = [[0; 1]; [1; 0]; [1; 0]]%Z ∧
    printed_ w' = [].
Proof. eexists. split; [by vm_compute|]. by vm_compute. Qed.

Example add_restriction_junctions :
  let w1 := (add_restriction junctions batch).2 in
  let w2 := (add_restriction w1 batch).2 in
  node_restrictions_ (r_ w1)
  = [[mk_restriction 0 0; mk_restriction 0 2]; [mk_restriction 0 1];
     [mk_restriction 1 0]] ∧
  node_restrictions_ (r_ w2)
  = [[mk_restriction 0 0; mk_restriction 0 2; mk_restriction 0 0; mk_restriction 0 2];
     [mk_restriction 0 1]; [mk_restriction 1 0]] ∧
  node_is_restricted_ (r_ w1) = [true; true; true].
Proof. by vm_compute. Qed.

End Checks.

(** ** The further statements on the example stores *)

Section FurtherChecks.
Import Examples Scenarios BigStreet Components ComponentFacts Restrictions RestrictionFacts.
Import Connect ConnectFacts Legs Transpose Aligned Lookup Numbering.
#[local] Existing Instance plane_geo.
#[local] Existing Instance rank_slots.
#[local] Existing Instance first_listed.

Lemma build_components_numbering_witness :
  consistent (n_ways islands) (r_ islands) ∧
  way_component_ (r_ islands) = [] ∧
  (Z.of_nat (n_ways islands) ≤ Components.invalid)%Z ∧
  n_ways islands < 5 ∧
  ∃ w', build_components 5 islands = Some w' ∧
    ∀ a c, way_component_ (r_ w') !! a = Some c → (0 ≤ c ≤ Z.of_nat a)%Z.
Proof.
  assert (consistent (n_ways islands) (r_ islands)) as Hc
    by (apply consistent_b_sound; reflexivity).
  assert ((Z.of_nat (n_ways islands) ≤ Components.invalid)%Z) as Hn
    by (vm_compute; congruence).
  assert (n_ways islands < 5) as Hf by (vm_compute; lia).
  split; [exact Hc|]. split; [reflexivity|]. split; [exact Hn|]. split; [exact Hf|].
  destruct (build_components_numbering 5 islands Hc eq_refl Hn Hf) as (w' & Hrun & Hnum).
  exists w'. split; [exact Hrun|]. intros a c Ha. exact (proj1 (Hnum a c Ha)).
Defined.


Lemma build_components_keeps_witness :
  in_range (n_ways half_labelled) (r_ half_labelled) ∧
  (Z.of_nat (n_ways half_labelled) ≤ Components.invalid)%Z ∧
  n_ways half_labelled < 5 ∧
  way_component_ (r_ half_labelled) !! 0 = Some 5%Z ∧
  ∃ w', build_components 5 half_labelled = Some w' ∧
        way_component_ (r_ w') !! 0 = Some 5%Z.
Proof.
  assert (in_range (n_ways half_labelled) (r_ half_labelled)) as Hr
    by (apply in_range_b_sound; reflexivity).
  assert ((Z.of_nat (n_ways half_labelled) ≤ Components.invalid)%Z) as Hn
    by (vm_compute; congruence).
  assert (n_ways half_labelled < 5) as Hf by (vm_compute; lia).
  split; [exact Hr|]. split; [exact Hn|]. split; [exact Hf|]. split; [reflexivity|].
  destruct (build_components_keeps 5 half_labelled Hr Hn Hf) as (w' & Hrun & _ & _ & Hkeep).
  exists w'. split; [exact Hrun|].
  apply (Hkeep 0 5%Z); [vm_compute; lia|reflexivity|vm_compute; congruence].
Defined.

Lemma build_components_twice_witness :
  in_range (n_ways islands) (r_ islands) ∧
  (Z.of_nat (n_ways islands) ≤ Components.invalid)%Z ∧
  n_ways islands < 5 ∧
  ∃ w', build_components 5 islands = Some w' ∧ build_components 0 w' = Some w'.
Proof.
  assert (in_range (n_ways islands) (r_ islands)) as Hr
    by (apply in_range_b_sound; reflexivity).
  assert ((Z.of_nat (n_ways islands) ≤ Components.invalid)%Z) as Hn
    by (vm_compute; congruence).
  assert (n_ways islands < 5) as Hf by (vm_compute; lia).
  split; [exact Hr|]. split; [exact Hn|]. split; [exact Hf|].
  exact (build_components_twice 5 0 islands Hr Hn Hf).
Defined.

Lemma compute_big_street_neighbors_touching_witness :
  2 ≤ 2 ∧ consistent (n_ways three_ways) (r_ three_ways) ∧
  length (way_properties_ (r_ three_ways)) = n_ways three_ways ∧
  ∃ ps, compute_big_street_neighbors 2 three_ways
        = Some (with_routing three_ways (with_way_properties (r_ three_ways) ps)) ∧
        major (with_way_properties (r_ three_ways) ps) 1 = true.
Proof.
  assert (consistent (n_ways three_ways) (r_ three_ways)) as Hc
    by (apply consistent_b_sound; reflexivity).
  split; [lia|]. split; [exact Hc|]. split; [reflexivity|].
  destruct (compute_big_street_neighbors_touching 2 three_ways (le_n 2) Hc eq_refl)
    as (ps & Hrun & _ & Hflags).
  exists ps. split; [exact Hrun|]. apply Hflags. right. exists 0. split; [|reflexivity].
  exists 0. split; apply list_elem_of_In; simpl; tauto.
Defined.

Lemma compute_big_street_neighbors_twice_witness :
  2 ≤ 2 ∧ 2 ≤ 3 ∧ consistent (n_ways three_ways) (r_ three_ways) ∧
  length (way_properties_ (r_ three_ways)) = n_ways three_ways ∧
  ∃ w1 w2, compute_big_street_neighbors 2 three_ways = Some w1 ∧
           compute_big_street_neighbors 3 w1 = Some w2 ∧
           major (r_ w2) 2 = true.
Proof.
  assert (consistent (n_ways three_ways) (r_ three_ways)) as Hc
    by (apply consistent_b_sound; reflexivity).
  split; [lia|]. split; [lia|]. split; [exact Hc|]. split; [reflexivity|].
  destruct (compute_big_street_neighbors_twice 2 3 three_ways (le_n 2) (le_S _ _ (le_n 2))
              Hc eq_refl) as (w1 & w2 & Hrun1 & Hrun2 & Hflags).
  exists w1, w2. split; [exact Hrun1|]. split; [exact Hrun2|].
  apply Hflags. right; right. exists 1, 0. split; [|split; [|reflexivity]].
  - exists 1. split; apply list_elem_of_In; simpl; tauto.
  - exists 0. split; apply list_elem_of_In; simpl; tauto.
Defined.

Lemma big_street_units_any_order_witness :
  2 ≤ 2 ∧ Permutation [0; 1; 2] [2; 0; 1] ∧
  ∃ ps,
    for_each_opt (visit 2 (r_ three_ways) [true; false; false]) [0; 1; 2]
      (way_properties_ (r_ three_ways)) = Some ps ∧
    for_each_opt (visit 2 (r_ three_ways) [true; false; false]) [2; 0; 1]
      (way_properties_ (r_ three_ways)) = Some ps.
Proof.
  assert (Permutation [0; 1; 2] [2; 0; 1]) as Hp.
  { symmetry. apply (Permutation_cons_app [0; 1] [] 2). reflexivity. }
  split; [lia|]. split; [exact Hp|].
  exact (big_street_units_any_order 2 (r_ three_ways) [true; false; false]
           [0; 1; 2] [2; 0; 1] (way_properties_ (r_ three_ways)) (le_n 2) Hp).
Defined.

Lemma batch_grows_only : grows_only junctions batch.
Proof.
  split; [simpl; lia|]. intros x Hx. unfold batch in Hx.
  repeat (apply elem_of_cons in Hx as [->|Hx]); [simpl; lia..|].
  by apply elem_of_nil in Hx.
Qed.

Lemma batch_in_bits :
  ∀ x, x ∈ batch → via_ x < length (node_is_restricted_ (r_ junctions)).
Proof.
  intros x Hx. unfold batch in Hx.
  repeat (apply elem_of_cons in Hx as [->|Hx]); [simpl; lia..|].
  by apply elem_of_nil in Hx.
Qed.

Lemma add_restriction_column_witness :
  grows_only junctions batch ∧
  length (node_restrictions_ (r_ (add_restriction junctions batch).2)) = 3.
Proof.
  split; [exact batch_grows_only|].
  exact (proj1 (add_restriction_column junctions batch batch_grows_only)).
Defined.

Lemma add_restriction_marked_witness :
  grows_only junctions batch ∧
  (∀ x, x ∈ batch → via_ x < length (node_is_restricted_ (r_ junctions))) ∧
  (∀ u, bucket (node_restrictions_ (r_ junctions)) u ≠ [] →
        test_bit (node_is_restricted_ (r_ junctions)) u = true) ∧
  ∀ u, bucket (node_restrictions_ (r_ (add_restriction junctions batch).2)) u ≠ [] →
       test_bit (node_is_restricted_ (r_ (add_restriction junctions batch).2)) u = true.
Proof.
  assert (∀ u, bucket (node_restrictions_ (r_ junctions)) u ≠ [] →
               test_bit (node_is_restricted_ (r_ junctions)) u = true) as Hcover.
  { intros u Hu. destruct Hu. reflexivity. }
  split; [exact batch_grows_only|]. split; [exact batch_in_bits|].
  split; [exact Hcover|].
  exact (add_restriction_marked junctions batch batch_grows_only batch_in_bits Hcover).
Defined.

Lemma add_restriction_marks_witness :
  (∀ x, x ∈ batch → via_ x < length (node_is_restricted_ (r_ junctions))) ∧
  length (node_is_restricted_ (r_ (add_restriction junctions batch).2)) = 3 ∧
  test_bit (node_is_restricted_ (r_ (add_restriction junctions batch).2)) 1 = true.
Proof.
  split; [exact batch_in_bits|].
  destruct (add_restriction_marks junctions batch batch_in_bits) as [Hlen Hbits].
  split; [exact Hlen|]. apply Hbits. right.
  exists (mk_resolved_restriction kNo 1 2 1). split; [|reflexivity]. right; right; left.
Defined.

Lemma add_one_only_count_witness :
  let x := mk_resolved_restriction kOnly 0 1 0 in
  type_ x = kOnly ∧ via_ x < length (node_restrictions_ junctions_padded) ∧
  length (bucket (node_restrictions_ (add_one junctions_padded x)) 0) = 0 + 1 * 2.
Proof.
  split; [reflexivity|]. split; [vm_compute; lia|].
  destruct (add_one_only_count junctions_padded (mk_resolved_restriction kOnly 0 1 0) eq_refl)
    as [Hcount _]; [vm_compute; lia|].
  exact Hcount.
Defined.

Lemma connect_ways_junctions_witness :
  node_to_osm_ survey = [] ∧ way_nodes_ (r_ survey) = [] ∧ node_ways_ (r_ survey) = [] ∧
  counter_ok survey ∧ aligned survey ∧
  ∃ w', connect_ways survey = Ok w' ∧
    ∀ n, n < length (node_to_osm_ w') →
      ∃ a b, a ≠ b ∧ a ∈ bucket (node_ways_ (r_ w')) n ∧ b ∈ bucket (node_ways_ (r_ w')) n.
Proof.
  assert (counter_ok survey) as Hc by (apply counter_ok_b_sound; reflexivity).
  assert (aligned survey) as Ha by (apply aligned_b_sound; reflexivity).
  split; [reflexivity|]. split; [reflexivity|]. split; [reflexivity|].
  split; [exact Hc|]. split; [exact Ha|].
  exact (connect_ways_junctions survey eq_refl eq_refl eq_refl Hc Ha).
Defined.

Lemma connect_ways_columns_witness :
  node_to_osm_ survey = [] ∧ way_nodes_ (r_ survey) = [] ∧
  way_node_dist_ (r_ survey) = [] ∧ node_ways_ (r_ survey) = [] ∧
  node_in_way_idx_ (r_ survey) = [] ∧
  ∃ w', connect_ways survey = Ok w' ∧ length (node_is_restricted_ (r_ w')) = 3.
Proof.
  split; [reflexivity|]. split; [reflexivity|]. split; [reflexivity|].
  split; [reflexivity|]. split; [reflexivity|].
  destruct (connect_ways_columns survey eq_refl eq_refl eq_refl eq_refl eq_refl)
    as (w' & Hrun & _ & _ & _ & Hbits & _).
  exists w'. split; [exact Hrun|exact Hbits].
Defined.

Lemma connect_ways_transpose_witness :
  way_nodes_ (r_ survey) = [] ∧ node_ways_ (r_ survey) = [] ∧
  node_in_way_idx_ (r_ survey) = [] ∧
  ∃ w', connect_ways survey = Ok w' ∧
        bucket (node_ways_ (r_ w')) 0 = (visits (way_nodes_ (r_ w')) 0).*1.
Proof.
  split; [reflexivity|]. split; [reflexivity|]. split; [reflexivity|].
  destruct (connect_ways_transpose survey eq_refl eq_refl eq_refl) as (w' & Hrun & Ht).
  exists w'. split; [exact Hrun|exact (proj1 (Ht 0))].
Defined.

Lemma connect_then_build_components_witness :
  way_nodes_ (r_ survey) = [] ∧ node_ways_ (r_ survey) = [] ∧
  node_in_way_idx_ (r_ survey) = [] ∧ way_component_ (r_ survey) = [] ∧
  (Z.of_nat (n_ways survey) ≤ Components.invalid)%Z ∧ n_ways survey < 4 ∧
  ∃ w1 w2, connect_ways survey = Ok w1 ∧ build_components 4 w1 = Some w2 ∧
           way_nodes_ (r_ w2) = way_nodes_ (r_ w1).
Proof.
  assert ((Z.of_nat (n_ways survey) ≤ Components.invalid)%Z) as Hn
    by (vm_compute; congruence).
  assert (n_ways survey < 4) as Hf by (vm_compute; lia).
  split; [reflexivity|]. split; [reflexivity|]. split; [reflexivity|].
  split; [reflexivity|]. split; [exact Hn|]. split; [exact Hf|].
  destruct (connect_then_build_components 4 survey eq_refl eq_refl eq_refl eq_refl Hn Hf)
    as (w1 & w2 & Hrun1 & Hrun2 & Hwn & _).
  exists w1, w2. split; [exact Hrun1|]. split; [exact Hrun2|exact Hwn].
Defined.

Lemma get_access_restriction_total_witness :
  in_step timetable ∧
  ∃ o, get_access_restriction timetable 3 = Ok o ∧ o ≠ None.
Proof.
  assert (in_step timetable) as Hs.
  { split; [repeat constructor|].
    intros [|[|[|[|way]]]]; try discriminate; intros _.
    - exists 0. left.
    - exists 1. right; left. }
  split; [exact Hs|].
  destruct (get_access_restriction_total timetable 3 Hs) as (o & Hrun & Hnone & _).
  exists o. split; [exact Hrun|]. intros Ho. apply Hnone in Ho. discriminate Ho.
Defined.

(** The operations on the example stores. *)

Example leg_distances_survey :
  (λ x, leg_distances (node_way_counter_multi_ survey) (zip x.2.1 x.2.2)) <$> inputs survey
  = [[7]; [5]; [24]]%Z.
Proof. by vm_compute. Qed.

Example build_components_half_labelled :
  option_map (λ w, way_component_ (r_ w)) (build_components 5 half_labelled)
  = Some [5; 0; 1; 1]%Z.
Proof. by vm_compute. Qed.

Example visits_survey :
  visits [[0; 1]; [1; 2]; [2; 0]] <$> [0; 1; 2]
  = [[(0, 0); (2, 1)]; [(0, 1); (1, 0)]; [(1, 1); (2, 0)]].
Proof. by vm_compute. Qed.

Example compute_big_street_neighbors_three_ways_twice :
  option_map (λ w, is_big_street_ <$> way_properties_ (r_ w))
    (compute_big_street_neighbors 2 three_ways ≫= compute_big_street_neighbors 2)
  = Some [true; true; true].
Proof. by vm_compute. Qed.

End FurtherChecks.
